(** * kubeve: the live event pipeline and its view model

    A shallow embedding of the Go package [ui] of kubeve (table.go,
    the command palette and tui.go) together with the properties its
    specification states about aggregation, text layout, fuzzy matching,
    the recent-namespace list and the watch-generation discipline.

    Go strings are byte strings: [string] with one [ascii] per byte.
    Go [int] is 64 bits wide; where an [int] comes from outside (a table
    width, the generation counter) its wrap-around is written out with
    [wrap64]; quantities bounded by the length of an in-memory slice or
    string are plain [Z]. *)

From stdpp Require Import gmap strings list fin_maps sorting lexico.
From Stdlib Require Import ZArith Lia Ascii.

Local Open Scope Z_scope.

(** ** Byte-level string functions of the Go standard library *)

Module GoString.

Definition len (s : string) : Z := Z.of_nat (String.length s).

(** [s[:n]] and [s[n:]] for [0 <= n <= len s]. *)
Fixpoint slice_to (n : nat) (s : string) : string :=
  match n, s with
  | S n', String c s' => String c (slice_to n' s')
  | _, _ => ""
  end.

Fixpoint slice_from (n : nat) (s : string) : string :=
  match n, s with
  | S n', String _ s' => slice_from n' s'
  | _, _ => s
  end.

(** [strings.HasPrefix]. *)
Fixpoint HasPrefix (s p : string) {struct p} : bool :=
  match p, s with
  | "", _ => true
  | String a p', String b s' => Ascii.eqb a b && HasPrefix s' p'
  | String _ _, "" => false
  end.

(** Position of the first occurrence of [sub] in [s]. *)
Fixpoint index_of (s sub : string) : option nat :=
  if HasPrefix s sub then Some 0%nat
  else match s with
       | "" => None
       | String _ s' => S <$> index_of s' sub
       end.

(** [strings.Index]: -1 when [sub] does not occur. *)
Definition Index (s sub : string) : Z :=
  match index_of s sub with
  | Some i => Z.of_nat i
  | None => -1
  end.

(** [strings.Contains]. *)
Definition Contains (s sub : string) : bool := 0 <=? Index s sub.

(** The loop of [strings.genSplit] for a non-empty separator: [n] is
    the number of substrings still allowed. *)
Fixpoint splitn (n : nat) (s sep : string) : list string :=
  match n with
  | O => []
  | S O => [s]
  | S n' =>
      match index_of s sep with
      | None => [s]
      | Some m =>
          slice_to m s :: splitn n' (slice_from (m + String.length sep) s) sep
      end
  end.

(** [strings.SplitN s sep n] for a non-empty [sep]; a negative [n]
    means no limit, and [len s + 1] substrings always suffice. *)
Definition SplitN (s sep : string) (n : Z) : list string :=
  if n <? 0 then splitn (S (String.length s)) s sep
  else splitn (Z.to_nat n) s sep.

(** [strings.Split]. *)
Definition Split (s sep : string) : list string := SplitN s sep (-1).

(** [strings.Join]. *)
Definition Join (elems : list string) (sep : string) : string :=
  String.concat sep elems.

Fixpoint repeat_byte (n : nat) (c : ascii) : string :=
  match n with
  | O => ""
  | S n' => String c (repeat_byte n' c)
  end.

Definition digit (d : Z) : ascii := ascii_of_nat (48 + Z.to_nat d).

Fixpoint digits (fuel : nat) (n : Z) (acc : string) : string :=
  match fuel with
  | O => acc
  | S f =>
      let acc' := String (digit (n mod 10)) acc in
      if n <? 10 then acc' else digits f (n / 10) acc'
  end.

(** [strconv.Itoa]. *)
Definition Itoa (n : Z) : string :=
  if n <? 0 then String "-" (digits (S (Z.to_nat (Z.log2 (- n)))) (- n) "")
  else digits (S (Z.to_nat (Z.log2 n))) n "".

End GoString.

Export GoString.

(** The newline byte. *)
Definition newline : string := String (ascii_of_nat 10) "".

(** ** 64-bit integers *)

Definition wrap64 (x : Z) : Z := (x + 2 ^ 63) mod 2 ^ 64 - 2 ^ 63.
Definition maxInt : Z := 2 ^ 63 - 1.
Definition minInt : Z := - 2 ^ 63.
Definition isInt (x : Z) : Prop := minInt <= x <= maxInt.

(** ** [time.Time]

    An instant (nanoseconds since January 1, year 1, 00:00:00 UTC, the
    zero time) and the offset of the zone it is shown in.  [After],
    [Equal] and [IsZero] look at the instant only, as in Go. *)

Record Time := mkTime { instant : Z; zone : Z }.

Global Instance Time_eq_dec : EqDecision Time.
Proof. solve_decision. Defined.

Definition zeroTime : Time := mkTime 0 0.
Definition IsZero (t : Time) : bool := instant t =? 0.
Definition After (t u : Time) : bool := instant u <? instant t.
Definition Equal (t u : Time) : bool := instant t =? instant u.

(** ** Unicode-aware and calendar functions of the Go standard library

    These are not part of the repository.  The program is written against
    this interface; [ascii_lib] below implements it for ASCII text and
    canonical RFC 3339 timestamps so that everything computes. *)

Definition rune := Z.

Class GoLib := {
  TrimSpace : string -> string;           (* strings.TrimSpace *)
  Fields : string -> list string;         (* strings.Fields *)
  ToLower : string -> string;             (* strings.ToLower *)
  runes : string -> list rune;            (* []rune(s) *)
  ParseRFC3339 : string -> option Time;   (* time.Parse(time.RFC3339, s) *)
  FormatRFC3339 : Time -> string          (* t.Format(time.RFC3339) *)
}.

(** *** An executable instance for ASCII text *)

Module AsciiLib.

Definition is_space (c : ascii) : bool := Ascii.is_space c.

Fixpoint trim_left (s : string) : string :=
  match s with
  | String c s' => if is_space c then trim_left s' else s
  | "" => ""
  end.

Fixpoint trim_right (s : string) : string :=
  match s with
  | "" => ""
  | String c s' =>
      match trim_right s' with
      | "" => if is_space c then "" else String c ""
      | r => String c r
      end
  end.

Definition TrimSpace (s : string) : string := trim_right (trim_left s).

(** [cur] is the field being read, if any. *)
Fixpoint fields_go (cur : option string) (s : string) : list string :=
  match s with
  | "" => match cur with Some w => [w] | None => [] end
  | String c s' =>
      if is_space c
      then match cur with Some w => w :: fields_go None s' | None => fields_go None s' end
      else fields_go (Some (match cur with Some w => w +:+ String c "" | None => String c "" end)) s'
  end.

Definition Fields (s : string) : list string := fields_go None s.

Definition lower (c : ascii) : ascii :=
  let n := nat_of_ascii c in
  if ((65 <=? n) && (n <=? 90))%nat then ascii_of_nat (n + 32) else c.

Fixpoint ToLower (s : string) : string :=
  match s with
  | "" => ""
  | String c s' => String (lower c) (ToLower s')
  end.

(** One rune per byte: exact for ASCII text. *)
Fixpoint runes (s : string) : list rune :=
  match s with
  | "" => []
  | String c s' => Z.of_nat (nat_of_ascii c) :: runes s'
  end.

(** Calendar arithmetic for timestamps of the shape
    [YYYY-MM-DDTHH:MM:SS(Z|+HH:MM|-HH:MM)]. *)

Definition isLeap (y : Z) : bool :=
  ((y mod 4 =? 0) && negb (y mod 100 =? 0)) || (y mod 400 =? 0).

Definition daysIn (y m : Z) : Z :=
  if m =? 2 then (if isLeap y then 29 else 28)
  else if (m =? 4) || (m =? 6) || (m =? 9) || (m =? 11) then 30 else 31.

Definition daysBeforeYear (y : Z) : Z :=
  365 * (y - 1) + (y - 1) / 4 - (y - 1) / 100 + (y - 1) / 400.

Fixpoint daysBeforeMonth (fuel : nat) (y m : Z) : Z :=
  match fuel with
  | O => 0
  | S f => if m <=? 1 then 0 else daysIn y (m - 1) + daysBeforeMonth f y (m - 1)
  end.

Definition digitVal (c : ascii) : option Z :=
  let n := nat_of_ascii c in
  if ((48 <=? n) && (n <=? 57))%nat then Some (Z.of_nat n - 48) else None.

Fixpoint number (cs : list ascii) (acc : Z) : option Z :=
  match cs with
  | [] => Some acc
  | c :: cs' => d ← digitVal c; number cs' (10 * acc + d)
  end.

Definition num (cs : list ascii) : option Z := number cs 0.

Definition parseZone (cs : list ascii) : option Z :=
  match cs with
  | ["Z"%char] => Some 0
  | [sg; h1; h2; ":"%char; m1; m2] =>
      h ← num [h1; h2]; m ← num [m1; m2];
      if (h <? 24) && (m <? 60) then
        if decide (sg = "+"%char) then Some (h * 3600 + m * 60)
        else if decide (sg = "-"%char) then Some (- (h * 3600 + m * 60))
        else None
      else None
  | _ => None
  end.

Definition ParseRFC3339 (s : string) : option Time :=
  match String.list_ascii_of_string s with
  | y1 :: y2 :: y3 :: y4 :: "-"%char :: mo1 :: mo2 :: "-"%char :: d1 :: d2 ::
    "T"%char :: h1 :: h2 :: ":"%char :: mi1 :: mi2 :: ":"%char :: s1 :: s2 :: z =>
      y ← num [y1; y2; y3; y4]; mo ← num [mo1; mo2]; d ← num [d1; d2];
      h ← num [h1; h2]; mi ← num [mi1; mi2]; sc ← num [s1; s2];
      off ← parseZone z;
      if (1 <=? mo) && (mo <=? 12) && (1 <=? d) && (d <=? daysIn y mo)
         && (h <? 24) && (mi <? 60) && (sc <? 60)
      then
        let days := daysBeforeYear y + daysBeforeMonth 12 y mo + (d - 1) in
        Some (mkTime ((days * 86400 + h * 3600 + mi * 60 + sc - off) * 1000000000) off)
      else None
  | _ => None
  end.

Definition pad2 (n : Z) : string :=
  String (digit (n / 10 mod 10)) (String (digit (n mod 10)) "").

Definition pad4 (n : Z) : string :=
  String (digit (n / 1000 mod 10)) (String (digit (n / 100 mod 10)) (pad2 n)).

Fixpoint monthOf (fuel : nat) (y m yday : Z) : Z * Z :=
  match fuel with
  | O => (m, yday)
  | S f => if yday <? daysIn y m then (m, yday) else monthOf f y (m + 1) (yday - daysIn y m)
  end.

Definition FormatRFC3339 (t : Time) : string :=
  let secs := instant t / 1000000000 + zone t in
  let days := secs / 86400 in
  let rem := secs mod 86400 in
  let n400 := days / 146097 in
  let d1 := days mod 146097 in
  let n100 := Z.min 3 (d1 / 36524) in
  let d2 := d1 - n100 * 36524 in
  let n4 := d2 / 1461 in
  let d3 := d2 mod 1461 in
  let n1 := Z.min 3 (d3 / 365) in
  let yday := d3 - n1 * 365 in
  let y := 1 + 400 * n400 + 100 * n100 + 4 * n4 + n1 in
  let '(m, d) := monthOf 12 y 1 yday in
  let z := zone t in
  pad4 y +:+ "-" +:+ pad2 m +:+ "-" +:+ pad2 (d + 1) +:+ "T" +:+
  pad2 (rem / 3600) +:+ ":" +:+ pad2 (rem / 60 mod 60) +:+ ":" +:+ pad2 (rem mod 60) +:+
  (if z =? 0 then "Z"
   else (if z <? 0 then "-" else "+") +:+
        pad2 (Z.abs z / 3600) +:+ ":" +:+ pad2 (Z.abs z / 60 mod 60)).

End AsciiLib.

Definition ascii_lib : GoLib := {|
  TrimSpace := AsciiLib.TrimSpace;
  Fields := AsciiLib.Fields;
  ToLower := AsciiLib.ToLower;
  runes := AsciiLib.runes;
  ParseRFC3339 := AsciiLib.ParseRFC3339;
  FormatRFC3339 := AsciiLib.FormatRFC3339
|}.

(** ** The render sink: [tview.Table]

    The model keeps the title, the grid of cells with the text and the
    expansion of each, the selected row, whether the view tracks the end,
    and the width of the inner rectangle, which the terminal decides.
    Colours and attributes of cells are left out. *)

Module Tview.

Record TableCell := mkCell { Text : string; Expansion : Z }.

Definition NewTableCell (text : string) : TableCell := mkCell text 0.
Definition SetExpansion (e : Z) (c : TableCell) : TableCell := mkCell (Text c) e.

Record Table := mkTable {
  tableTitle : string;
  tableCells : list (list TableCell);
  selectedRow : Z;
  trackEnd : bool;
  innerWidth : Z
}.

Definition GetTitle (t : Table) : string := tableTitle t.
Definition SetTitle (s : string) (t : Table) : Table :=
  mkTable s (tableCells t) (selectedRow t) (trackEnd t) (innerWidth t).

Definition GetRowCount (t : Table) : Z := Z.of_nat (length (tableCells t)).

(** Grow [l] with copies of [d] until index [i] exists, then store [x]. *)
Definition store {A} (d : A) (i : nat) (x : A) (l : list A) : list A :=
  <[i := x]> (l ++ replicate (S i - length l) d).

(** [SetCell]: rows and columns are created on demand. *)
Definition SetCell (row col : nat) (c : TableCell) (t : Table) : Table :=
  let cells := tableCells t ++ replicate (S row - length (tableCells t)) [] in
  let r := default [] (cells !! row) in
  mkTable (tableTitle t) (<[row := store (NewTableCell "") col c r]> cells)
          (selectedRow t) (trackEnd t) (innerWidth t).

Definition Clear (t : Table) : Table :=
  mkTable (tableTitle t) [] (selectedRow t) (trackEnd t) (innerWidth t).

Definition Select (row : Z) (t : Table) : Table :=
  mkTable (tableTitle t) (tableCells t) row (trackEnd t) (innerWidth t).
Definition ScrollToEnd (t : Table) : Table :=
  mkTable (tableTitle t) (tableCells t) (selectedRow t) true (innerWidth t).
Definition ScrollToBeginning (t : Table) : Table :=
  mkTable (tableTitle t) (tableCells t) (selectedRow t) false (innerWidth t).

(** The third component of [GetInnerRect]. *)
Definition GetInnerRect (t : Table) : Z := innerWidth t.

(** The terminal changes the width. *)
Definition resize (w : Z) (t : Table) : Table :=
  mkTable (tableTitle t) (tableCells t) (selectedRow t) (trackEnd t) w.

Definition NewTable (status : string) : Table := mkTable status [] 0 false 0.

End Tview.

Export Tview.

(** ** table.go *)

Record ColumnOptions := mkColumnOptions {
  Timestamp : bool;
  Namespace : bool;
  Status : bool;
  Action : bool;
  Resource : bool;
  Aggregate : bool
}.

Record aggregatedEvent := mkAggregatedEvent {
  namespace : string;
  resource : string;
  reason : string;
  lastMessage : string;
  lastSeen : Time;
  lastType : string;
  count : Z
}.

Global Instance aggregatedEvent_eq_dec : EqDecision aggregatedEvent.
Proof. solve_decision. Defined.

(** [sort.Slice]: any sort by [less] will do for the elements the program
    sorts (see [sort_Slice_unique]); the model is a merge sort. *)
Definition notAfter {A} (less : A -> A -> bool) (a b : A) : Prop := less b a = false.

Global Instance notAfter_dec {A} (less : A -> A -> bool) a b : Decision (notAfter less a b).
Proof. unfold notAfter. apply _. Defined.

Definition sort_Slice {A} (less : A -> A -> bool) (l : list A) : list A :=
  merge_sort (notAfter less) l.

(** [parts[i]]; every caller passes six parts. *)
Definition part (parts : list string) (i : nat) : string := default "" (parts !! i).

(** [fmt.Sprintf("%-Ns", s)]: pad on the right to [n] runes. *)
Definition padRight `{GoLib} (n : nat) (s : string) : string :=
  s +:+ repeat_byte (n - length (runes s)) " ".

Section table.
Context `{GoLib}.

Definition renderTableHeader (table : Table) (opts : ColumnOptions) : Table :=
  let cell label e := SetExpansion e (NewTableCell label) in
  let '(table, col) :=
    if Timestamp opts
    then (SetCell 0 0 (cell (if Aggregate opts then "LAST SEEN" else "TIME") 1) table, 1%nat)
    else (table, 0%nat) in
  let '(table, col) :=
    if Namespace opts then (SetCell 0 col (cell "NAMESPACE" 1) table, S col) else (table, col) in
  let '(table, col) :=
    if Status opts
    then (SetCell 0 col (cell (if Aggregate opts then "COUNT" else "STATUS") 1) table, S col)
    else (table, col) in
  let '(table, col) :=
    if Action opts then (SetCell 0 col (cell "ACTION" 1) table, S col) else (table, col) in
  let '(table, col) :=
    if Resource opts then (SetCell 0 col (cell "RESOURCE" 2) table, S col) else (table, col) in
  SetCell 0 col (cell (if Aggregate opts then "LAST MESSAGE" else "MESSAGE") 5) table.

Definition statusColor (statusText : string) : string :=
  if decide (statusText = "Warning") then "[yellow]" else "[white]".

Definition actionColor (actionText : string) : string :=
  if decide (actionText ∈ ["Created"; "SuccessfulCreate"; "Completed"]) then "[green]"
  else if decide (actionText ∈ ["Started"; "Pulled"; "Pulling"]) then "[blue]"
  else if decide (actionText ∈ ["Killing"; "BackOff"; "Unhealthy";
                                "FailedToRetrieveImagePullSecret"]) then "[red]"
  else "[white]".

Definition renderRow (table : Table) (row : nat) (parts : list string)
    (opts : ColumnOptions) : Table :=
  let cell text e := SetExpansion e (NewTableCell text) in
  let '(table, col) :=
    if Timestamp opts
    then (SetCell row 0 (cell (TrimSpace (part parts 0)) 1) table, 1%nat)
    else (table, 0%nat) in
  let '(table, col) :=
    if Namespace opts
    then (SetCell row col (cell (TrimSpace (part parts 4)) 1) table, S col)
    else (table, col) in
  let '(table, col) :=
    if Status opts
    then let statusText := TrimSpace (part parts 2) in
         (SetCell row col (cell (statusColor statusText +:+ statusText) 1) table, S col)
    else (table, col) in
  let '(table, col) :=
    if Action opts
    then let actionText := TrimSpace (part parts 3) in
         (SetCell row col (cell (actionColor actionText +:+ actionText) 1) table, S col)
    else (table, col) in
  let '(table, col) :=
    if Resource opts
    then (SetCell row col (cell (TrimSpace (part parts 1)) 2) table, S col)
    else (table, col) in
  SetCell row col (cell (TrimSpace (part parts 5)) 5) table.

Definition matchesFilter (line filterText : string) : bool := Contains line filterText.

Definition filterEvents (events : list string) (filterText : string) : list string :=
  filter (fun line => matchesFilter line filterText = true) events.

Definition messageColumnWidth (tableWidth : Z) (opts : ColumnOptions) : Z :=
  if tableWidth <=? 0 then 80 else
  let columns := 1 in
  let expansionTotal := 5 in
  let '(columns, expansionTotal) :=
    if Timestamp opts then (columns + 1, expansionTotal + 1) else (columns, expansionTotal) in
  let '(columns, expansionTotal) :=
    if Namespace opts then (columns + 1, expansionTotal + 1) else (columns, expansionTotal) in
  let '(columns, expansionTotal) :=
    if Status opts then (columns + 1, expansionTotal + 1) else (columns, expansionTotal) in
  let '(columns, expansionTotal) :=
    if Action opts then (columns + 1, expansionTotal + 1) else (columns, expansionTotal) in
  let '(columns, expansionTotal) :=
    if Resource opts then (columns + 1, expansionTotal + 2) else (columns, expansionTotal) in
  let separatorWidth := (columns - 1) * 3 in
  let usable := wrap64 (tableWidth - separatorWidth) in
  if usable <? 20 then 20 else
  let width := Z.quot (wrap64 (usable * 5)) expansionTotal in
  if width <? 20 then 20 else width.

(** The inner loop of [wrapLine] that cuts an over-long word: it returns
    the lines so far and what is left of the word.  [fuel] bounds the
    number of cuts; [wrapLine] passes the length of the word. *)
Fixpoint hardSplit (fuel : nat) (width : Z) (lines : list string) (word : string)
    : list string * string :=
  match fuel with
  | O => (lines, word)
  | S fuel' =>
      if width <? len word
      then hardSplit fuel' width (lines ++ [slice_to (Z.to_nat width) word])
                     (slice_from (Z.to_nat width) word)
      else (lines, word)
  end.

Definition flush (st : list string * string) : list string * string :=
  let '(lines, current) := st in
  if decide (current ≠ "") then (lines ++ [current], "") else (lines, current).

(** One iteration of the loop over the words: the state is [lines] and
    [current]. *)
Definition wrapWord (width : Z) (st : list string * string) (word : string)
    : list string * string :=
  if width <? len word then
    let '(lines, _) := flush st in
    hardSplit (String.length word) width lines word
  else
    let '(lines, current) := st in
    if decide (current = "") then (lines, word)
    else
      let candidate := current +:+ " " +:+ word in
      if len candidate <=? width then (lines, candidate)
      else (lines ++ [current], word).

Definition wrapLine (text : string) (width : Z) : list string :=
  if (width <=? 0) || (len text <=? width) then [text] else
  let words := Fields text in
  if decide (length words = 0%nat) then [""] else
  let '(lines, _) := flush (fold_left (wrapWord width) words ([], "")) in
  if decide (length lines = 0%nat) then [""] else lines.

Definition wrapMessage (text : string) (width : Z) : list string :=
  if width <=? 0 then [text] else
  let paragraphs := Split text newline in
  let lines :=
    fold_left (fun lines paragraph =>
                 let trimmed := TrimSpace paragraph in
                 if decide (trimmed = "") then lines ++ [""]
                 else lines ++ wrapLine trimmed width)
              paragraphs [] in
  if decide (length lines = 0%nat) then [""] else lines.

(** [group.count++]. *)
Definition countUp (group : aggregatedEvent) : aggregatedEvent :=
  mkAggregatedEvent (namespace group) (resource group) (reason group)
    (lastMessage group) (lastSeen group) (lastType group) (count group + 1).

(** The three assignments under the [IsZero || After] test. *)
Definition setLast (group : aggregatedEvent) (parsedTime : Time)
    (eventType message : string) : aggregatedEvent :=
  mkAggregatedEvent (namespace group) (resource group) (reason group)
    message parsedTime eventType (count group).

(** One iteration of the first loop of [aggregateEvents]. *)
Definition aggregateLine (groups : gmap string aggregatedEvent) (line : string)
    : gmap string aggregatedEvent :=
  let parts := SplitN line "│" 6 in
  if decide (length parts ≠ 6%nat) then groups else
  let lastSeenText := TrimSpace (part parts 0) in
  let resource := TrimSpace (part parts 1) in
  let eventType := TrimSpace (part parts 2) in
  let reason := TrimSpace (part parts 3) in
  let namespace := TrimSpace (part parts 4) in
  let message := TrimSpace (part parts 5) in
  let key := namespace +:+ "|" +:+ resource +:+ "|" +:+ reason in
  let group :=
    match groups !! key with
    | Some group => group
    | None => mkAggregatedEvent namespace resource reason "" zeroTime eventType 0
    end in
  let group := countUp group in
  let parsedTime := default zeroTime (ParseRFC3339 lastSeenText) in
  let group :=
    if IsZero (lastSeen group) || After parsedTime (lastSeen group)
    then setLast group parsedTime eventType message
    else group in
  <[key := group]> groups.

(** The comparator handed to [sort.Slice]. *)
Definition groupLess (a b : aggregatedEvent) : bool :=
  if negb (count a =? count b) then count b <? count a
  else if negb (Equal (lastSeen a) (lastSeen b)) then After (lastSeen a) (lastSeen b)
  else if negb (String.eqb (namespace a) (namespace b))
       then String.ltb (namespace a) (namespace b)
  else if negb (String.eqb (resource a) (resource b))
       then String.ltb (resource a) (resource b)
  else String.ltb (reason a) (reason b).

(** [groups] after the first loop. *)
Definition aggregateGroups (events : list string) : gmap string aggregatedEvent :=
  fold_left aggregateLine events ∅.

(** [summary] after [sort.Slice]. *)
Definition aggregateSummary (events : list string) : list aggregatedEvent :=
  sort_Slice groupLess (map_to_list (aggregateGroups events)).*2.

Definition formatGroup (group : aggregatedEvent) : string :=
  let lastSeenText :=
    if IsZero (lastSeen group) then "-" else FormatRFC3339 (lastSeen group) in
  padRight 25 lastSeenText +:+ " │ " +:+
  padRight 60 (resource group) +:+ " │ " +:+
  padRight 10 (Itoa (count group)) +:+ " │ " +:+
  padRight 20 (reason group) +:+ " │ " +:+
  padRight 10 (namespace group) +:+ " │ " +:+
  lastMessage group.

Definition aggregateEvents (events : list string) : list string :=
  formatGroup <$> aggregateSummary events.

(** One iteration of the loop of [renderTableContent]: the state is the
    table, [row] and [rowToEvent]. *)
Definition renderLine (opts : ColumnOptions) (wrapMessages : bool) (msgWidth : Z)
    (st : Table * nat * list Z) (eventIdx : nat) (line : string)
    : Table * nat * list Z :=
  let '(table, row, rowToEvent) := st in
  let parts := SplitN line "│" 6 in
  if decide (length parts = 6%nat) then
    if negb wrapMessages then
      (renderRow table row parts opts, S row, rowToEvent ++ [Z.of_nat eventIdx])
    else
      let wrapped := wrapMessage (TrimSpace (part parts 5)) msgWidth in
      let wrapped := if decide (length wrapped = 0%nat) then [""] else wrapped in
      let first := <[5%nat := default "" (head wrapped)]> parts in
      let st := (renderRow table row first opts, S row, rowToEvent ++ [Z.of_nat eventIdx]) in
      fold_left (fun '(table, row, rowToEvent) cont =>
                   (renderRow table row [""; ""; ""; ""; ""; cont] opts, S row,
                    rowToEvent ++ [Z.of_nat eventIdx]))
                (tail wrapped) st
  else st.

Fixpoint renderLines (opts : ColumnOptions) (wrapMessages : bool) (msgWidth : Z)
    (eventIdx : nat) (lines : list string) (st : Table * nat * list Z)
    : Table * nat * list Z :=
  match lines with
  | [] => st
  | line :: rest =>
      renderLines opts wrapMessages msgWidth (S eventIdx) rest
        (renderLine opts wrapMessages msgWidth st eventIdx line)
  end.

Definition renderTableContent (table : Table) (events : list string) (filterText : string)
    (opts : ColumnOptions) (wrapMessages : bool) (tableWidth : Z) : Table * list Z :=
  let msgWidth := messageColumnWidth tableWidth opts in
  let '(table, _, rowToEvent) :=
    renderLines opts wrapMessages msgWidth 0 (filterEvents events filterText)
      (table, 1%nat, []) in
  (table, rowToEvent).

Definition renderTable (table : Table) (events : list string) (filterText : string)
    (opts : ColumnOptions) (wrapMessages : bool) (tableWidth : Z) : Table * list Z :=
  let table := Clear table in
  let table := renderTableHeader table opts in
  renderTableContent table events filterText opts wrapMessages tableWidth.

End table.

(** ** The command palette *)

Record CommandPaletteCommand := mkCommand {
  Name : string;
  Aliases : list string;
  Description : string;
  AcceptsArg : bool
}.

Record CommandPaletteJump := mkJump {
  Label : string;
  Detail : string;
  Search : string;
  Row : Z
}.

Record commandPaletteResult := mkResult {
  Command : option CommandPaletteCommand;
  Jump : option CommandPaletteJump;
  Score : Z
}.

(** The variables of the subsequence loop of [fuzzyMatchScore]. *)
Record matchState := mkMatch {
  qi : Z;
  score : Z;
  streak : Z;
  lastMatch : Z
}.

Section palette.
Context `{GoLib}.

Definition isBoundary (r : rune) : bool :=
  (r =? 32) || (r =? 47) || (r =? 45) || (r =? 95).

(** The body of [for i, ch := range tr]; [prev] is [tr[i-1]] when
    [i > 0].  [None] stands for [break]. *)
Definition matchRune (qr : list rune) (i : Z) (prev : option rune) (ch : rune)
    (st : matchState) : option matchState :=
  if Z.of_nat (length qr) <=? qi st then None else
  if negb (bool_decide (Some ch = qr !! Z.to_nat (qi st))) then Some st else
  let base := 8 in
  let base :=
    if (i =? 0) || match prev with Some p => isBoundary p | None => false end
    then base + 10 else base in
  let '(streak, base) :=
    if i =? lastMatch st + 1
    then (streak st + 1, base + (4 + (streak st + 1)))
    else (0, base) in
  Some (mkMatch (qi st + 1) (score st + base) streak i).

Fixpoint matchLoop (qr : list rune) (i : Z) (prev : option rune) (tr : list rune)
    (st : matchState) : matchState :=
  match tr with
  | [] => st
  | ch :: rest =>
      match matchRune qr i prev ch st with
      | None => st
      | Some st' => matchLoop qr (i + 1) (Some ch) rest st'
      end
  end.

Definition fuzzyMatchScore (query target : string) : Z * bool :=
  let q := ToLower (TrimSpace query) in
  let t := ToLower (TrimSpace target) in
  if decide (q = "") then (1, true) else
  if decide (t = "") then (0, false) else
  let idx := Index t q in
  if 0 <=? idx then
    let containsScore := 1200 - idx * 2 - (len t - len q) in
    let containsScore := if containsScore <? 1 then 1 else containsScore in
    (containsScore, true)
  else
  let qr := runes q in
  let tr := runes t in
  let st := matchLoop qr 0 None tr (mkMatch 0 0 0 (-2)) in
  if negb (qi st =? Z.of_nat (length qr)) then (0, false) else
  let score := score st - (Z.of_nat (length tr) - Z.of_nat (length qr)) in
  let score := if score <? 1 then 1 else score in
  (score, true).

(** The comparator handed to [sort.Slice] in [buildCommandPaletteResults]. *)
Definition resultLess (a b : commandPaletteResult) : bool :=
  if negb (Score a =? Score b) then Score b <? Score a else
  match Command a, Jump a, Command b, Jump b with
  | Some _, _, _, Some _ => true
  | _, Some _, Some _, _ => false
  | Some ca, _, Some cb, _ => String.ltb (Name ca) (Name cb)
  | _, Some ja, _, Some jb => Row jb <? Row ja
  | _, _, _, _ => false
  end.

Definition matchCommand (q : string) (results : list commandPaletteResult)
    (command : CommandPaletteCommand) : list commandPaletteResult :=
  let matchText :=
    Name command +:+ " " +:+ Join (Aliases command) " " +:+ " " +:+ Description command in
  let '(score, ok) := fuzzyMatchScore q matchText in
  if negb ok then results
  else results ++ [mkResult (Some command) None (score + 50)].

Definition matchJump (q : string) (results : list commandPaletteResult)
    (jump : CommandPaletteJump) : list commandPaletteResult :=
  let search := Search jump in
  let search := if decide (search = "") then Label jump +:+ " " +:+ Detail jump else search in
  let '(score, ok) := fuzzyMatchScore q search in
  if negb ok then results
  else results ++ [mkResult None (Some jump) score].

Definition buildCommandPaletteResults (query : string)
    (commands : list CommandPaletteCommand) (jumps : list CommandPaletteJump)
    : list commandPaletteResult :=
  let q := TrimSpace query in
  let results := fold_left (matchCommand q) commands [] in
  let results := fold_left (matchJump q) jumps results in
  let results := sort_Slice resultLess results in
  if decide (q = "") then
    let limit := 20%nat in
    if decide (limit < length results)%nat then take limit results else results
  else results.

End palette.

(** ** tui.go: the variables of [StartUI] and the callbacks that share them

    Every callback runs on the single update loop, so a callback is a
    function from state to state.  What is outside the loop is kept as
    ghost state: [cancelled] lists the generations whose context has been
    cancelled and [started] the watch goroutines started so far, each with
    the namespace and the generation it was started with; [watchCancel]
    holds the generation whose context it cancels. *)

Module TUI.

(** The fields of [corev1.Event] the program reads. *)
Record Event := mkEvent {
  InvolvedKind : string;
  InvolvedName : string;
  LastTimestamp : Time;
  EventType : string;
  EventReason : string;
  EventNamespace : string;
  EventMessage : string
}.

(** What [StartUI] fixes before the loop starts. *)
Record Env := mkEnv {
  clusterName : string;
  gitVersion : string;
  version : string
}.

Record UI := mkUI {
  filterText : string;
  allEvents : list string;
  visibleEvents : list string;
  rowToVisibleEvent : list Z;
  recentNamespaces : list string;
  watchCancel : option Z;
  watchGeneration : Z;
  namespace : string;
  showTimestampColumn : bool;
  autoScroll : bool;
  showNamespaceColumn : bool;
  showStatusColumn : bool;
  showActionColumn : bool;
  showResourceColumn : bool;
  aggregateMode : bool;
  wrapMessages : bool;
  filterVisible : bool;
  table : Table;
  recentNSBox : string;
  infoView : string;
  filter : string;
  cancelled : list Z;
  started : list (string * Z)
}.

Definition set_filterText (v : string) (st : UI) : UI :=
  mkUI v (allEvents st) (visibleEvents st) (rowToVisibleEvent st) (recentNamespaces st) (watchCancel st) (watchGeneration st) (namespace st) (showTimestampColumn st) (autoScroll st) (showNamespaceColumn st) (showStatusColumn st) (showActionColumn st) (showResourceColumn st) (aggregateMode st) (wrapMessages st) (filterVisible st) (table st) (recentNSBox st) (infoView st) (filter st) (cancelled st) (started st).

Definition set_allEvents (v : list string) (st : UI) : UI :=
  mkUI (filterText st) v (visibleEvents st) (rowToVisibleEvent st) (recentNamespaces st) (watchCancel st) (watchGeneration st) (namespace st) (showTimestampColumn st) (autoScroll st) (showNamespaceColumn st) (showStatusColumn st) (showActionColumn st) (showResourceColumn st) (aggregateMode st) (wrapMessages st) (filterVisible st) (table st) (recentNSBox st) (infoView st) (filter st) (cancelled st) (started st).

Definition set_visibleEvents (v : list string) (st : UI) : UI :=
  mkUI (filterText st) (allEvents st) v (rowToVisibleEvent st) (recentNamespaces st) (watchCancel st) (watchGeneration st) (namespace st) (showTimestampColumn st) (autoScroll st) (showNamespaceColumn st) (showStatusColumn st) (showActionColumn st) (showResourceColumn st) (aggregateMode st) (wrapMessages st) (filterVisible st) (table st) (recentNSBox st) (infoView st) (filter st) (cancelled st) (started st).

Definition set_rowToVisibleEvent (v : list Z) (st : UI) : UI :=
  mkUI (filterText st) (allEvents st) (visibleEvents st) v (recentNamespaces st) (watchCancel st) (watchGeneration st) (namespace st) (showTimestampColumn st) (autoScroll st) (showNamespaceColumn st) (showStatusColumn st) (showActionColumn st) (showResourceColumn st) (aggregateMode st) (wrapMessages st) (filterVisible st) (table st) (recentNSBox st) (infoView st) (filter st) (cancelled st) (started st).

Definition set_recentNamespaces (v : list string) (st : UI) : UI :=
  mkUI (filterText st) (allEvents st) (visibleEvents st) (rowToVisibleEvent st) v (watchCancel st) (watchGeneration st) (namespace st) (showTimestampColumn st) (autoScroll st) (showNamespaceColumn st) (showStatusColumn st) (showActionColumn st) (showResourceColumn st) (aggregateMode st) (wrapMessages st) (filterVisible st) (table st) (recentNSBox st) (infoView st) (filter st) (cancelled st) (started st).

Definition set_watchCancel (v : option Z) (st : UI) : UI :=
  mkUI (filterText st) (allEvents st) (visibleEvents st) (rowToVisibleEvent st) (recentNamespaces st) v (watchGeneration st) (namespace st) (showTimestampColumn st) (autoScroll st) (showNamespaceColumn st) (showStatusColumn st) (showActionColumn st) (showResourceColumn st) (aggregateMode st) (wrapMessages st) (filterVisible st) (table st) (recentNSBox st) (infoView st) (filter st) (cancelled st) (started st).

Definition set_watchGeneration (v : Z) (st : UI) : UI :=
  mkUI (filterText st) (allEvents st) (visibleEvents st) (rowToVisibleEvent st) (recentNamespaces st) (watchCancel st) v (namespace st) (showTimestampColumn st) (autoScroll st) (showNamespaceColumn st) (showStatusColumn st) (showActionColumn st) (showResourceColumn st) (aggregateMode st) (wrapMessages st) (filterVisible st) (table st) (recentNSBox st) (infoView st) (filter st) (cancelled st) (started st).

Definition set_namespace (v : string) (st : UI) : UI :=
  mkUI (filterText st) (allEvents st) (visibleEvents st) (rowToVisibleEvent st) (recentNamespaces st) (watchCancel st) (watchGeneration st) v (showTimestampColumn st) (autoScroll st) (showNamespaceColumn st) (showStatusColumn st) (showActionColumn st) (showResourceColumn st) (aggregateMode st) (wrapMessages st) (filterVisible st) (table st) (recentNSBox st) (infoView st) (filter st) (cancelled st) (started st).

Definition set_showTimestampColumn (v : bool) (st : UI) : UI :=
  mkUI (filterText st) (allEvents st) (visibleEvents st) (rowToVisibleEvent st) (recentNamespaces st) (watchCancel st) (watchGeneration st) (namespace st) v (autoScroll st) (showNamespaceColumn st) (showStatusColumn st) (showActionColumn st) (showResourceColumn st) (aggregateMode st) (wrapMessages st) (filterVisible st) (table st) (recentNSBox st) (infoView st) (filter st) (cancelled st) (started st).

Definition set_autoScroll (v : bool) (st : UI) : UI :=
  mkUI (filterText st) (allEvents st) (visibleEvents st) (rowToVisibleEvent st) (recentNamespaces st) (watchCancel st) (watchGeneration st) (namespace st) (showTimestampColumn st) v (showNamespaceColumn st) (showStatusColumn st) (showActionColumn st) (showResourceColumn st) (aggregateMode st) (wrapMessages st) (filterVisible st) (table st) (recentNSBox st) (infoView st) (filter st) (cancelled st) (started st).

Definition set_showNamespaceColumn (v : bool) (st : UI) : UI :=
  mkUI (filterText st) (allEvents st) (visibleEvents st) (rowToVisibleEvent st) (recentNamespaces st) (watchCancel st) (watchGeneration st) (namespace st) (showTimestampColumn st) (autoScroll st) v (showStatusColumn st) (showActionColumn st) (showResourceColumn st) (aggregateMode st) (wrapMessages st) (filterVisible st) (table st) (recentNSBox st) (infoView st) (filter st) (cancelled st) (started st).

Definition set_showStatusColumn (v : bool) (st : UI) : UI :=
  mkUI (filterText st) (allEvents st) (visibleEvents st) (rowToVisibleEvent st) (recentNamespaces st) (watchCancel st) (watchGeneration st) (namespace st) (showTimestampColumn st) (autoScroll st) (showNamespaceColumn st) v (showActionColumn st) (showResourceColumn st) (aggregateMode st) (wrapMessages st) (filterVisible st) (table st) (recentNSBox st) (infoView st) (filter st) (cancelled st) (started st).

Definition set_showActionColumn (v : bool) (st : UI) : UI :=
  mkUI (filterText st) (allEvents st) (visibleEvents st) (rowToVisibleEvent st) (recentNamespaces st) (watchCancel st) (watchGeneration st) (namespace st) (showTimestampColumn st) (autoScroll st) (showNamespaceColumn st) (showStatusColumn st) v (showResourceColumn st) (aggregateMode st) (wrapMessages st) (filterVisible st) (table st) (recentNSBox st) (infoView st) (filter st) (cancelled st) (started st).

Definition set_showResourceColumn (v : bool) (st : UI) : UI :=
  mkUI (filterText st) (allEvents st) (visibleEvents st) (rowToVisibleEvent st) (recentNamespaces st) (watchCancel st) (watchGeneration st) (namespace st) (showTimestampColumn st) (autoScroll st) (showNamespaceColumn st) (showStatusColumn st) (showActionColumn st) v (aggregateMode st) (wrapMessages st) (filterVisible st) (table st) (recentNSBox st) (infoView st) (filter st) (cancelled st) (started st).

Definition set_aggregateMode (v : bool) (st : UI) : UI :=
  mkUI (filterText st) (allEvents st) (visibleEvents st) (rowToVisibleEvent st) (recentNamespaces st) (watchCancel st) (watchGeneration st) (namespace st) (showTimestampColumn st) (autoScroll st) (showNamespaceColumn st) (showStatusColumn st) (showActionColumn st) (showResourceColumn st) v (wrapMessages st) (filterVisible st) (table st) (recentNSBox st) (infoView st) (filter st) (cancelled st) (started st).

Definition set_wrapMessages (v : bool) (st : UI) : UI :=
  mkUI (filterText st) (allEvents st) (visibleEvents st) (rowToVisibleEvent st) (recentNamespaces st) (watchCancel st) (watchGeneration st) (namespace st) (showTimestampColumn st) (autoScroll st) (showNamespaceColumn st) (showStatusColumn st) (showActionColumn st) (showResourceColumn st) (aggregateMode st) v (filterVisible st) (table st) (recentNSBox st) (infoView st) (filter st) (cancelled st) (started st).

Definition set_filterVisible (v : bool) (st : UI) : UI :=
  mkUI (filterText st) (allEvents st) (visibleEvents st) (rowToVisibleEvent st) (recentNamespaces st) (watchCancel st) (watchGeneration st) (namespace st) (showTimestampColumn st) (autoScroll st) (showNamespaceColumn st) (showStatusColumn st) (showActionColumn st) (showResourceColumn st) (aggregateMode st) (wrapMessages st) v (table st) (recentNSBox st) (infoView st) (filter st) (cancelled st) (started st).

Definition set_table (v : Table) (st : UI) : UI :=
  mkUI (filterText st) (allEvents st) (visibleEvents st) (rowToVisibleEvent st) (recentNamespaces st) (watchCancel st) (watchGeneration st) (namespace st) (showTimestampColumn st) (autoScroll st) (showNamespaceColumn st) (showStatusColumn st) (showActionColumn st) (showResourceColumn st) (aggregateMode st) (wrapMessages st) (filterVisible st) v (recentNSBox st) (infoView st) (filter st) (cancelled st) (started st).

Definition set_recentNSBox (v : string) (st : UI) : UI :=
  mkUI (filterText st) (allEvents st) (visibleEvents st) (rowToVisibleEvent st) (recentNamespaces st) (watchCancel st) (watchGeneration st) (namespace st) (showTimestampColumn st) (autoScroll st) (showNamespaceColumn st) (showStatusColumn st) (showActionColumn st) (showResourceColumn st) (aggregateMode st) (wrapMessages st) (filterVisible st) (table st) v (infoView st) (filter st) (cancelled st) (started st).

Definition set_infoView (v : string) (st : UI) : UI :=
  mkUI (filterText st) (allEvents st) (visibleEvents st) (rowToVisibleEvent st) (recentNamespaces st) (watchCancel st) (watchGeneration st) (namespace st) (showTimestampColumn st) (autoScroll st) (showNamespaceColumn st) (showStatusColumn st) (showActionColumn st) (showResourceColumn st) (aggregateMode st) (wrapMessages st) (filterVisible st) (table st) (recentNSBox st) v (filter st) (cancelled st) (started st).

Definition set_filter (v : string) (st : UI) : UI :=
  mkUI (filterText st) (allEvents st) (visibleEvents st) (rowToVisibleEvent st) (recentNamespaces st) (watchCancel st) (watchGeneration st) (namespace st) (showTimestampColumn st) (autoScroll st) (showNamespaceColumn st) (showStatusColumn st) (showActionColumn st) (showResourceColumn st) (aggregateMode st) (wrapMessages st) (filterVisible st) (table st) (recentNSBox st) (infoView st) v (cancelled st) (started st).

Definition set_cancelled (v : list Z) (st : UI) : UI :=
  mkUI (filterText st) (allEvents st) (visibleEvents st) (rowToVisibleEvent st) (recentNamespaces st) (watchCancel st) (watchGeneration st) (namespace st) (showTimestampColumn st) (autoScroll st) (showNamespaceColumn st) (showStatusColumn st) (showActionColumn st) (showResourceColumn st) (aggregateMode st) (wrapMessages st) (filterVisible st) (table st) (recentNSBox st) (infoView st) (filter st) v (started st).

Definition set_started (v : list (string * Z)) (st : UI) : UI :=
  mkUI (filterText st) (allEvents st) (visibleEvents st) (rowToVisibleEvent st) (recentNamespaces st) (watchCancel st) (watchGeneration st) (namespace st) (showTimestampColumn st) (autoScroll st) (showNamespaceColumn st) (showStatusColumn st) (showActionColumn st) (showResourceColumn st) (aggregateMode st) (wrapMessages st) (filterVisible st) (table st) (recentNSBox st) (infoView st) (filter st) (cancelled st) v.

Inductive Msg :=
| SelectNamespace (newNS : string)
| KeyRune (r : ascii)
| KeyCtrlS
| KeyCtrlB
| FilterType (text : string)
| FilterDone
| WatchEvent (generation : Z) (event : Event)
| WatchError (generation : Z) (err : string)
| Resize (width : Z).

(** [metav1.NamespaceAll]. *)
Definition NamespaceAll : string := "".

(** The first loop of the recent-namespaces update: drop the first
    entry equal to [newNS]. *)
Fixpoint removeFirst (newNS : string) (recent : list string) : list string :=
  match recent with
  | [] => []
  | ns :: rest => if decide (ns = newNS) then rest else ns :: removeFirst newNS rest
  end.

Definition updateRecent (newNS : string) (recent : list string) : list string :=
  if decide (newNS ≠ "") then
    let recent := removeFirst newNS recent in
    let recent := [newNS] ++ recent in
    if decide (3 < length recent)%nat then take 3 recent else recent
  else recent.

Section callbacks.
Context `{GoLib} (env : Env).

Definition currentColumns (st : UI) : ColumnOptions :=
  mkColumnOptions (showTimestampColumn st) (showNamespaceColumn st)
    (showStatusColumn st) (showActionColumn st) (showResourceColumn st)
    (aggregateMode st).

Definition updateTableTitle (st : UI) : UI :=
  let filterTableText :=
    if decide (filterText st ≠ "")
    then "[yellow] [Filter: " +:+ filterText st +:+ "]" else "" in
  let aggregateTableText := if aggregateMode st then "[cyan]Aggregate" else "[gray]Raw" in
  let wrapTableText := if wrapMessages st then "[cyan]Wrap" else "[gray]No Wrap" in
  if autoScroll st then
    set_table (SetTitle ("[::b]" +:+ filterTableText +:+ "[green]Autoscroll ✓ " +:+
                         aggregateTableText +:+ " " +:+ wrapTableText) (table st)) st
  else
    set_table (SetTitle ("[::b]" +:+ filterTableText +:+ "[red]Autoscroll ✗ " +:+
                         aggregateTableText +:+ " " +:+ wrapTableText) (table st)) st.

Definition refreshTable (st : UI) : UI :=
  let displayEvents :=
    if aggregateMode st then aggregateEvents (allEvents st) else allEvents st in
  let st := set_visibleEvents (filterEvents displayEvents (filterText st)) st in
  let tableWidth := GetInnerRect (table st) in
  let '(table, rowToEvent) :=
    renderTable (table st) (visibleEvents st) "" (currentColumns st)
      (wrapMessages st) tableWidth in
  set_rowToVisibleEvent rowToEvent (set_table table st).

Definition recentLines (recent : list string) : list string :=
  "[blue]<0> [white]All Namespaces" ::
  imap (fun i ns => "[blue]<" +:+ Itoa (Z.of_nat i + 1) +:+ "> [white]" +:+ ns) recent.

Definition infoText (namespaceText : string) : string :=
  "[yellow]Cluster:[-] " +:+ clusterName env +:+ newline +:+
  "[yellow]Namespace:[-] " +:+ namespaceText +:+ newline +:+
  "[yellow]K8s Rev:[-] " +:+ gitVersion env +:+ newline +:+
  "[yellow]Kubeve Rev:[-] " +:+ version env +:+ newline.

Definition updateNamespace (newNS : string) (st : UI) : UI :=
  let st :=
    match watchCancel st with
    | Some g => set_cancelled (cancelled st ++ [g]) st
    | None => st
    end in
  let st := set_watchGeneration (wrap64 (watchGeneration st + 1)) st in
  let currentWatchGeneration := watchGeneration st in
  let st := set_namespace (if decide (newNS = "") then NamespaceAll else newNS) st in
  let st := set_recentNamespaces (updateRecent newNS (recentNamespaces st)) st in
  let st := set_recentNSBox (Join (recentLines (recentNamespaces st)) newline) st in
  let namespaceText :=
    if decide (namespace st = "") then "All namespaces" else namespace st in
  let st := set_infoView (infoText namespaceText) st in
  let st := set_allEvents [] st in
  let st := set_visibleEvents [] st in
  let st := set_rowToVisibleEvent [] st in
  let st := set_showNamespaceColumn (bool_decide (namespace st = NamespaceAll)) st in
  let st := refreshTable st in
  let st := set_watchCancel (Some currentWatchGeneration) st in
  set_started (started st ++ [(namespace st, currentWatchGeneration)]) st.

Definition eventLine (event : Event) : string :=
  let resource := InvolvedKind event +:+ "/" +:+ InvolvedName event in
  padRight 25 (FormatRFC3339 (LastTimestamp event)) +:+ " │ " +:+
  padRight 60 resource +:+ " │ " +:+
  padRight 10 (EventType event) +:+ " │ " +:+
  padRight 20 (EventReason event) +:+ " │ " +:+
  padRight 10 (EventNamespace event) +:+ " │ " +:+
  EventMessage event +:+ newline.

(** The function queued by the event handler of the watch goroutine
    started with [generation]. *)
Definition onWatchEvent (generation : Z) (event : Event) (st : UI) : UI :=
  if decide (generation ≠ watchGeneration st) then st else
  let msg := eventLine event in
  if autoScroll st then
    let st := set_allEvents (allEvents st ++ [msg]) st in
    if aggregateMode st || wrapMessages st then
      let st := refreshTable st in
      if aggregateMode st && (1 <? GetRowCount (table st)) then
        set_table (Select 1 (ScrollToBeginning (table st))) st
      else if 1 <? GetRowCount (table st) then
        let t := ScrollToEnd (table st) in
        set_table (Select (GetRowCount t - 1) t) st
      else st
    else
      if matchesFilter msg (filterText st) &&
         (bool_decide (namespace st = NamespaceAll) ||
          bool_decide (EventNamespace event = namespace st))
      then
        let st := set_visibleEvents (visibleEvents st ++ [msg]) st in
        let parts := SplitN msg "│" 6 in
        if decide (length parts = 6%nat) then
          let row := GetRowCount (table st) in
          let st := set_table (renderRow (table st) (Z.to_nat row) parts (currentColumns st)) st in
          let st := set_rowToVisibleEvent
                      (rowToVisibleEvent st ++ [Z.of_nat (length (visibleEvents st)) - 1]) st in
          let t := ScrollToEnd (table st) in
          set_table (Select (GetRowCount t - 1) t) st
        else st
      else st
  else st.

(** The function queued when [kube.WatchEvents] returns an error. *)
Definition onWatchError (generation : Z) (err : string) (st : UI) : UI :=
  if decide (generation ≠ watchGeneration st) then st else
  let st := updateTableTitle st in
  set_table (SetTitle (GetTitle (table st) +:+ " [red](watch error: " +:+ err +:+ ")")
                      (table st)) st.

Definition filterDone (st : UI) : UI :=
  let st := set_filterText (filter st) st in
  let st := updateTableTitle st in
  let st := refreshTable st in
  set_filterVisible false st.

Definition selectLast (st : UI) : UI :=
  let t := ScrollToEnd (table st) in
  set_table (Select (GetRowCount t - 1) t) st.

(** The rune cases of [handleInput]. *)
Definition handleRune (r : ascii) (st : UI) : UI :=
  if decide (r = "/"%char) then
    if filterVisible st then set_filterVisible false st
    else set_filter "" (set_filterVisible true st)
  else if decide (r = "T"%char) then
    refreshTable (set_showTimestampColumn (negb (showTimestampColumn st)) st)
  else if decide (r = "A"%char) then
    refreshTable (set_showActionColumn (negb (showActionColumn st)) st)
  else if decide (r = "S"%char) then
    refreshTable (set_showStatusColumn (negb (showStatusColumn st)) st)
  else if decide (r = "R"%char) then
    refreshTable (set_showResourceColumn (negb (showResourceColumn st)) st)
  else if decide (r = "G"%char) then
    let st := set_aggregateMode (negb (aggregateMode st)) st in
    let st := updateTableTitle st in
    let st := refreshTable st in
    if aggregateMode st && (1 <? GetRowCount (table st))
    then set_table (Select 1 (ScrollToBeginning (table st))) st
    else st
  else if decide (r = "w"%char) then
    let st := set_wrapMessages (negb (wrapMessages st)) st in
    let st := updateTableTitle st in
    let st := refreshTable st in
    if 1 <? GetRowCount (table st) then selectLast st else st
  else if decide (r = "0"%char) then updateNamespace "" st
  else if decide (r ∈ ["1"; "2"; "3"]%char) then
    let idx := (nat_of_ascii r - nat_of_ascii "1")%nat in
    match recentNamespaces st !! idx with
    | Some ns => updateNamespace ns st
    | None => st
    end
  else st.

(** One turn of the update loop. *)
Definition step (st : UI) (m : Msg) : UI :=
  match m with
  | SelectNamespace newNS => updateNamespace newNS st
  | KeyRune r => handleRune r st
  | KeyCtrlS =>
      let st := set_autoScroll (negb (autoScroll st)) st in
      let st := set_filterText (filter st) st in
      updateTableTitle st
  | KeyCtrlB => selectLast st
  | FilterType text => set_filter text st
  | FilterDone => filterDone st
  | WatchEvent generation event => onWatchEvent generation event st
  | WatchError generation err => onWatchError generation err st
  | Resize width => set_table (resize width (table st)) st
  end.

Definition run (st : UI) (trace : list Msg) : UI := fold_left step trace st.

(** The variables of [StartUI] when the callbacks are installed. *)
Definition initial (ns : string) : UI :=
  mkUI "" [] [] [] [] None 0 ns
       true true (bool_decide (ns = NamespaceAll)) true true true false false false
       (NewTable " [::b][green]Autoscroll ✓ ") "" "" "" [] [].

(** [updateTableTitle(); updateNamespace(namespace)] before [app.Run]. *)
Definition startUI (ns : string) : UI :=
  updateNamespace ns (updateTableTitle (initial ns)).

(** A message is live when it is not a watch result of a generation
    other than the current one. *)
Definition live (st : UI) (m : Msg) : bool :=
  match m with
  | WatchEvent generation _ | WatchError generation _ =>
      bool_decide (generation = watchGeneration st)
  | _ => true
  end.

(** The update loop with every watch result of a superseded
    generation taken out of the queue. *)
Fixpoint runLive (st : UI) (trace : list Msg) : UI :=
  match trace with
  | [] => st
  | m :: rest => if live st m then runLive (step st m) rest else runLive st rest
  end.

End callbacks.

End TUI.


(** ** Vocabulary of the properties

    What follows names the things the specification talks about, in
    terms of the functions above. *)

(** *** Aggregation *)

Section aggregate_spec.
Context `{GoLib}.

Definition wellFormed (line : string) : bool :=
  bool_decide (length (SplitN line "│" 6) = 6%nat).

Definition lineField (i : nat) (line : string) : string :=
  TrimSpace (part (SplitN line "│" 6) i).

Definition lineKey (line : string) : string :=
  lineField 4 line +:+ "|" +:+ lineField 1 line +:+ "|" +:+ lineField 3 line.

Definition lineTime (line : string) : Time :=
  default zeroTime (ParseRFC3339 (lineField 0 line)).

Definition groupKey (group : aggregatedEvent) : string :=
  namespace group +:+ "|" +:+ resource group +:+ "|" +:+ reason group.

Definition contributing (key : string) (events : list string) : list string :=
  filter (fun line => wellFormed line = true ∧ lineKey line = key) events.

Definition totalCount (groups : list aggregatedEvent) : Z :=
  foldr (fun group n => count group + n) 0 groups.

(** The group stored under the key of [line] by [aggregateLine], given
    what the map held there. *)
Definition groupStep (og : option aggregatedEvent) (line : string) : aggregatedEvent :=
  let group :=
    countUp (default (mkAggregatedEvent (lineField 4 line) (lineField 1 line)
                        (lineField 3 line) "" zeroTime (lineField 2 line) 0) og) in
  if IsZero (lastSeen group) || After (lineTime line) (lastSeen group)
  then setLast group (lineTime line) (lineField 2 line) (lineField 5 line)
  else group.

(** [line] supplies the last-seen fields of [group] among the lines [ls]
    that contributed to it: it carries the greatest timestamp, it is
    the first line to do so when that timestamp is not the zero time,
    and the last line of all when it is. *)
Definition suppliedBy (ls : list string) (group : aggregatedEvent) : Prop :=
  ∃ pre line post,
    ls = pre ++ line :: post ∧
    lastSeen group = lineTime line ∧
    lastType group = lineField 2 line ∧
    lastMessage group = lineField 5 line ∧
    (∀ l, l ∈ ls → instant (lineTime l) <= instant (lineTime line)) ∧
    (instant (lineTime line) ≠ 0 →
     ∀ l, l ∈ pre → instant (lineTime l) < instant (lineTime line)) ∧
    (instant (lineTime line) = 0 → post = []).
End aggregate_spec.

(** A log of event lines: every line splits into six fields. *)
Definition logInv (events : list string) : Prop :=
  Forall (fun line => wellFormed line = true) events.

(** [s] holds at least [k] separators, one after the other. *)
Fixpoint separated (k : nat) (s : string) : Prop :=
  match k with
  | O => True
  | S k' => ∃ a b, s = a +:+ "│" +:+ b ∧ separated k' b
  end.

(** Byte-wise order on strings, the order of Go's [<]. *)
Definition strLt (a b : string) : Prop := String.ltb a b = true.

Global Instance string_lexico : Lexico string := strLt.

Definition groupRank (group : aggregatedEvent) : Z * (Z * (string * (string * string))) :=
  (- count group, (- instant (lastSeen group),
    (namespace group, (resource group, reason group)))).


(** A relation from a comparator. *)
Definition lessThan {A} (less : A → A → bool) : relation A := fun a b => less a b = true.


(** *** Rendering *)

Section render_spec.
Context `{GoLib}.

(** Number of table rows a line of the filtered list is rendered to. *)
Definition rowsOf (wrapMessages : bool) (msgWidth : Z) (line : string) : nat :=
  if negb (wellFormed line) then 0%nat
  else if wrapMessages then length (wrapMessage (lineField 5 line) msgWidth)
  else 1%nat.

(** The back-reference table: the index of every line, once per row. *)
Fixpoint backRefs (wrapMessages : bool) (msgWidth : Z) (eventIdx : nat)
    (lines : list string) : list Z :=
  match lines with
  | [] => []
  | line :: rest =>
      replicate (rowsOf wrapMessages msgWidth line) (Z.of_nat eventIdx) ++
      backRefs wrapMessages msgWidth (S eventIdx) rest
  end.
End render_spec.

(** *** Text layout *)

(** The columns next to the message column, each with its weight. *)
Definition columnWeights (opts : ColumnOptions) : list Z :=
  (if Timestamp opts then [1] else []) ++ (if Namespace opts then [1] else []) ++
  (if Status opts then [1] else []) ++ (if Action opts then [1] else []) ++
  (if Resource opts then [2] else []).

Definition usableWidth (tableWidth : Z) (opts : ColumnOptions) : Z :=
  tableWidth - 3 * Z.of_nat (length (columnWeights opts)).

Definition messageShare (tableWidth : Z) (opts : ColumnOptions) : Z :=
  (usableWidth tableWidth opts * 5) / (5 + foldr Z.add 0 (columnWeights opts)).


Section layout_spec.
Context `{GoLib}.

(** A string [strings.Fields] leaves alone: one word. *)
Definition isWord (w : string) : Prop := Fields w = [w].

(** The segments [wrapLine] cuts a word into: pieces of [width] bytes
    and what is left; a word that fits is its only segment. *)
Definition segments (width : Z) (word : string) : list string :=
  let '(pieces, rest) := hardSplit (String.length word) width [] word in
  pieces ++ [rest].
End layout_spec.

Section wrap_spec.
Context `{GoLib}.
(** The lines [wrapLine] has completed plus the one it is filling. *)
Definition outOf (st : list string * string) : list string :=
  st.1 ++ (if decide (st.2 ≠ "") then [st.2] else []).

(** What the loop of [wrapLine] keeps true of [lines] and [current]
    once it has consumed the words [ws]. *)
Definition wrapInv (width : Z) (ws : list string) (st : list string * string) : Prop :=
  Join (outOf st) " " = Join (flat_map (segments width) ws) " " ∧
  (outOf st = [] ↔ ws = []) ∧
  Forall (fun l => len l <= width) (outOf st).
End wrap_spec.


(** *** Fuzzy matching and the palette *)

(** The largest score the subsequence path of [fuzzyMatchScore] can
    return for a query of [n] runes. *)
Definition subseqBound (n : Z) : Z := Z.max 1 (n * (n + 43) / 2).


(** What the subsequence loop keeps true of its variables when it is
    about to read [tr[i]]. *)
Definition matchInv (i : Z) (st : matchState) : Prop :=
  0 <= qi st <= i ∧ 0 <= streak st ∧ streak st + 1 <= Z.max 1 (qi st) ∧
  0 <= score st ∧ 2 * score st <= qi st * (qi st + 43) ∧ lastMatch st < i ∧
  (qi st = 0 → lastMatch st < -1).


Section palette_spec.
Context `{GoLib}.

(** [results] when [sort.Slice] is called: the matching commands, then
    the matching jumps. *)
Definition paletteMatches (q : string) (commands : list CommandPaletteCommand)
    (jumps : list CommandPaletteJump) : list commandPaletteResult :=
  flat_map (matchCommand q []) commands ++ flat_map (matchJump q []) jumps.
End palette_spec.

(** *** The recent-namespaces list *)

Definition recentInv (recent : list string) : Prop :=
  NoDup recent ∧ (length recent ≤ 3)%nat.

(** *** Words of ASCII text *)

Fixpoint no_space (s : string) : bool :=
  match s with
  | "" => true
  | String c s' => negb (AsciiLib.is_space c) && no_space s'
  end.

Definition word (w : string) : Prop := w ≠ "" ∧ no_space w = true.



(** *** Sample data for the examples below *)

Definition sampleFirst : string :=
  "2024-03-01T12:30:05Z │ Pod/a │ Normal │ Created │ default │ first".
Definition sampleSecond : string :=
  "2024-03-01T12:30:05Z │ Pod/a │ Warning │ Created │ default │ second".
Definition sampleOther : string :=
  "2024-03-01T12:30:06Z │ Pod/b │ Warning │ BackOff │ default │ third".
Definition sampleGroup : aggregatedEvent :=
  mkAggregatedEvent "default" "Pod/a" "Created" "first"
    (mkTime 63844893005000000000 0) "Normal" 2.
Definition sampleOtherGroup : aggregatedEvent :=
  mkAggregatedEvent "default" "Pod/b" "BackOff" "third"
    (mkTime 63844893006000000000 0) "Warning" 1.
Definition allColumns : ColumnOptions := mkColumnOptions true true true true true false.
Definition noColumns : ColumnOptions := mkColumnOptions false false false false false false.
Definition sampleText : string :=
  "the quick brown fox jumps over the lazy dog abcdefghijklmnopqrstuvwxyz end".
Definition longQuery : string := repeat_byte 39 "a" +:+ "b".
Definition longSubseq : string := repeat_byte 39 "a" +:+ "xb".
Definition sampleCommands : list CommandPaletteCommand :=
  [mkCommand "namespace" ["ns"] "Switch namespace" true;
   mkCommand "wrap" [] "Toggle wrap" false].
Definition sampleJumps : list CommandPaletteJump :=
  [mkJump "Pod/web-1" "Created" "" 1; mkJump "Deployment/pd-worker" "Scaled" "" 2].
Definition sampleEnv : TUI.Env := TUI.mkEnv "kind" "v1.30.0" "dev".
Definition sampleEvent : TUI.Event :=
  TUI.mkEvent "Pod" "web-1" (mkTime 63844893005000000000 0) "Normal" "Created" "default"
    "Created container web".


(** *** Lines and their fields *)

(** A field that holds no separator. *)
Definition clean (field : string) : Prop := index_of field "│" = None.

(** What may follow a field in a line: nothing, or text that starts with
    a space. *)
Definition spaced (rest : string) : Prop := rest = "" ∨ ∃ r, rest = String " " r.

(** Text of bytes below 128. *)
Fixpoint plain (s : string) : Prop :=
  match s with
  | "" => True
  | String c s' => (nat_of_ascii c < 128)%nat ∧ plain s'
  end.

Section line_spec.
Context `{GoLib}.

(** A line laid out by the format [%-25s │ %-60s │ %-10s │ %-20s │ %-10s │ %s]
    that the event handler and [aggregateEvents] share. *)
Definition layout (f0 f1 f2 f3 f4 tail : string) : string :=
  padRight 25 f0 +:+ " │ " +:+ padRight 60 f1 +:+ " │ " +:+ padRight 10 f2 +:+ " │ " +:+
  padRight 20 f3 +:+ " │ " +:+ padRight 10 f4 +:+ " │ " +:+ tail.

(** [lines] and [current] of [wrapLine] stay within [width]. *)
Definition fits (width : Z) (st : list string * string) : Prop :=
  Forall (fun line => len line <= width) st.1 ∧ len st.2 <= width.
End line_spec.

(** *** The cells of the table *)

Section cells_spec.
Context `{GoLib}.

Definition textCell (text : string) (expansion : Z) : TableCell := mkCell text expansion.

(** The cells of the header row, left to right. *)
Definition headerCells (opts : ColumnOptions) : list TableCell :=
  (if Timestamp opts
   then [textCell (if Aggregate opts then "LAST SEEN" else "TIME") 1] else []) ++
  (if Namespace opts then [textCell "NAMESPACE" 1] else []) ++
  (if Status opts then [textCell (if Aggregate opts then "COUNT" else "STATUS") 1] else []) ++
  (if Action opts then [textCell "ACTION" 1] else []) ++
  (if Resource opts then [textCell "RESOURCE" 2] else []) ++
  [textCell (if Aggregate opts then "LAST MESSAGE" else "MESSAGE") 5].

(** The cells of the row that shows [parts], left to right. *)
Definition rowCells (opts : ColumnOptions) (parts : list string) : list TableCell :=
  (if Timestamp opts then [textCell (TrimSpace (part parts 0)) 1] else []) ++
  (if Namespace opts then [textCell (TrimSpace (part parts 4)) 1] else []) ++
  (if Status opts
   then [textCell (statusColor (TrimSpace (part parts 2)) +:+ TrimSpace (part parts 2)) 1]
   else []) ++
  (if Action opts
   then [textCell (actionColor (TrimSpace (part parts 3)) +:+ TrimSpace (part parts 3)) 1]
   else []) ++
  (if Resource opts then [textCell (TrimSpace (part parts 1)) 2] else []) ++
  [textCell (TrimSpace (part parts 5)) 5].

(** The rows a line of the filtered list is shown in. *)
Definition lineRows (opts : ColumnOptions) (wrapMessages : bool) (msgWidth : Z)
    (line : string) : list (list TableCell) :=
  let parts := SplitN line "│" 6 in
  if negb (wellFormed line) then []
  else if negb wrapMessages then [rowCells opts parts]
  else
    let wrapped := wrapMessage (TrimSpace (part parts 5)) msgWidth in
    rowCells opts (<[5%nat := default "" (head wrapped)]> parts) ::
    ((fun cont => rowCells opts [""; ""; ""; ""; ""; cont]) <$> tail wrapped).

End cells_spec.

(** *** The view and the watch of the update loop *)

Module TUIView.
Import TUI.

(** The handler installed with [table.SetSelectedFunc]: the parts handed
    to [DetailsModal], if any. *)
Definition onSelected (row : Z) (st : UI) : option (list string) :=
  if (row <=? 0) || (Z.of_nat (length (rowToVisibleEvent st)) <=? row - 1) then None else
  let idx := default 0 (rowToVisibleEvent st !! Z.to_nat (row - 1)) in
  if (0 <=? idx) && (idx <? Z.of_nat (length (visibleEvents st)))
  then Some (SplitN (default "" (visibleEvents st !! Z.to_nat idx)) "│" 6)
  else None.

Section view.
Context `{GoLib}.
(** The table shows the visible events under the current options. *)
Definition viewInv (st : UI) : Prop :=
  ∃ msgWidth,
    tableCells (table st) =
      headerCells (currentColumns st) ::
      flat_map (lineRows (currentColumns st) (wrapMessages st) msgWidth) (visibleEvents st) ∧
    rowToVisibleEvent st = backRefs (wrapMessages st) msgWidth 0 (visibleEvents st).
End view.

(** One watch is live: the watches started before the last one have all
    been cancelled, and the last one watches the current namespace under
    the current generation, which [watchCancel] cancels. *)
Definition watchInv (st : UI) : Prop :=
  ∃ earlier,
    started st = earlier ++ [(namespace st, watchGeneration st)] ∧
    cancelled st = earlier.*2 ∧
    watchCancel st = Some (watchGeneration st).

Definition scopeInv (st : UI) : Prop :=
  watchInv st ∧ showNamespaceColumn st = bool_decide (namespace st = NamespaceAll).

(** The variables the scope of the watch is read from. *)
Definition scopeOf (st : UI) :=
  (watchCancel st, cancelled st, started st, namespace st, showNamespaceColumn st,
   watchGeneration st).

End TUIView.

(** *** The order of the palette results *)

(** The rank of a result: commands before jumps. *)
Definition resultClass (r : commandPaletteResult) : Z :=
  match Command r, Jump r with
  | Some _, _ => 0
  | None, Some _ => 1
  | None, None => 2
  end.

(** Order among results of one score and one class: commands by name,
    jumps by descending row. *)
Definition tieBefore (a b : commandPaletteResult) : Prop :=
  match Command a, Command b, Jump a, Jump b with
  | Some ca, Some cb, _, _ => ¬ strLt (Name cb) (Name ca)
  | None, None, Some ja, Some jb => Row jb <= Row ja
  | _, _, _, _ => True
  end.

(** [a] may stand before [b] in the ranked list. *)
Definition ranksBefore (a b : commandPaletteResult) : Prop :=
  Score b < Score a ∨
  Score a = Score b ∧
  (resultClass a < resultClass b ∨ resultClass a = resultClass b ∧ tieBefore a b).

(** A result that names a command or a jump, not both. *)
Definition proper (r : commandPaletteResult) : Prop :=
  (is_Some (Command r) ∧ Jump r = None) ∨ (Command r = None ∧ is_Some (Jump r)).

Section ranked_spec.
Context `{GoLib}.

(** The text a command is matched against. *)
Definition commandText (command : CommandPaletteCommand) : string :=
  Name command +:+ " " +:+ Join (Aliases command) " " +:+ " " +:+ Description command.

(** The text a jump is matched against. *)
Definition jumpText (jump : CommandPaletteJump) : string :=
  if decide (Search jump = "") then Label jump +:+ " " +:+ Detail jump else Search jump.

(** Where a result comes from. *)
Definition resultOf (q : string) (commands : list CommandPaletteCommand)
    (jumps : list CommandPaletteJump) (r : commandPaletteResult) : Prop :=
  (∃ command s, command ∈ commands ∧ fuzzyMatchScore q (commandText command) = (s, true) ∧
                r = mkResult (Some command) None (s + 50)) ∨
  (∃ jump s, jump ∈ jumps ∧ fuzzyMatchScore q (jumpText jump) = (s, true) ∧
             r = mkResult None (Some jump) s).

End ranked_spec.

(** The stack of sorted runs of stdpp's [merge_sort] holds elements of
    [P] only. *)
Definition stackOf {A} (P : A → Prop) (st : list (option (list A))) : Prop :=
  Forall (fun ol => match ol with Some l => Forall P l | None => True end) st.

(** *** The subsequence loop of the fuzzy match *)

(** The number of runes of [qr] the subsequence loop matches in [tr]: each
    rune of the target is compared with the next rune of the query that
    has not been matched yet. *)
Fixpoint greedy (qr tr : list rune) : nat :=
  match tr with
  | [] => 0%nat
  | ch :: rest =>
      match qr with
      | [] => 0%nat
      | c :: qr' => if decide (ch = c) then S (greedy qr' rest) else greedy qr rest
      end
  end.

(** *** The command palette while it is open *)

(** [strings.TrimPrefix]. *)
Definition TrimPrefix (s prefix : string) : string :=
  if HasPrefix s prefix then slice_from (String.length prefix) s else s.

Module PaletteModal.

(** What [executeSelection] does after it has closed the palette:
    [RunCommand c arg] stands for the call [c.Run(arg)], made when the
    command has a [Run] function, and [JumpTo row] for [onJump(row)]. *)
Inductive Action :=
| RunCommand (command : CommandPaletteCommand) (arg : string)
| JumpTo (row : Z)
| NoAction.

(** The variables the closures of [CommandPaletteModal] share: the text
    of the input field, [results] and [selection]. *)
Record Palette := mkPalette {
  inputText : string;
  results : list commandPaletteResult;
  selection : Z
}.

(** The events that reach the palette while it is open; [KeyInput text]
    is a key the input field handles and that leaves [text] in it, and
    [Draw height] a redraw of the overlay. *)
Inductive Key :=
| KeyUp
| KeyDown
| KeyInput (text : string)
| Draw (height : Z).

Section modal.
Context `{GoLib}.

(** The inner loop of [parsePaletteCommandInput]. *)
Fixpoint aliasMatches (commandToken : string) (aliases : list string) : bool :=
  match aliases with
  | [] => false
  | alias :: rest =>
      if decide (ToLower alias = commandToken) then true
      else aliasMatches commandToken rest
  end.

(** The loop of [parsePaletteCommandInput] over the commands. *)
Fixpoint findCommand (commandToken : string) (commands : list CommandPaletteCommand)
    : option CommandPaletteCommand :=
  match commands with
  | [] => None
  | command :: rest =>
      if decide (ToLower (Name command) = commandToken) then Some command
      else if aliasMatches commandToken (Aliases command) then Some command
      else findCommand commandToken rest
  end.

Definition parsePaletteCommandInput (raw : string) (commands : list CommandPaletteCommand)
    : option (CommandPaletteCommand * string) :=
  let trimmed := TrimSpace raw in
  if decide (trimmed = "") then None else
  let parts := Fields trimmed in
  match parts with
  | [] => None
  | first :: _ =>
      let commandToken := ToLower first in
      let arg := TrimSpace (TrimPrefix trimmed first) in
      match findCommand commandToken commands with
      | Some command => Some (command, arg)
      | None => None
      end
  end.

(** What [CommandPaletteModal] is called with; [hasRun] tells whether
    the [Run] field of a command is set and [onJump] whether the jump
    callback is. *)
Context (commands : list CommandPaletteCommand) (jumps : list CommandPaletteJump).
Context (hasRun : CommandPaletteCommand → bool) (onJump : bool).

Definition updateResults (p : Palette) : Palette :=
  let results := buildCommandPaletteResults (inputText p) commands jumps in
  let selection := if selection p <? 0 then 0 else selection p in
  if decide (length results = 0%nat) then mkPalette (inputText p) results 0
  else if Z.of_nat (length results) <=? selection
       then mkPalette (inputText p) results (Z.of_nat (length results) - 1)
       else mkPalette (inputText p) results selection.

(** [selection] stays between -1 and [len(results)], so its arithmetic
    is exact. *)
Definition keyStep (p : Palette) (k : Key) : Palette :=
  match k with
  | KeyUp => updateResults (mkPalette (inputText p) (results p) (selection p - 1))
  | KeyDown => updateResults (mkPalette (inputText p) (results p) (selection p + 1))
  | KeyInput text =>
      if decide (text = inputText p) then p
      else
        let p := updateResults (mkPalette text (results p) (selection p)) in
        mkPalette (inputText p) (results p) 0
  | Draw _ => updateResults p
  end.

Definition runKeys (p : Palette) (keys : list Key) : Palette := fold_left keyStep keys p.

(** The palette when [CommandPaletteModal] returns. *)
Definition opened : Palette := updateResults (mkPalette "" [] 0).

(** [start], [visibleCount] and [ofs] of the draw function, after its
    call of [updateResults]. *)
Definition drawWindow (height : Z) (p : Palette) : Z * Z * Z :=
  let listH := wrap64 (height - 1) in
  let n := Z.of_nat (length (results p)) in
  let start :=
    if listH <? n then
      if selection p <? listH then 0 else wrap64 (selection p - wrap64 (listH - 1))
    else 0 in
  let visibleCount := wrap64 (n - start) in
  let visibleCount := if listH <? visibleCount then listH else visibleCount in
  let ofs := if visibleCount <? listH then wrap64 (listH - visibleCount) else 0 in
  (start, visibleCount, ofs).

Definition executeSelection (p : Palette) : Action :=
  let raw := TrimSpace (inputText p) in
  match parsePaletteCommandInput raw commands with
  | Some (cmd, arg) => if hasRun cmd then RunCommand cmd arg else NoAction
  | None =>
      if decide (length (results p) = 0%nat) then NoAction else
      let idx := selection p in
      if (idx <? 0) || (Z.of_nat (length (results p)) <=? idx) then NoAction else
      match results p !! Z.to_nat idx with
      | None => NoAction
      | Some selected =>
          match Command selected with
          | Some command =>
              if hasRun command then
                let arg :=
                  if AcceptsArg command && negb (bool_decide (raw = "")) &&
                     negb (Contains raw " ")
                  then raw else "" in
                RunCommand command arg
              else
                match Jump selected with
                | Some jump => if onJump then JumpTo (Row jump) else NoAction
                | None => NoAction
                end
          | None =>
              match Jump selected with
              | Some jump => if onJump then JumpTo (Row jump) else NoAction
              | None => NoAction
              end
          end
      end
  end.

(** The selection points into the list, or the list is empty. *)
Definition selectionValid (p : Palette) : Prop :=
  (results p = [] ∧ selection p = 0) ∨
  0 <= selection p < Z.of_nat (length (results p)).

(** [command] goes by the name [commandToken]. *)
Definition answersTo (commandToken : string) (command : CommandPaletteCommand) : Prop :=
  ToLower (Name command) = commandToken ∨
  ∃ alias, alias ∈ Aliases command ∧ ToLower alias = commandToken.

(** What holds of the palette whenever it waits for a key. *)
Definition settled (p : Palette) : Prop :=
  results p = buildCommandPaletteResults (inputText p) commands jumps ∧ selectionValid p.

End modal.
End PaletteModal.


(** The palette over the sample commands and jumps after [keys]. *)
Definition samplePalette (keys : list PaletteModal.Key) : PaletteModal.Palette :=
  @PaletteModal.runKeys ascii_lib sampleCommands sampleJumps
    (@PaletteModal.opened ascii_lib sampleCommands sampleJumps) keys.
Definition sampleKeys : list PaletteModal.Key :=
  [PaletteModal.KeyInput "pd"; PaletteModal.KeyDown].

(** *** Text helpers of the details view and the drill-down *)

(** [trimString] of drilldown.go.  [None] stands for the run-time panic
    of the slice expression [s[:limit-3]] with a negative bound. *)
Definition trimString (s : string) (limit : Z) : option string :=
  if (limit <=? 0) || (len s <=? limit) then Some s
  else if limit - 3 <? 0 then None
  else Some (slice_to (Z.to_nat (limit - 3)) s +:+ "...").

(** [shortText] of [StartUI], the same code under another name. *)
Definition shortText (value : string) (max : Z) : option string :=
  if (max <=? 0) || (len value <=? max) then Some value
  else if max - 3 <? 0 then None
  else Some (slice_to (Z.to_nat (max - 3)) value +:+ "...").

Section details.
Context `{GoLib}.

(** [splitResource]: kind and name, or [None] for [ok = false]. *)
Definition splitResource (resource : string) : option (string * string) :=
  let parts := SplitN (TrimSpace resource) "/" 2 in
  if decide (length parts ≠ 2%nat) then None else
  let kind := TrimSpace (part parts 0) in
  let name := TrimSpace (part parts 1) in
  if decide (kind = "" ∨ name = "") then None else Some (kind, name).

End details.

(** *** Jumping to the best match *)

(** The first loop of [jumpToBestMatch]: the first row of every event,
    [rowOffset] being the index the loop has reached. *)
Fixpoint firstRowByEvent (rowOffset : Z) (rowToVisibleEvent : list Z) (m : gmap Z Z)
    : gmap Z Z :=
  match rowToVisibleEvent with
  | [] => m
  | eventIdx :: rest =>
      firstRowByEvent (rowOffset + 1) rest
        (match m !! eventIdx with
         | Some _ => m
         | None => <[eventIdx := rowOffset + 1]> m
         end)
  end.

(** [selectTableRow]. *)
Definition selectTableRow (row : Z) (table : Table) : Table :=
  if (row <=? 0) || (GetRowCount table <=? row) then table else Select row table.

Section jump.
Context `{GoLib}.

(** The body of the second loop: [best] is [(bestRow, bestScore)] and
    [entry] the key and the value the map hands out. *)
Definition bestStep (query : string) (visibleEvents : list string)
    (best : Z * Z) (entry : Z * Z) : Z * Z :=
  let '(bestRow, bestScore) := best in
  let '(eventIdx, row) := entry in
  if (eventIdx <? 0) || (Z.of_nat (length visibleEvents) <=? eventIdx) then best else
  let '(score, ok) :=
    fuzzyMatchScore query (default "" (visibleEvents !! Z.to_nat eventIdx)) in
  if negb ok then best else
  if (bestRow =? -1) || (bestScore <? score) || ((score =? bestScore) && (bestRow <? row))
  then (row, score) else best.

(** [jumpToBestMatch]; [order] is the order in which the map is walked,
    some arrangement of its entries. *)
Definition jumpToBestMatch (raw : string) (visibleEvents : list string)
    (order : list (Z * Z)) (table : Table) : Table * bool :=
  let query := TrimSpace raw in
  if decide (query = "") then (table, false) else
  let '(bestRow, _) := fold_left (bestStep query visibleEvents) order (-1, 0) in
  if bestRow <=? 0 then (table, false) else (selectTableRow bestRow table, true).

(** The row and the score of an entry that counts: its event is visible
    and matches. *)
Definition candidate (query : string) (visibleEvents : list string) (entry : Z * Z)
    : option (Z * Z) :=
  let '(eventIdx, row) := entry in
  if (eventIdx <? 0) || (Z.of_nat (length visibleEvents) <=? eventIdx) then None else
  let '(score, ok) :=
    fuzzyMatchScore query (default "" (visibleEvents !! Z.to_nat eventIdx)) in
  if ok then Some (row, score) else None.

End jump.

(** [a] is no better than [b]: a lower score, or the same score and no
    later row. *)
Definition noBetter (a b : Z * Z) : Prop := a.2 < b.2 ∨ a.2 = b.2 ∧ a.1 <= b.1.

(** [best] is what the loop holds after it has seen the candidates [cs]. *)
Definition bestOf (cs : list (Z * Z)) (best : Z * Z) : Prop :=
  (cs = [] ∧ best = (-1, 0)) ∨ (best ∈ cs ∧ ∀ c, c ∈ cs → noBetter c best).

(** *** The log behind the view *)

Module TUILog.
Import TUI.

Section log.
Context `{GoLib}.

(** The lines the table is filled from. *)
Definition displayEvents (st : UI) : list string :=
  if aggregateMode st then aggregateEvents (allEvents st) else allEvents st.

(** What is visible is taken from the log, in its order. *)
Definition logView (st : UI) : Prop := visibleEvents st `sublist_of` displayEvents st.

End log.
End TUILog.

(** *** Themes of the configuration (config/config.go) *)

Module Config.

Record Flags := { DisableLogo : bool }.

Record Theme := {
  Name : string;
  BackgroundColor : string;
  TextColor : string
}.

Record Config := { ConfigFlags : Flags; ConfigTheme : Theme }.

Definition Default : Config :=
  {| ConfigFlags := {| DisableLogo := false |};
     ConfigTheme := {| Name := "midnight"; BackgroundColor := "#000000";
                       TextColor := "#ffffff" |} |}.

Definition predefinedThemes : list Theme :=
  [ {| Name := "midnight"; BackgroundColor := "#000000"; TextColor := "#ffffff" |};
    {| Name := "ocean"; BackgroundColor := "#021b2f"; TextColor := "#d6f0ff" |};
    {| Name := "forest"; BackgroundColor := "#0f1a12"; TextColor := "#d7f3d8" |};
    {| Name := "sunset"; BackgroundColor := "#2b1510"; TextColor := "#ffe3d6" |};
    {| Name := "solarized-dark"; BackgroundColor := "#002b36"; TextColor := "#93a1a1" |};
    {| Name := "solarized-light"; BackgroundColor := "#fdf6e3"; TextColor := "#586e75" |};
    {| Name := "mono-light"; BackgroundColor := "#f5f5f5"; TextColor := "#1f1f1f" |};
    {| Name := "terminal-green"; BackgroundColor := "#001100"; TextColor := "#66ff66" |};
    {| Name := "cobalt"; BackgroundColor := "#0b1f3a"; TextColor := "#dbe8ff" |};
    {| Name := "ember"; BackgroundColor := "#1b0f0a"; TextColor := "#ffd3b6" |} ].

Definition ThemeNames : list string := Name <$> predefinedThemes.

Section themes.
Context `{GoLib}.
(** [strings.EqualFold]. *)
Context (EqualFold : string → string → bool).

(** The pair [(Theme, bool)] of the source is an option. *)
Definition ThemeByName (name : string) : option Theme :=
  let query := ToLower (TrimSpace name) in
  if decide (query = "") then None
  else find (λ theme, EqualFold (Name theme) query) predefinedThemes.

Definition themeNameByColors (backgroundColor textColor : string) : string :=
  let bg := ToLower (TrimSpace backgroundColor) in
  let fg := ToLower (TrimSpace textColor) in
  match find (λ theme, EqualFold (BackgroundColor theme) bg && EqualFold (TextColor theme) fg)
             predefinedThemes with
  | Some theme => Name theme
  | None => ""
  end.

Definition ResolveTheme (theme : Theme) : Theme :=
  match ThemeByName (Name theme) with
  | Some preset => preset
  | None =>
    let resolved := theme in
    let resolved :=
      if decide (TrimSpace (Name resolved) ≠ "")
      then {| Name := ""; BackgroundColor := BackgroundColor resolved;
              TextColor := TextColor resolved |}
      else resolved in
    let resolved :=
      if decide (BackgroundColor resolved = "")
      then {| Name := Name resolved; BackgroundColor := BackgroundColor (ConfigTheme Default);
              TextColor := TextColor resolved |}
      else resolved in
    let resolved :=
      if decide (TextColor resolved = "")
      then {| Name := Name resolved; BackgroundColor := BackgroundColor resolved;
              TextColor := TextColor (ConfigTheme Default) |}
      else resolved in
    if decide (Name resolved = "")
    then
      let name := themeNameByColors (BackgroundColor resolved) (TextColor resolved) in
      if decide (name ≠ "")
      then {| Name := name; BackgroundColor := BackgroundColor resolved;
              TextColor := TextColor resolved |}
      else resolved
    else resolved
  end.

(** [Load] on what the file gave: [None] when there is no path, the
    file cannot be read or it does not parse. *)
Definition Load (file : option Config) : Config :=
  match file with
  | None => Default
  | Some cfg => {| ConfigFlags := ConfigFlags cfg; ConfigTheme := ResolveTheme (ConfigTheme cfg) |}
  end.

End themes.
End Config.

(** *** The jump targets of the palette *)

(** [row] is the first table row of the event [eventIdx]. *)
Definition firstRowOf (rowToVisibleEvent : list Z) (eventIdx row : Z) : Prop :=
  1 <= row <= Z.of_nat (length rowToVisibleEvent) ∧
  rowToVisibleEvent !! Z.to_nat (row - 1) = Some eventIdx ∧
  ∀ k : nat, Z.of_nat k < row - 1 → rowToVisibleEvent !! k ≠ Some eventIdx.

Section jump_targets.
Context `{GoLib}.

(** The body of the last loop of [buildJumpTargets]; [None] stands for
    a run-time panic: an index out of range or a negative slice bound.
    A key that is not in the map reads as 0. *)
Definition jumpTarget (visibleEvents : list string) (firstRows : gmap Z Z) (eventIdx : Z)
    : option CommandPaletteJump :=
  let row := default 0 (firstRows !! eventIdx) in
  event ← (if eventIdx <? 0 then None else visibleEvents !! Z.to_nat eventIdx);
  let line := TrimSpace event in
  label ← shortText line 120;
  let detail := "row " +:+ Itoa row in
  let parts := SplitN event "│" 6 in
  if decide (length parts = 6%nat) then
    let timestamp := TrimSpace (part parts 0) in
    let resource := TrimSpace (part parts 1) in
    let reason := TrimSpace (part parts 3) in
    let namespace := TrimSpace (part parts 4) in
    let message := TrimSpace (part parts 5) in
    label ← shortText (resource +:+ "  " +:+ reason +:+ "  " +:+ message) 120;
    detail ← shortText ("row " +:+ Itoa row +:+ " • " +:+ timestamp +:+ " • ns=" +:+ namespace)
               120;
    Some (mkJump label detail line row)
  else Some (mkJump label detail line row).

(** [buildJumpTargets]; [order] is the order in which the keys of the
    map come out of [range]. *)
Definition buildJumpTargets (rowToVisibleEvent : list Z) (visibleEvents : list string)
    (order : list Z) : option (list CommandPaletteJump) :=
  let firstRows := firstRowByEvent 0 rowToVisibleEvent ∅ in
  let eventIndexes :=
    filter (fun eventIdx => 0 <= eventIdx ∧ eventIdx < Z.of_nat (length visibleEvents)) order in
  let eventIndexes :=
    sort_Slice (fun a b => default 0 (firstRows !! b) <? default 0 (firstRows !! a))
               eventIndexes in
  mapM (jumpTarget visibleEvents firstRows) eventIndexes.

End jump_targets.

(** *** Resolving a namespace *)

Section namespaces.
Context `{GoLib}.
(** [strings.EqualFold]. *)
Context (EqualFold : string → string → bool).

(** The body of the second loop of [resolveNamespace]; the state is
    [(best, bestScore)]. *)
Definition bestNamespace (query : string) (state : string * Z) (ns : string) : string * Z :=
  let '(best, bestScore) := state in
  let '(score, ok) := fuzzyMatchScore query ns in
  if ok && (bestScore <? score) then (ns, score) else (best, bestScore).

Definition resolveNamespace (namespaceList : list string) (raw : string) : string * bool :=
  let query := TrimSpace raw in
  if decide (query = "") then ("", false) else
  if EqualFold query "all" || bool_decide (query = "*") then ("", true) else
  match find (fun ns => EqualFold ns query) namespaceList with
  | Some ns => (ns, true)
  | None =>
      let '(best, bestScore) := fold_left (bestNamespace query) namespaceList ("", 0) in
      if decide (best = "") then ("", false) else (best, true)
  end.

(** [ns] matches [query] with [score]. *)
Definition matchesWith (query ns : string) (score : Z) : Prop :=
  fuzzyMatchScore query ns = (score, true).

(** [state] after the second loop has seen [seen]: nothing has matched,
    or [best] is the first of the namespaces with the highest score. *)
Definition bestSeen (query : string) (seen : list string) (state : string * Z) : Prop :=
  (state = ("", 0) ∧ ∀ ns score, ns ∈ seen → ¬ matchesWith query ns score) ∨
  ∃ before after,
    seen = before ++ state.1 :: after ∧ matchesWith query state.1 state.2 ∧
    (∀ ns score, ns ∈ before → matchesWith query ns score → score < state.2) ∧
    (∀ ns score, ns ∈ after → matchesWith query ns score → score <= state.2).

End namespaces.

(** [strings.EqualFold] for ASCII text. *)
Definition asciiEqualFold (a b : string) : bool :=
  bool_decide (AsciiLib.ToLower a = AsciiLib.ToLower b).


(** * Proofs *)

(** ** Strings *)

Lemma str_app_nil_l s : "" +:+ s = s.
Proof. reflexivity. Qed.

Lemma str_app_cons c a b : String c a +:+ b = String c (a +:+ b).
Proof. reflexivity. Qed.

Lemma str_app_nil_r s : s +:+ "" = s.
Proof. induction s; rewrite ?str_app_cons; by f_equal. Qed.

Lemma str_app_assoc a b c : (a +:+ b) +:+ c = a +:+ (b +:+ c).
Proof. induction a; rewrite ?str_app_cons, ?str_app_nil_l; by f_equal. Qed.

Lemma str_length_app a b :
  String.length (a +:+ b) = (String.length a + String.length b)%nat.
Proof. induction a; rewrite ?str_app_cons, ?str_app_nil_l; simpl; by f_equal. Qed.

Lemma len_app a b : len (a +:+ b) = len a + len b.
Proof. unfold len. rewrite str_length_app. lia. Qed.

Lemma len_nonneg s : 0 <= len s.
Proof. unfold len. lia. Qed.

Lemma len_zero s : len s = 0 ↔ s = "".
Proof. unfold len. destruct s; simpl; split; (done || lia). Qed.

Lemma slice_to_from n s : slice_to n s +:+ slice_from n s = s.
Proof.
  revert s. induction n; intros [|c s]; simpl; try done.
  by rewrite str_app_cons, IHn.
Qed.

Lemma length_slice_to n s :
  String.length (slice_to n s) = (n `min` String.length s)%nat.
Proof. revert s. induction n; intros [|c s]; simpl; try done. by rewrite IHn. Qed.

Lemma length_slice_from n s :
  String.length (slice_from n s) = (String.length s - n)%nat.
Proof. revert s. induction n; intros [|c s]; simpl; try done. Qed.

Lemma Join_snoc xs w :
  Join (xs ++ [w]) " " = if decide (xs = []) then w else Join xs " " +:+ " " +:+ w.
Proof.
  unfold Join. induction xs as [|x xs IH]; simpl; [done|].
  destruct xs as [|y xs]; simpl in *; [done|].
  rewrite IH. by rewrite str_app_assoc.
Qed.

Lemma Join_app xs ys :
  Join (xs ++ ys) " " =
  if decide (xs = []) then Join ys " "
  else if decide (ys = []) then Join xs " "
  else Join xs " " +:+ " " +:+ Join ys " ".
Proof.
  destruct (decide (xs = [])) as [->|Hx]; [done|].
  induction ys as [|y ys IH] using rev_ind.
  - by rewrite app_nil_r.
  - rewrite decide_False by (by intros [_ ?]%app_eq_nil).
    rewrite app_assoc, !Join_snoc.
    rewrite decide_False by (by intros [? _]%app_eq_nil).
    rewrite IH.
    destruct (decide (ys = [])) as [->|Hy]; [done|].
    by rewrite !str_app_assoc.
Qed.


(** ** Lines with five separators split into six fields *)

Lemma separated_prefix k x s : separated k s → separated k (x +:+ s).
Proof.
  destruct k as [|k]; [done|]. intros (a & b & -> & Hb).
  exists (x +:+ a), b. by rewrite str_app_assoc.
Qed.

Lemma separated_fewer k s : separated (S k) s → separated k s.
Proof.
  revert s. induction k as [|k IH]; intros s; [done|].
  intros (a & b & -> & Hb). exists a, b. split; [done|]. by apply IH.
Qed.

Lemma index_of_separator a b :
  ∃ m, index_of (a +:+ "│" +:+ b) "│" = Some m ∧
       (slice_from (m + 3) (a +:+ "│" +:+ b) = b ∨
        ∃ a', slice_from (m + 3) (a +:+ "│" +:+ b) = a' +:+ "│" +:+ b).
Proof.
  induction a as [|c a IH].
  - exists 0%nat. rewrite str_app_nil_l, !str_app_cons, str_app_nil_l.
    split; [|by left]. reflexivity.
  - rewrite str_app_cons. cbn [index_of].
    destruct (HasPrefix (String c (a +:+ "│" +:+ b)) "│") eqn:Hp.
    + exists 0%nat. split; [done|]. right.
      destruct a as [|c1 [|c2 a]].
      * exfalso. revert Hp. rewrite str_app_nil_l, !str_app_cons, str_app_nil_l.
        cbn. by rewrite andb_false_r.
      * exfalso. revert Hp. rewrite !str_app_cons, str_app_nil_l.
        cbn. by rewrite !andb_false_r.
      * exists a. by rewrite !str_app_cons.
    + destruct IH as (m & -> & Hr). exists (S m). split; [done|]. exact Hr.
Qed.

Lemma splitn_separated k s : separated k s → length (splitn (S k) s "│") = S k.
Proof.
  revert s. induction k as [|k IH]; intros s; [done|].
  intros (a & b & -> & Hb). cbn [splitn].
  destruct (index_of_separator a b) as (m & -> & Hr).
  cbn [length]. f_equal. change (String.length "│") with 3%nat.
  apply IH. destruct Hr as [->|[a' ->]]; [done|].
  apply separated_prefix. change ("│" +:+ b) with ("" +:+ "│" +:+ b).
  destruct k as [|k]; [done|]. destruct Hb as (a2 & b2 & -> & Hb2).
  exists ("│" +:+ a2), b2. split; [|done].
  by rewrite !str_app_assoc.
Qed.

Lemma separated_column k p rest :
  separated k rest → separated (S k) (p +:+ " │ " +:+ rest).
Proof.
  intros Hrest. exists (p +:+ " "), (" " +:+ rest). split.
  - change " │ " with (" " +:+ "│" +:+ " "). by rewrite !str_app_assoc.
  - by apply separated_prefix.
Qed.

(** ** 64-bit integers *)

Lemma wrap64_id x : isInt x -> wrap64 x = x.
Proof.
  unfold isInt, minInt, maxInt, wrap64. intros Hx.
  rewrite Z.mod_small; lia.
Qed.

Lemma wrap64_range x : isInt (wrap64 x).
Proof.
  unfold isInt, minInt, maxInt, wrap64.
  pose proof (Z.mod_pos_bound (x + 2 ^ 63) (2 ^ 64)). lia.
Qed.

Lemma wrap64_add x y : wrap64 (wrap64 x + y) = wrap64 (x + y).
Proof.
  unfold wrap64. f_equal.
  replace ((x + 2 ^ 63) mod 2 ^ 64 - 2 ^ 63 + y + 2 ^ 63)
    with ((x + 2 ^ 63) mod 2 ^ 64 + y) by lia.
  rewrite Zplus_mod_idemp_l. f_equal. lia.
Qed.

Lemma wrap64_ne g n : isInt g → 0 < n < 2 ^ 64 → wrap64 (g + n) ≠ g.
Proof.
  unfold isInt, minInt, maxInt, wrap64. intros Hg Hn Heq.
  pose proof (Z.mod_pos_bound (g + n + 2 ^ 63) (2 ^ 64) eq_refl) as Hb.
  pose proof (Z.div_mod (g + n + 2 ^ 63) (2 ^ 64)) as Hd.
  assert (2 ^ 64 ≠ 0) as Hnz by lia. specialize (Hd Hnz).
  set (q := (g + n + 2 ^ 63) / 2 ^ 64) in *. lia.
Qed.

Lemma wrap64_succ_ne g : wrap64 (g + 1) ≠ g.
Proof.
  unfold wrap64. intros Heq.
  pose proof (Z.mod_pos_bound (g + 1 + 2 ^ 63) (2 ^ 64) eq_refl) as Hb.
  assert (g + 1 + 2 ^ 63 = 2 ^ 64 * ((g + 1 + 2 ^ 63) / 2 ^ 64) + (g + 1 + 2 ^ 63) mod 2 ^ 64)
    as Hd by (apply Z.div_mod; lia).
  lia.
Qed.


(** ** The width of the message column *)

Lemma mcw_floor tableWidth opts : 20 <= messageColumnWidth tableWidth opts.
Proof.
  unfold messageColumnWidth.
  destruct (tableWidth <=? 0); [lia|].
  destruct (Timestamp opts), (Namespace opts), (Status opts), (Action opts), (Resource opts);
    cbv zeta beta iota;
    repeat match goal with |- context [if ?b then _ else _] => destruct b eqn:? end; lia.
Qed.

Lemma mcw_share tableWidth opts :
  isInt tableWidth →
  20 <= usableWidth tableWidth opts →
  usableWidth tableWidth opts * 5 <= maxInt →
  messageColumnWidth tableWidth opts = Z.max 20 (messageShare tableWidth opts).
Proof.
  unfold messageColumnWidth, messageShare, usableWidth, columnWeights, isInt, minInt, maxInt.
  intros Hi Hu Hm.
  destruct (Z.leb_spec tableWidth 0).
  { destruct (Timestamp opts), (Namespace opts), (Status opts), (Action opts), (Resource opts);
      cbn [length app foldr Z.of_nat] in *; lia. }
  destruct (Timestamp opts), (Namespace opts), (Status opts), (Action opts), (Resource opts);
    cbn [length app foldr] in *; cbv zeta beta iota;
    change (Z.of_nat 5) with 5 in *; change (Z.of_nat 4) with 4 in *;
    change (Z.of_nat 3) with 3 in *; change (Z.of_nat 2) with 2 in *;
    change (Z.of_nat 1) with 1 in *; change (Z.of_nat 0) with 0 in *;
    simpl Z.add; simpl Z.sub; simpl Z.mul;
    (rewrite (wrap64_id (tableWidth - _)) by (unfold isInt, minInt, maxInt; lia));
    (rewrite wrap64_id by (unfold isInt, minInt, maxInt; lia));
    rewrite Z.quot_div_nonneg by lia.
  all: repeat match goal with
       | |- context [Z.div ?a ?b] =>
           let b' := eval compute in b in progress change b with b'
       end.
  all: repeat match goal with
       | |- context [?w - ?k] =>
           let k' := eval compute in k in progress change (w - k) with (w - k') in *
       end.
  all: repeat match goal with |- context [?a <? ?b] => destruct (Z.ltb_spec a b) end; lia.
Qed.


(** ** Aggregation: counts and last-seen fields *)

Section aggregate_proofs.
Context `{GoLib}.

Lemma aggregateLine_unfold groups line :
  aggregateLine groups line =
  if wellFormed line
  then <[lineKey line := groupStep (groups !! lineKey line) line]> groups
  else groups.
Proof.
  unfold aggregateLine, wellFormed, groupStep, lineKey, lineTime, lineField.
  destruct (decide (length (SplitN line "│" 6) ≠ 6%nat)) as [Hn|Hn].
  - by rewrite bool_decide_eq_false_2.
  - apply dec_stable in Hn. rewrite bool_decide_eq_true_2 by done.
    by destruct (groups !! _).
Qed.

Lemma totalCount_perm l1 l2 : l1 ≡ₚ l2 → totalCount l1 = totalCount l2.
Proof. induction 1; simpl; lia. Qed.

Lemma totalCount_insert (m : gmap string aggregatedEvent) k g :
  totalCount (map_to_list (<[k := g]> m)).*2 =
  totalCount (map_to_list m).*2 + count g - from_option count 0 (m !! k).
Proof.
  destruct (m !! k) as [g0|] eqn:Hk; simpl.
  - assert (totalCount (map_to_list (<[k:=g]> m)).*2 =
            totalCount ((k, g) :: map_to_list (delete k m)).*2) as ->.
    { apply totalCount_perm, fmap_Permutation.
      rewrite <- (insert_delete_eq m). apply map_to_list_insert, lookup_delete_eq. }
    assert (totalCount (map_to_list m).*2 =
            totalCount ((k, g0) :: map_to_list (delete k m)).*2) as ->.
    { apply totalCount_perm, fmap_Permutation. symmetry. by apply map_to_list_delete. }
    rewrite !fmap_cons. simpl. lia.
  - rewrite (totalCount_perm _ ((k, g) :: map_to_list m).*2).
    2:{ by apply fmap_Permutation, map_to_list_insert. }
    rewrite !fmap_cons. simpl. lia.
Qed.

Lemma groupStep_count og line :
  count (groupStep og line) = from_option count 0 og + 1.
Proof.
  unfold groupStep. destruct (_ || _); destruct og; simpl; lia.
Qed.

Lemma totalCount_fold events (m : gmap string aggregatedEvent) :
  totalCount (map_to_list (fold_left aggregateLine events m)).*2 =
  totalCount (map_to_list m).*2 +
  Z.of_nat (length (filter (fun line => wellFormed line = true) events)).
Proof.
  revert m. induction events as [|line events IH]; intros m; simpl; [lia|].
  rewrite IH, aggregateLine_unfold.
  rewrite filter_cons. destruct (wellFormed line) eqn:Hw.
  - rewrite decide_True by done. rewrite totalCount_insert, groupStep_count.
    simpl length. lia.
  - rewrite decide_False by (by intros ?). lia.
Qed.

Lemma totalCount_summary events :
  totalCount (aggregateSummary events) =
  Z.of_nat (length (filter (fun line => wellFormed line = true) events)).
Proof.
  unfold aggregateSummary, sort_Slice, aggregateGroups.
  rewrite (totalCount_perm _ _ (merge_sort_Permutation _ _)).
  rewrite totalCount_fold, map_to_list_empty. simpl. lia.
Qed.

Lemma aggregate_lookup events (m : gmap string aggregatedEvent) key :
  fold_left aggregateLine events m !! key =
  fold_left (fun og line => Some (groupStep og line)) (contributing key events) (m !! key).
Proof.
  revert m. induction events as [|line events IH]; intros m; simpl; [done|].
  rewrite IH, aggregateLine_unfold. unfold contributing. rewrite filter_cons.
  destruct (wellFormed line) eqn:Hw.
  - destruct (decide (lineKey line = key)) as [<-|Hk].
    + rewrite decide_True by done. simpl. by rewrite lookup_insert_eq.
    + rewrite decide_False by (by intros [_ ?]). by rewrite lookup_insert_ne.
  - by rewrite decide_False by (by intros [? _]).
Qed.

Lemma groupStep_key og line :
  (∀ g, og = Some g → groupKey g = lineKey line) →
  groupKey (groupStep og line) = lineKey line.
Proof.
  intros Hog. unfold groupStep.
  destruct og as [g|]; simpl.
  - rewrite <- (Hog g eq_refl). by repeat case_match.
  - by repeat case_match.
Qed.

Lemma aggregate_keys events (m : gmap string aggregatedEvent) :
  (∀ k g, m !! k = Some g → groupKey g = k) →
  ∀ k g, fold_left aggregateLine events m !! k = Some g → groupKey g = k.
Proof.
  revert m. induction events as [|line events IH]; intros m Hm; simpl; [done|].
  apply IH. intros k g. rewrite aggregateLine_unfold.
  destruct (wellFormed line); [|by apply Hm].
  destruct (decide (lineKey line = k)) as [<-|Hk].
  - rewrite lookup_insert_eq. intros [= <-]. apply groupStep_key.
    intros g0 Hg0. by apply Hm.
  - rewrite lookup_insert_ne by done. apply Hm.
Qed.

Lemma suppliedBy_first line :
  suppliedBy [line] (groupStep None line).
Proof.
  exists [], line, []. unfold groupStep. simpl.
  repeat split; try done.
  - intros l ->%list_elem_of_singleton. lia.
  - intros _ l Hl. by apply elem_of_nil in Hl.
Qed.

Lemma suppliedBy_next ls g line :
  suppliedBy ls g →
  (∀ l, l ∈ ls ++ [line] → 0 <= instant (lineTime l)) →
  suppliedBy (ls ++ [line]) (groupStep (Some g) line).
Proof.
  intros (pre & w & post & -> & Hseen & Hty & Hmsg & Hmax & Hfirst & Hlast) Hpos.
  unfold groupStep. simpl. unfold IsZero, After. rewrite Hseen.
  destruct (Z.eqb_spec (instant (lineTime w)) 0) as [Hz|Hz]; simpl.
  - exists (pre ++ w :: post), line, []. repeat split; try done.
    + intros l [Hl| ->%list_elem_of_singleton]%elem_of_app; [|lia].
      specialize (Hmax l Hl). specialize (Hpos line). rewrite elem_of_app in Hpos.
      specialize (Hpos (or_intror (list_elem_of_here _ _))). lia.
    + intros Hnz l Hl. specialize (Hmax l Hl).
      specialize (Hpos line). rewrite elem_of_app in Hpos.
      specialize (Hpos (or_intror (list_elem_of_here _ _))). lia.
  - destruct (Z.ltb_spec (instant (lineTime w)) (instant (lineTime line))) as [Hlt|Hge].
    + exists (pre ++ w :: post), line, []. repeat split; try done.
      * intros l [Hl| ->%list_elem_of_singleton]%elem_of_app; [|lia].
        specialize (Hmax l Hl). lia.
      * intros _ l Hl. specialize (Hmax l Hl). lia.
    + exists pre, w, (post ++ [line]). simpl. repeat split; try done.
      * by rewrite <- app_assoc.
      * intros l [Hl| ->%list_elem_of_singleton]%elem_of_app; [by apply Hmax|lia].
Qed.

Lemma suppliedBy_fold ls :
  ls ≠ [] →
  (∀ l, l ∈ ls → 0 <= instant (lineTime l)) →
  ∃ g, fold_left (fun og line => Some (groupStep og line)) ls None = Some g ∧
       suppliedBy ls g.
Proof.
  induction ls as [|line ls IH] using rev_ind; [done|]. intros _ Hpos.
  rewrite fold_left_app. simpl.
  destruct ls as [|l0 ls'].
  - simpl. eexists; split; [done|]. apply suppliedBy_first.
  - destruct IH as (g & -> & Hg); [done| |].
    { intros l Hl. apply Hpos, elem_of_app. by left. }
    eexists; split; [done|]. by apply suppliedBy_next.
Qed.

Lemma aggregateSummary_elem events group :
  group ∈ aggregateSummary events ↔
  aggregateGroups events !! groupKey group = Some group.
Proof.
  unfold aggregateSummary, sort_Slice.
  rewrite merge_sort_Permutation, list_elem_of_fmap. split.
  - intros ([k g] & -> & Hin%elem_of_map_to_list). simpl.
    assert (groupKey g = k) as ->; [|done].
    apply (aggregate_keys events ∅); [|done].
    intros ?? Hk. by rewrite lookup_empty in Hk.
  - intros Hg. exists (groupKey group, group). split; [done|].
    by apply elem_of_map_to_list.
Qed.

Lemma filter_length_all {A} (P : A → Prop) `{∀ x, Decision (P x)} (l : list A) :
  length (filter P l) = length l ↔ Forall P l.
Proof.
  induction l as [|x l IH]; [by split; [constructor|]|].
  rewrite filter_cons, Forall_cons. destruct (decide (P x)) as [Hx|Hx]; simpl.
  - rewrite <- IH. split; [intros [=]; by split|intros [_ ->]; done].
  - pose proof (length_filter P l). split; [lia|by intros [? _]].
Qed.
End aggregate_proofs.

(** ** Aggregation: the sort order *)

Lemma string_compare_refl a : String.compare a a = Eq.
Proof.
  pose proof (String.compare_antisym a a) as Ha.
  destruct (String.compare a a); simpl in Ha; congruence.
Qed.

Lemma strLt_le a b : strLt a b ↔ (a ≤ b)%string ∧ a ≠ b.
Proof.
  unfold strLt, String.le, String.ltb, String.leb.
  pose proof (String.compare_eq_iff a b) as Heq.
  destruct (String.compare a b) eqn:Hc; simpl; split.
  - done.
  - intros [_ Hne]. exfalso. apply Hne. by apply Heq.
  - intros _. split; [done|]. intros ->. by rewrite string_compare_refl in Hc.
  - done.
  - done.
  - by intros [[] _].
Qed.

Global Instance strLt_strict : StrictOrder (@lexico string _).
Proof.
  split.
  - intros a [_ Ha]%strLt_le. done.
  - intros a b c [Hab Hne]%strLt_le [Hbc Hne']%strLt_le. apply strLt_le. split.
    + by trans b.
    + intros ->. apply Hne. by apply (anti_symm String.le).
Qed.

Lemma strLt_trichotomy a b : strLt a b ∨ a = b ∨ strLt b a.
Proof.
  destruct (decide (a = b)) as [->|Hne]; [by right; left|].
  destruct (total String.le a b).
  - left. by apply strLt_le.
  - right; right. apply strLt_le. by split.
Qed.

Global Instance strLt_trichotomyT : TrichotomyT (@lexico string _).
Proof.
  intros a b. unfold lexico, string_lexico, strLt.
  destruct (String.ltb a b) eqn:Hab; [by left; left|].
  destruct (decide (a = b)) as [->|Hne]; [by left; right|].
  right. destruct (strLt_trichotomy a b) as [?|[?|?]]; unfold strLt in *; congruence.
Defined.

Lemma strLt_irrefl a : String.ltb a a = false.
Proof.
  destruct (String.ltb a a) eqn:Ha; [|done].
  by destruct (irreflexivity (@lexico string _) a).
Qed.

Lemma groupLess_chain a b :
  groupLess a b = true ↔
  count b < count a ∨ count a = count b ∧
  (instant (lastSeen b) < instant (lastSeen a) ∨
   instant (lastSeen a) = instant (lastSeen b) ∧
   (strLt (namespace a) (namespace b) ∨ namespace a = namespace b ∧
    (strLt (resource a) (resource b) ∨ resource a = resource b ∧
     strLt (reason a) (reason b)))).
Proof.
  unfold groupLess, Equal, After, strLt.
  destruct (Z.eqb_spec (count a) (count b)) as [Hc|Hc]; simpl.
  2:{ rewrite Z.ltb_lt. lia. }
  destruct (Z.eqb_spec (instant (lastSeen a)) (instant (lastSeen b))) as [Hi|Hi]; simpl.
  2:{ rewrite Z.ltb_lt. lia. }
  destruct (String.eqb_spec (namespace a) (namespace b)) as [Hn|Hn]; simpl.
  2:{ split; [intros; right; split; [done|]; right; split; [done|]; by left|].
      intros [?|[_ [?|[_ [?|[? _]]]]]]; try lia; done. }
  destruct (String.eqb_spec (resource a) (resource b)) as [Hr|Hr]; simpl.
  2:{ split; [intros; right; split; [done|]; right; split; [done|]; right; split; [done|];
              by left|].
      rewrite Hn, strLt_irrefl.
      intros [?|[_ [?|[_ [?|[_ [?|[? _]]]]]]]]; try lia; done. }
  rewrite Hn, Hr, !strLt_irrefl. split.
  - intros; right; split; [done|]; right; split; [done|]; right; split; [done|].
    right; split; [done|]. done.
  - intros [?|[_ [?|[_ [?|[_ [?|[_ ?]]]]]]]]; try lia; done.
Qed.

Lemma groupLess_lexico a b :
  groupLess a b = true ↔ lexico (groupRank a) (groupRank b).
Proof.
  rewrite groupLess_chain. unfold groupRank.
  repeat (unfold lexico, prod_lexico, Z_lexico, string_lexico; simpl).
  split.
  - intros [?|[? [?|[? [?|[? [?|[? ?]]]]]]]].
    + left; lia.
    + right; split; [lia|]. left; lia.
    + right; split; [lia|]. right; split; [lia|]. by left.
    + right; split; [lia|]. right; split; [lia|]. right; split; [done|]. by left.
    + right; split; [lia|]. right; split; [lia|]. right; split; [done|]. by right.
  - intros [?|[? [?|[? [?|[? [?|[? ?]]]]]]]].
    + left; lia.
    + right; split; [lia|]. left; lia.
    + right; split; [lia|]. right; split; [lia|]. by left.
    + right; split; [lia|]. right; split; [lia|]. right; split; [done|]. by left.
    + right; split; [lia|]. right; split; [lia|]. right; split; [done|]. by right.
Qed.

Global Instance groupLess_strict : StrictOrder (lessThan groupLess).
Proof.
  split.
  - intros a Ha%groupLess_lexico. by apply (irreflexivity lexico) in Ha.
  - intros a b c Hab%groupLess_lexico Hbc%groupLess_lexico. apply groupLess_lexico.
    by trans (groupRank b).
Qed.

Lemma groupLess_total a b :
  groupRank a ≠ groupRank b → groupLess a b = true ∨ groupLess b a = true.
Proof.
  intros Hne. rewrite !groupLess_lexico.
  destruct (trichotomy lexico (groupRank a) (groupRank b)) as [?|[?|?]]; auto. done.
Qed.

Global Instance notAfter_groupLess_total : Total (notAfter groupLess).
Proof.
  intros a b. unfold notAfter.
  destruct (groupLess b a) eqn:Hba; [|by left]. right.
  destruct (groupLess a b) eqn:Hab; [|done].
  destruct (irreflexivity (lessThan groupLess) a). by trans b.
Qed.

Global Instance notAfter_groupLess_trans : Transitive (notAfter groupLess).
Proof.
  intros a b c Hab Hbc. unfold notAfter in *.
  destruct (groupLess c a) eqn:Hca; [|done].
  apply groupLess_lexico in Hca.
  destruct (trichotomy lexico (groupRank a) (groupRank b)) as [Hl|[He|Hl]].
  - destruct (trichotomy lexico (groupRank b) (groupRank c)) as [Hl'|[He'|Hl']].
    + destruct (irreflexivity lexico (groupRank a)). trans (groupRank b); [done|].
      by trans (groupRank c).
    + rewrite He' in Hl. destruct (irreflexivity lexico (groupRank a)). by trans (groupRank c).
    + apply groupLess_lexico in Hl'. congruence.
  - rewrite He in Hca. apply groupLess_lexico in Hca. congruence.
  - apply groupLess_lexico in Hl. congruence.
Qed.

Lemma groupRank_key a b : groupRank a = groupRank b → groupKey a = groupKey b.
Proof. unfold groupRank, groupKey. intros [= _ _ -> -> ->]. done. Qed.

Lemma StronglySorted_strengthen {A B} (R R' : relation A) (f : A → B) l :
  (∀ a b, R a b → f a ≠ f b → R' a b) →
  NoDup (f <$> l) → StronglySorted R l → StronglySorted R' l.
Proof.
  intros HR. induction l as [|x l IH]; intros Hnd Hs; [constructor|].
  rewrite fmap_cons in Hnd. apply NoDup_cons in Hnd as [Hx Hnd].
  apply StronglySorted_inv in Hs as [Hs Hall].
  constructor; [by apply IH|].
  rewrite Forall_forall in *. intros y Hy. apply HR; [by apply Hall|].
  intros Heq. apply Hx. rewrite Heq. by apply list_elem_of_fmap_2.
Qed.

Section sorted.
Context `{GoLib}.

Lemma aggregateSummary_keys events : NoDup (groupKey <$> aggregateSummary events).
Proof.
  unfold aggregateSummary, sort_Slice. rewrite merge_sort_Permutation.
  assert (groupKey <$> (map_to_list (aggregateGroups events)).*2 =
          (map_to_list (aggregateGroups events)).*1) as ->.
  { rewrite <- list_fmap_compose. apply list_fmap_ext.
    intros i [k g] Hi. simpl.
    apply list_elem_of_lookup_2, elem_of_map_to_list in Hi.
    apply (aggregate_keys events ∅); [|done].
    intros ?? Hk. by rewrite lookup_empty in Hk. }
  apply NoDup_fst_map_to_list.
Qed.

Lemma aggregateSummary_sorted events :
  StronglySorted (lessThan groupLess) (aggregateSummary events).
Proof.
  apply (StronglySorted_strengthen (notAfter groupLess) _ groupKey).
  - intros a b Hab Hk. destruct (groupLess_total a b) as [?|Hba]; [|done|].
    + intros Hr. by apply Hk, groupRank_key.
    + unfold notAfter in Hab. congruence.
  - apply aggregateSummary_keys.
  - apply StronglySorted_merge_sort; apply _.
Qed.

(** The summary does not depend on the order in which the map is
    walked nor on the sorting algorithm. *)
Lemma aggregateSummary_unique events l :
  l ≡ₚ (map_to_list (aggregateGroups events)).*2 →
  StronglySorted (lessThan groupLess) l →
  l = aggregateSummary events.
Proof.
  intros Hp Hs. apply (StronglySorted_unique_strong (lessThan groupLess)); [|done| |].
  - intros a b _ _ Hab Hba. destruct (irreflexivity (lessThan groupLess) a). by trans b.
  - apply aggregateSummary_sorted.
  - rewrite Hp. unfold aggregateSummary, sort_Slice. by rewrite merge_sort_Permutation.
Qed.

Lemma aggregateSummary_distinct events i j a b :
  aggregateSummary events !! i = Some a →
  aggregateSummary events !! j = Some b →
  i ≠ j → groupLess a b = true ∨ groupLess b a = true.
Proof.
  intros Hi Hj Hij. apply groupLess_total. intros Hr%groupRank_key.
  apply Hij. eapply NoDup_lookup; [apply aggregateSummary_keys| |].
  - rewrite list_lookup_fmap, Hi. done.
  - rewrite list_lookup_fmap, Hj. simpl. by rewrite Hr.
Qed.
End sorted.

(** ** Rendering rows and back references *)

Lemma SetCell_rows row col c t :
  length (tableCells (SetCell row col c t)) = (length (tableCells t) `max` S row)%nat.
Proof.
  unfold SetCell. simpl. rewrite length_insert, length_app, length_replicate. lia.
Qed.

Section render_proofs.
Context `{GoLib}.

Lemma renderRow_rows t row parts opts :
  length (tableCells (renderRow t row parts opts)) = (length (tableCells t) `max` S row)%nat.
Proof.
  unfold renderRow.
  destruct (Timestamp opts), (Namespace opts), (Status opts), (Action opts), (Resource opts);
    rewrite ?SetCell_rows; lia.
Qed.

Lemma renderTableHeader_rows t opts :
  tableCells t = [] →
  length (tableCells (renderTableHeader t opts)) = 1%nat.
Proof.
  intros Ht. unfold renderTableHeader.
  destruct (Timestamp opts), (Namespace opts), (Status opts), (Action opts), (Resource opts);
    rewrite ?SetCell_rows, Ht; simpl; lia.
Qed.

Lemma wrapMessage_nonempty text width : (1 <= length (wrapMessage text width))%nat.
Proof.
  unfold wrapMessage. destruct (width <=? 0); [simpl; lia|].
  destruct (decide _) as [|Hn]; simpl; lia.
Qed.

Lemma renderLine_malformed opts wrapMessages msgWidth st eventIdx line :
  wellFormed line = false →
  renderLine opts wrapMessages msgWidth st eventIdx line = st.
Proof.
  intros Hw. unfold renderLine. destruct st as [[table row] rowToEvent].
  unfold wellFormed in Hw. apply bool_decide_eq_false in Hw.
  by rewrite decide_False.
Qed.

Lemma render_continuations opts eventIdx conts table row rowToEvent :
  ∃ table',
    fold_left (fun '(table, row, rowToEvent) cont =>
                 (renderRow table row [""; ""; ""; ""; ""; cont] opts, S row,
                  rowToEvent ++ [Z.of_nat eventIdx]))
              conts (table, row, rowToEvent) =
    (table', (row + length conts)%nat,
     rowToEvent ++ replicate (length conts) (Z.of_nat eventIdx)) ∧
    (length (tableCells table) = row →
     length (tableCells table') = (row + length conts)%nat).
Proof.
  revert table row rowToEvent.
  induction conts as [|cont conts IH]; intros table row rowToEvent; simpl.
  - exists table. by rewrite Nat.add_0_r, app_nil_r.
  - destruct (IH (renderRow table row [""; ""; ""; ""; ""; cont] opts) (S row)
                (rowToEvent ++ [Z.of_nat eventIdx])) as (table' & -> & Hlen).
    exists table'. rewrite <- app_assoc. simpl.
    rewrite Nat.add_succ_r. split; [done|].
    intros Hrow. apply Hlen. rewrite renderRow_rows. lia.
Qed.

Lemma renderLine_rows opts wrapMessages msgWidth table row rowToEvent eventIdx line :
  ∃ table',
    renderLine opts wrapMessages msgWidth (table, row, rowToEvent) eventIdx line =
    (table', (row + rowsOf wrapMessages msgWidth line)%nat,
     rowToEvent ++ replicate (rowsOf wrapMessages msgWidth line) (Z.of_nat eventIdx)) ∧
    (length (tableCells table) = row →
     length (tableCells table') = (row + rowsOf wrapMessages msgWidth line)%nat).
Proof.
  unfold rowsOf.
  destruct (wellFormed line) eqn:Hw; cbn [negb].
  2:{ rewrite renderLine_malformed by done. exists table.
      by rewrite Nat.add_0_r, app_nil_r. }
  unfold renderLine. unfold wellFormed in Hw. apply bool_decide_eq_true in Hw.
  rewrite decide_True by done.
  destruct wrapMessages; simpl.
  - fold (lineField 5 line).
    pose proof (wrapMessage_nonempty (lineField 5 line) msgWidth) as Hne.
    rewrite decide_False by lia.
    destruct (wrapMessage (lineField 5 line) msgWidth) as [|first conts]; [simpl in Hne; lia|].
    simpl head. simpl tail. simpl length.
    match goal with |- context [fold_left _ conts (?t, _, ?r)] =>
      destruct (render_continuations opts eventIdx conts t (S row) r) as (table' & -> & Hlen)
    end.
    exists table'. rewrite <- app_assoc. simpl.
    rewrite Nat.add_succ_r. split; [done|].
    intros Hrow. apply Hlen. rewrite renderRow_rows. lia.
  - eexists. split; [by rewrite Nat.add_1_r|]. intros Hrow. rewrite renderRow_rows. lia.
Qed.

Lemma renderLines_rows opts wrapMessages msgWidth eventIdx lines table row rowToEvent :
  ∃ table' row',
    renderLines opts wrapMessages msgWidth eventIdx lines (table, row, rowToEvent) =
    (table', row', rowToEvent ++ backRefs wrapMessages msgWidth eventIdx lines) ∧
    (length (tableCells table) = row →
     length (tableCells table') =
     (row + length (backRefs wrapMessages msgWidth eventIdx lines))%nat).
Proof.
  revert eventIdx table row rowToEvent.
  induction lines as [|line lines IH]; intros eventIdx table row rowToEvent;
    cbn [renderLines backRefs].
  - exists table, row. simpl. by rewrite app_nil_r, Nat.add_0_r.
  - destruct (renderLine_rows opts wrapMessages msgWidth table row rowToEvent eventIdx line)
      as (table1 & -> & Hlen1).
    destruct (IH (S eventIdx) table1 (row + rowsOf wrapMessages msgWidth line)%nat
                (rowToEvent ++ replicate (rowsOf wrapMessages msgWidth line) (Z.of_nat eventIdx)))
      as (table' & row' & -> & Hlen).
    exists table', row'. rewrite <- app_assoc. split; [done|].
    intros Hrow. rewrite Hlen by auto. rewrite length_app, length_replicate. lia.
Qed.

Lemma backRefs_valid wrapMessages msgWidth eventIdx lines i :
  i ∈ backRefs wrapMessages msgWidth eventIdx lines →
  ∃ line, lines !! (Z.to_nat i - eventIdx)%nat = Some line ∧
          wellFormed line = true ∧ Z.of_nat eventIdx <= i.
Proof.
  revert eventIdx. induction lines as [|line lines IH]; intros eventIdx; simpl.
  - by intros ?%elem_of_nil.
  - intros [Hi|Hi]%elem_of_app.
    + apply elem_of_replicate in Hi as [-> Hn].
      exists line. rewrite Nat2Z.id, Nat.sub_diag. split; [done|]. split; [|lia].
      unfold rowsOf in Hn. by destruct (wellFormed line).
    + destruct (IH _ Hi) as (l & Hl & Hw & Hle). exists l. split; [|split; [done|lia]].
      replace (Z.to_nat i - eventIdx)%nat with (S (Z.to_nat i - S eventIdx)) by lia. done.
Qed.

Lemma renderTableContent_refs table events filterText opts wrapMessages tableWidth :
  (renderTableContent table events filterText opts wrapMessages tableWidth).2 =
  backRefs wrapMessages (messageColumnWidth tableWidth opts) 0
    (filterEvents events filterText).
Proof.
  unfold renderTableContent.
  destruct (renderLines_rows opts wrapMessages (messageColumnWidth tableWidth opts) 0
              (filterEvents events filterText) table 1 []) as (table' & row' & -> & _).
  done.
Qed.

Lemma renderTable_rows table events filterText opts wrapMessages tableWidth :
  GetRowCount (renderTable table events filterText opts wrapMessages tableWidth).1 =
  1 + Z.of_nat (length (renderTable table events filterText opts wrapMessages tableWidth).2).
Proof.
  unfold renderTable, renderTableContent, GetRowCount.
  destruct (renderLines_rows opts wrapMessages (messageColumnWidth tableWidth opts) 0
              (filterEvents events filterText) (renderTableHeader (Clear table) opts) 1 [])
    as (table' & row' & -> & Hlen).
  simpl. rewrite Hlen by (by apply renderTableHeader_rows). lia.
Qed.
End render_proofs.

(** ** Word wrap *)

Section hard_split.
Context `{GoLib}.

Lemma hardSplit_acc fuel width lines word :
  hardSplit fuel width lines word =
  (lines ++ (hardSplit fuel width [] word).1, (hardSplit fuel width [] word).2).
Proof.
  revert lines word. induction fuel as [|fuel IH]; intros lines word; simpl.
  - by rewrite app_nil_r.
  - destruct (width <? len word); [|by rewrite app_nil_r].
    rewrite (IH (lines ++ _)), (IH [_]). simpl. by rewrite <- app_assoc.
Qed.

(** With the fuel [wrapLine] passes the loop runs to its end. *)
Lemma hardSplit_spec fuel width word :
  0 < width → (String.length word ≤ fuel)%nat →
  let '(pieces, rest) := hardSplit fuel width [] word in
  Forall (fun p => len p = width) pieces ∧
  len rest <= width ∧
  (word ≠ "" → rest ≠ "") ∧
  fold_right String.append rest pieces = word ∧
  (len word <= width → pieces = [] ∧ rest = word).
Proof.
  intros Hw. revert word. induction fuel as [|fuel IH]; intros word Hfuel; simpl.
  - destruct word; simpl in Hfuel; [|lia]. unfold len. simpl. repeat split; auto; lia.
  - destruct (Z.ltb_spec width (len word)) as [Hlt|Hge].
    2:{ repeat split; auto. }
    rewrite hardSplit_acc.
    specialize (IH (slice_from (Z.to_nat width) word)).
    destruct (hardSplit fuel width [] (slice_from (Z.to_nat width) word))
      as [pieces rest] eqn:Hs.
    unfold len in Hlt.
    destruct IH as (Hp & Hr & Hne & Hcat & _).
    { rewrite length_slice_from. lia. }
    simpl. repeat split.
    + constructor; [|done]. unfold len. rewrite length_slice_to. lia.
    + done.
    + intros _. apply Hne. intros Hz%len_zero. unfold len in Hz.
      rewrite length_slice_from in Hz. lia.
    + rewrite Hcat. apply slice_to_from.
    + unfold len in *. lia.
    + unfold len in *. lia.
Qed.

Lemma segments_short width word : len word <= width → segments width word = [word].
Proof.
  intros Hle. unfold segments. destruct (String.length word) as [|n] eqn:Hn; simpl.
  - done.
  - destruct (Z.ltb_spec width (len word)); [lia|done].
Qed.

Lemma segments_concat width word :
  0 < width → fold_right String.append "" (segments width word) = word.
Proof.
  intros Hw. unfold segments.
  pose proof (hardSplit_spec (String.length word) width word Hw (le_n _)) as Hs.
  destruct (hardSplit _ _ _ _) as [pieces rest].
  destruct Hs as (_ & _ & _ & Hcat & _).
  rewrite <- Hcat. clear. induction pieces; simpl; [apply str_app_nil_r|by f_equal].
Qed.
End hard_split.

Section wrap_proofs.
Context `{GoLib}.
Hypothesis Fields_word : ∀ s w, w ∈ Fields s → isWord w.
Hypothesis Fields_Join : ∀ ws, Forall isWord ws → Fields (Join ws " ") = ws.
Hypothesis Fields_slice : ∀ w n,
  isWord w → (0 < n < String.length w)%nat →
  isWord (slice_to n w) ∧ isWord (slice_from n w).
Hypothesis Fields_length : ∀ s w,
  w ∈ Fields s → (String.length w ≤ String.length s)%nat.

Lemma isWord_nonempty w : isWord w → w ≠ "".
Proof.
  intros Hw ->. unfold isWord in Hw.
  pose proof (Fields_Join [] (Forall_nil_2 _)) as He. simpl in He.
  unfold Join in He. simpl in He. congruence.
Qed.

Lemma hardSplit_words fuel width word :
  0 < width → isWord word →
  Forall isWord (hardSplit fuel width [] word).1 ∧ isWord (hardSplit fuel width [] word).2.
Proof.
  intros Hw. revert word. induction fuel as [|fuel IH]; intros word Hword; simpl.
  - by split.
  - destruct (Z.ltb_spec width (len word)) as [Hlt|Hge]; [|by split].
    rewrite hardSplit_acc. simpl. unfold len in Hlt.
    destruct (Fields_slice word (Z.to_nat width) Hword) as [Hp Hr]; [lia|].
    destruct (IH _ Hr) as [Hps Hrest]. split; [by constructor|done].
Qed.

Lemma segments_words width word :
  0 < width → isWord word → Forall isWord (segments width word).
Proof.
  intros Hw Hword. unfold segments.
  destruct (hardSplit_words (String.length word) width word Hw Hword) as [Hp Hr].
  destruct (hardSplit _ _ _ _) as [pieces rest]. simpl in *.
  apply Forall_app. split; [done|]. by constructor.
Qed.

Lemma segments_nonempty width word : segments width word ≠ [].
Proof.
  unfold segments. destruct (hardSplit _ _ _ _) as [pieces rest].
  by intros [_ ?]%app_eq_nil.
Qed.

Lemma flush_outOf st : flush st = (outOf st, "").
Proof.
  destruct st as [lines current]. unfold flush, outOf. simpl.
  destruct (decide (current ≠ "")) as [|Hn]; [done|].
  apply dec_stable in Hn. by rewrite Hn, app_nil_r.
Qed.

Lemma outOf_flush st : outOf (flush st) = outOf st.
Proof. rewrite flush_outOf. unfold outOf at 1. simpl. by rewrite app_nil_r. Qed.

Lemma flat_map_nil_segments width ws : flat_map (segments width) ws = [] ↔ ws = [].
Proof.
  destruct ws as [|w ws]; simpl; [done|]. split; [|done].
  intros [? _]%app_eq_nil. by destruct (segments_nonempty width w).
Qed.

Lemma wrapInv_append width ws st w new :
  0 < width →
  wrapInv width ws st → new ≠ [] →
  new = segments width w →
  Forall (fun l => len l <= width) new →
  ∀ st', outOf st' = outOf st ++ new → wrapInv width (ws ++ [w]) st'.
Proof.
  intros Hw (HJ & He & Hlen) Hnew -> Hnl st' Hout. unfold wrapInv.
  rewrite Hout, flat_map_app. simpl. rewrite app_nil_r. repeat split.
  - rewrite !Join_app, HJ.
    destruct (decide (outOf st = [])) as [Ho|Ho].
    + rewrite decide_True; [done|]. apply flat_map_nil_segments. by apply He.
    + rewrite (decide_False (P := flat_map _ _ = [])); [done|].
      intros Hf%flat_map_nil_segments. by apply Ho, He.
  - by intros [_ ?]%app_eq_nil.
  - by intros [_ ?]%app_eq_nil.
  - apply Forall_app. by split.
Qed.

Lemma wrapWord_inv width ws st w :
  0 < width → w ≠ "" →
  wrapInv width ws st → wrapInv width (ws ++ [w]) (wrapWord width st w).
Proof.
  intros Hw Hne Hinv. unfold wrapWord.
  destruct (Z.ltb_spec width (len w)) as [Hlt|Hge].
  - (* an over-long word *)
    rewrite flush_outOf, hardSplit_acc.
    pose proof (hardSplit_spec (String.length w) width w Hw (le_n _)) as Hs.
    eapply (wrapInv_append width ws st w (segments width w)); try done.
    + apply segments_nonempty.
    + unfold segments. destruct (hardSplit _ _ _ _) as [pieces rest].
      destruct Hs as (Hp & Hr & _). apply Forall_app. split.
      * eapply Forall_impl; [done|]. simpl. intros; lia.
      * by constructor.
    + unfold segments. destruct (hardSplit _ _ _ _) as [pieces rest].
      destruct Hs as (_ & _ & Hrest & _). unfold outOf at 1. simpl.
      rewrite decide_True by auto. by rewrite <- app_assoc.
  - destruct st as [lines current].
    destruct (decide (current = "")) as [->|Hc].
    + eapply (wrapInv_append width ws (lines, "") w [w]); try done.
      * by rewrite segments_short.
      * by constructor.
      * unfold outOf. simpl. rewrite decide_True by done. by rewrite app_nil_r.
    + destruct (Z.leb_spec (len (current +:+ " " +:+ w)) width) as [Hfit|Hnofit].
      * (* the word joins the current line *)
        destruct Hinv as (HJ & He & Hlen). unfold outOf in *. simpl in *.
        rewrite decide_True in * by done.
        assert (current +:+ " " +:+ w ≠ "") as Hcw.
        { intros Hz%len_zero. rewrite len_app in Hz.
          pose proof (len_nonneg (" " +:+ w)). pose proof (len_nonneg current).
          apply Hc, len_zero. lia. }
        unfold wrapInv, outOf. simpl. rewrite decide_True by done.
        rewrite flat_map_app. simpl. rewrite app_nil_r, segments_short by done.
        repeat split.
        -- rewrite !Join_snoc, <- HJ, Join_snoc.
           rewrite (decide_False (P := flat_map _ _ = [])).
           2:{ intros Hf%flat_map_nil_segments. apply He in Hf.
               by apply app_eq_nil in Hf as [_ ?]. }
           destruct (decide (lines = [])); by rewrite ?str_app_assoc.
        -- by intros [_ ?]%app_eq_nil.
        -- by intros [_ ?]%app_eq_nil.
        -- apply Forall_app in Hlen as [Hl _]. apply Forall_app. split; [done|].
           by constructor.
      * (* the current line is full *)
        eapply (wrapInv_append width ws (lines, current) w [w]); try done.
        -- by rewrite segments_short.
        -- by constructor.
        -- unfold outOf. simpl. rewrite !decide_True by done. by rewrite <- app_assoc.
Qed.

Lemma wrapWords_inv width ws' ws st :
  0 < width → Forall (fun w => w ≠ "") ws' →
  wrapInv width ws st →
  wrapInv width (ws ++ ws') (fold_left (wrapWord width) ws' st).
Proof.
  intros Hw. revert ws st. induction ws' as [|w ws' IH]; intros ws st Hne Hinv; simpl.
  - by rewrite app_nil_r.
  - apply Forall_cons in Hne as [Hw0 Hne].
    replace (ws ++ w :: ws') with ((ws ++ [w]) ++ ws') by (by rewrite <- app_assoc).
    apply IH; [done|]. by apply wrapWord_inv.
Qed.

Lemma wrapLine_loop text width :
  0 < width → width < len text →
  Join (wrapLine text width) " " = Join (flat_map (segments width) (Fields text)) " " ∧
  Forall (fun l => len l <= width) (wrapLine text width).
Proof.
  intros Hw Hlong. unfold wrapLine.
  destruct (Z.leb_spec width 0); [lia|]. destruct (Z.leb_spec (len text) width); [lia|].
  simpl.
  assert (wrapInv width [] ([], "")) as Hinit.
  { unfold wrapInv, outOf. simpl. repeat split; by try constructor. }
  destruct (decide (length (Fields text) = 0%nat)) as [Hz|Hz].
  - apply nil_length_inv in Hz. rewrite Hz. simpl. split; [done|].
    constructor; [|done]. unfold len. simpl. lia.
  - pose proof (wrapWords_inv width (Fields text) [] ([], "") Hw) as Hinv. simpl in Hinv.
    rewrite flush_outOf.
    destruct Hinv as (HJ & He & Hlen); [|done|].
    { apply Forall_forall. intros w Hin. by apply isWord_nonempty, (Fields_word text). }
    destruct (decide (length (outOf _) = 0%nat)) as [Ho|Ho]; [|done].
    apply nil_length_inv in Ho. apply He in Ho. by rewrite Ho in Hz.
Qed.

Lemma wrapLine_roundtrip text width :
  0 < width →
  Fields (Join (wrapLine text width) " ") = flat_map (segments width) (Fields text) ∧
  Forall (fun line => len line <= width) (wrapLine text width).
Proof.
  intros Hw. destruct (Z.le_gt_cases (len text) width) as [Hshort|Hlong].
  - unfold wrapLine. destruct (Z.leb_spec (len text) width); [|lia].
    rewrite orb_true_r. split; [|by constructor].
    unfold Join. simpl.
    assert (flat_map (segments width) (Fields text) = Fields text) as ->; [|done].
    assert (Forall (fun w => len w <= width) (Fields text)) as Hall.
    { apply Forall_forall. intros w Hin%Fields_length. unfold len in *. lia. }
    induction Hall as [|w ws Hw0 _ IH]; simpl; [done|].
    by rewrite segments_short, IH.
  - destruct (wrapLine_loop text width Hw) as (HJ & Hlen); [lia|].
    split; [|done]. rewrite HJ. apply Fields_Join.
    apply Forall_flat_map, Forall_forall. intros w Hin.
    apply segments_words; [done|]. by apply (Fields_word text).
Qed.
End wrap_proofs.

(** ** Fuzzy scores *)

Section fuzzy_proofs.
Context `{GoLib}.

Lemma matchRune_inv qr i prev ch st st' :
  0 <= i → matchInv i st → matchRune qr i prev ch st = Some st' → matchInv (i + 1) st'.
Proof.
  intros Hi (Hq & Hs & Hs' & Hsc & Hb & Hl & Hfirst). unfold matchRune.
  destruct (_ <=? _); [done|].
  destruct (negb _); [intros [= <-]; unfold matchInv; lia|].
  destruct (Z.eqb_spec i (lastMatch st + 1)) as [Hstreak|Hstreak];
    destruct (_ || _); intros [= <-]; unfold matchInv; simpl;
    (repeat split; try lia; nia).
Qed.

Lemma matchLoop_inv qr tr i prev st :
  0 <= i → matchInv i st →
  matchInv (i + Z.of_nat (length tr)) (matchLoop qr i prev tr st).
Proof.
  revert i prev st. induction tr as [|ch tr IH]; intros i prev st Hi Hinv;
    cbn [matchLoop length].
  - by rewrite Z.add_0_r.
  - destruct (matchRune qr i prev ch st) as [st'|] eqn:Hm.
    + replace (i + Z.of_nat (S (length tr)))
        with ((i + 1) + Z.of_nat (length tr)) by lia.
      apply IH; [lia|]. by eapply matchRune_inv.
    + destruct Hinv as (? & ? & ? & ? & ? & ? & ?). unfold matchInv. lia.
Qed.

Lemma subseq_score_bound qr tr :
  let st := matchLoop qr 0 None tr (mkMatch 0 0 0 (-2)) in
  qi st = Z.of_nat (length qr) →
  score st - (Z.of_nat (length tr) - Z.of_nat (length qr)) <=
  Z.of_nat (length qr) * (Z.of_nat (length qr) + 43) / 2.
Proof.
  intros st Hq.
  destruct (matchLoop_inv qr tr 0 None (mkMatch 0 0 0 (-2))) as (Hqi & _ & _ & _ & Hb & _ & _).
  { lia. } { unfold matchInv. simpl. lia. }
  fold st in Hqi, Hb. rewrite Hq in *.
  apply Z.div_le_lower_bound; lia.
Qed.

(** An occurrence of [sub] lies within [s]. *)
Lemma HasPrefix_length s p :
  HasPrefix s p = true → (String.length p ≤ String.length s)%nat.
Proof.
  revert s. induction p as [|a p IH]; intros [|b s]; cbn [HasPrefix String.length];
    [lia|lia|done|].
  intros [_ Hp]%andb_prop. apply IH in Hp. lia.
Qed.

Lemma index_of_fits s sub m :
  index_of s sub = Some m → (m + String.length sub ≤ String.length s)%nat.
Proof.
  revert m. induction s as [|c s IH]; intros m; cbn [index_of].
  - destruct (HasPrefix "" sub) eqn:Hp; [|done]. intros [= <-].
    apply HasPrefix_length in Hp. lia.
  - destruct (HasPrefix (String c s) sub) eqn:Hp.
    + intros [= <-]. apply HasPrefix_length in Hp. lia.
    + destruct (index_of s sub) as [k|] eqn:Hk; [|done]. intros [= <-].
      specialize (IH k eq_refl). cbn [String.length]. lia.
Qed.

Lemma Index_fits s sub : 0 <= Index s sub → Index s sub + len sub <= len s.
Proof.
  unfold Index, len. destruct (index_of s sub) as [m|] eqn:Hm; [|lia].
  intros _. apply index_of_fits in Hm. lia.
Qed.

(** The three ways [fuzzyMatchScore] can end for a non-empty query. *)
Lemma fuzzyMatchScore_contains query target :
  let q := ToLower (TrimSpace query) in
  let t := ToLower (TrimSpace target) in
  q ≠ "" → 0 <= Index t q →
  fuzzyMatchScore query target =
  (Z.max 1 (1200 - Index t q * 2 - (len t - len q)), true).
Proof.
  intros q t Hq Hidx. unfold fuzzyMatchScore. fold q t.
  rewrite decide_False by done.
  destruct (decide (t = "")) as [Ht|Ht].
  { exfalso. rewrite Ht in Hidx. unfold Index in Hidx.
    destruct q; [done|]. simpl in Hidx. lia. }
  destruct (Z.leb_spec 0 (Index t q)); [|lia].
  destruct (Z.ltb_spec (1200 - Index t q * 2 - (len t - len q)) 1); f_equal; lia.
Qed.

Lemma fuzzyMatchScore_subsequence query target s :
  let q := ToLower (TrimSpace query) in
  let t := ToLower (TrimSpace target) in
  q ≠ "" → Index t q < 0 →
  fuzzyMatchScore query target = (s, true) →
  1 <= s <= subseqBound (Z.of_nat (length (runes q))).
Proof.
  intros q t Hq Hidx. unfold fuzzyMatchScore. fold q t.
  rewrite decide_False by done.
  destruct (decide (t = "")) as [Ht|Ht]; [done|].
  destruct (Z.leb_spec 0 (Index t q)); [lia|].
  destruct (negb _) eqn:Hm; [done|].
  apply negb_false_iff, Z.eqb_eq in Hm.
  pose proof (subseq_score_bound (runes q) (runes t) Hm) as Hb.
  unfold subseqBound.
  destruct (Z.ltb_spec (score (matchLoop (runes q) 0 None (runes t) (mkMatch 0 0 0 (-2))) -
              (Z.of_nat (length (runes t)) - Z.of_nat (length (runes q)))) 1);
    intros [= <-]; lia.
Qed.

End fuzzy_proofs.

(** ** The palette *)

Section palette_proofs.
Context `{GoLib}.

Lemma matchCommand_acc q results command :
  matchCommand q results command = results ++ matchCommand q [] command.
Proof.
  unfold matchCommand. destruct (fuzzyMatchScore _ _) as [s ok].
  destruct ok; simpl; [done|by rewrite app_nil_r].
Qed.

Lemma matchJump_acc q results jump :
  matchJump q results jump = results ++ matchJump q [] jump.
Proof.
  unfold matchJump. destruct (fuzzyMatchScore _ _) as [s ok].
  destruct ok; simpl; [done|by rewrite app_nil_r].
Qed.

Lemma matchCommands_fold q commands results :
  fold_left (matchCommand q) commands results =
  results ++ flat_map (matchCommand q []) commands.
Proof.
  revert results. induction commands as [|c commands IH]; intros results; simpl.
  - by rewrite app_nil_r.
  - by rewrite IH, matchCommand_acc, <- app_assoc.
Qed.

Lemma matchJumps_fold q jumps results :
  fold_left (matchJump q) jumps results =
  results ++ flat_map (matchJump q []) jumps.
Proof.
  revert results. induction jumps as [|j jumps IH]; intros results; simpl.
  - by rewrite app_nil_r.
  - by rewrite IH, matchJump_acc, <- app_assoc.
Qed.

Lemma buildCommandPaletteResults_unfold query commands jumps :
  buildCommandPaletteResults query commands jumps =
  let sorted := sort_Slice resultLess (paletteMatches (TrimSpace query) commands jumps) in
  if decide (TrimSpace query = "") then take 20 sorted else sorted.
Proof.
  unfold buildCommandPaletteResults, paletteMatches.
  rewrite matchCommands_fold, matchJumps_fold. simpl.
  destruct (decide (TrimSpace query = "")); [|done].
  destruct (decide _) as [|Hn]; [done|]. rewrite take_ge; [done|lia].
Qed.

Section empty_query.
Hypothesis TrimSpace_empty : TrimSpace "" = "".
Hypothesis ToLower_empty : ToLower "" = "".

Lemma fuzzyMatchScore_empty target : fuzzyMatchScore "" target = (1, true).
Proof.
  unfold fuzzyMatchScore. rewrite TrimSpace_empty, ToLower_empty.
  by rewrite decide_True.
Qed.

Lemma paletteMatches_empty commands jumps :
  paletteMatches "" commands jumps =
  ((fun c => mkResult (Some c) None 51) <$> commands) ++
  ((fun j => mkResult None (Some j) 1) <$> jumps).
Proof.
  unfold paletteMatches. f_equal.
  - induction commands as [|c commands IH]; simpl; [done|].
    rewrite IH. unfold matchCommand. by rewrite fuzzyMatchScore_empty.
  - induction jumps as [|j jumps IH]; simpl; [done|].
    rewrite IH. unfold matchJump. by rewrite fuzzyMatchScore_empty.
Qed.

End empty_query.
End palette_proofs.

(** ** The update loop *)

Module TUIProofs.
Import TUI.

Lemma removeFirst_notin newNS recent :
  newNS ∉ recent → removeFirst newNS recent = recent.
Proof.
  induction recent as [|ns recent IH]; simpl; [done|].
  intros [Hne Hnin]%not_elem_of_cons.
  rewrite decide_False by done. by rewrite IH.
Qed.

Lemma removeFirst_filter newNS recent :
  NoDup recent → removeFirst newNS recent = base.filter (fun ns => ns ≠ newNS) recent.
Proof.
  induction recent as [|ns recent IH]; simpl; [done|].
  intros [Hnin Hnd]%NoDup_cons. rewrite filter_cons.
  destruct (decide (ns = newNS)) as [->|Hne].
  - rewrite decide_False by (by intros ?).
    rewrite <- IH by done. by rewrite removeFirst_notin.
  - rewrite decide_True by done. by rewrite IH.
Qed.

Lemma removeFirst_length newNS recent :
  newNS ∈ recent → S (length (removeFirst newNS recent)) = length recent.
Proof.
  induction recent as [|ns recent IH]; simpl; [by intros ?%elem_of_nil|].
  destruct (decide (ns = newNS)) as [->|Hne]; [done|].
  intros [?|Hin]%elem_of_cons; [done|]. simpl. by rewrite IH.
Qed.

Lemma updateRecent_spec recent newNS :
  NoDup recent → (length recent ≤ 3)%nat → newNS ≠ "" →
  let recent' := updateRecent newNS recent in
  NoDup recent' ∧ (length recent' ≤ 3)%nat ∧
  recent' = take 3 (newNS :: base.filter (fun ns => ns ≠ newNS) recent) ∧
  (newNS ∈ recent →
     recent' = newNS :: base.filter (fun ns => ns ≠ newNS) recent ∧ recent' ≡ₚ recent) ∧
  (newNS ∉ recent → recent' = newNS :: take 2 recent).
Proof.
  intros Hnd Hlen Hne. unfold updateRecent. rewrite decide_True by done.
  rewrite removeFirst_filter by done. cbn [app].
  assert (NoDup (newNS :: base.filter (fun ns => ns ≠ newNS) recent)) as Hnd'.
  { apply NoDup_cons. split; [|by apply NoDup_filter].
    intros [? _]%list_elem_of_filter. done. }
  assert ((if decide (3 < length (newNS :: base.filter (fun ns => ns ≠ newNS) recent))%nat
           then take 3 (newNS :: base.filter (fun ns => ns ≠ newNS) recent)
           else newNS :: base.filter (fun ns => ns ≠ newNS) recent) =
          take 3 (newNS :: base.filter (fun ns => ns ≠ newNS) recent)) as ->.
  { destruct (decide _); [done|]. rewrite take_ge; [done|lia]. }
  cbv zeta. split; [|split; [|split; [done|split]]].
  - eapply sublist_NoDup; [done|apply sublist_take].
  - rewrite length_take. lia.
  - intros Hin.
    pose proof (removeFirst_length newNS recent Hin) as Hl.
    rewrite removeFirst_filter in Hl by done.
    rewrite take_ge by (simpl; lia). split; [done|].
    apply NoDup_Permutation; [done|done|]. intros x.
    rewrite elem_of_cons, list_elem_of_filter.
    destruct (decide (x = newNS)) as [->|Hx]; [tauto|].
    split; [intros [?|[_ ?]]; done|]. intros ?. by right.
  - intros Hnin. rewrite <- removeFirst_filter, removeFirst_notin by done. done.
Qed.

Create Rewrite HintDb ui_fields.

Lemma recent_set_filterText v st : recentNamespaces (set_filterText v st) = recentNamespaces st.
Proof. reflexivity. Qed.
Lemma recent_set_allEvents v st : recentNamespaces (set_allEvents v st) = recentNamespaces st.
Proof. reflexivity. Qed.
Lemma recent_set_visibleEvents v st : recentNamespaces (set_visibleEvents v st) = recentNamespaces st.
Proof. reflexivity. Qed.
Lemma recent_set_rowToVisibleEvent v st : recentNamespaces (set_rowToVisibleEvent v st) = recentNamespaces st.
Proof. reflexivity. Qed.
Lemma recent_set_recentNamespaces v st : recentNamespaces (set_recentNamespaces v st) = v.
Proof. reflexivity. Qed.
Lemma recent_set_watchCancel v st : recentNamespaces (set_watchCancel v st) = recentNamespaces st.
Proof. reflexivity. Qed.
Lemma recent_set_watchGeneration v st : recentNamespaces (set_watchGeneration v st) = recentNamespaces st.
Proof. reflexivity. Qed.
Lemma recent_set_namespace v st : recentNamespaces (set_namespace v st) = recentNamespaces st.
Proof. reflexivity. Qed.
Lemma recent_set_showTimestampColumn v st : recentNamespaces (set_showTimestampColumn v st) = recentNamespaces st.
Proof. reflexivity. Qed.
Lemma recent_set_autoScroll v st : recentNamespaces (set_autoScroll v st) = recentNamespaces st.
Proof. reflexivity. Qed.
Lemma recent_set_showNamespaceColumn v st : recentNamespaces (set_showNamespaceColumn v st) = recentNamespaces st.
Proof. reflexivity. Qed.
Lemma recent_set_showStatusColumn v st : recentNamespaces (set_showStatusColumn v st) = recentNamespaces st.
Proof. reflexivity. Qed.
Lemma recent_set_showActionColumn v st : recentNamespaces (set_showActionColumn v st) = recentNamespaces st.
Proof. reflexivity. Qed.
Lemma recent_set_showResourceColumn v st : recentNamespaces (set_showResourceColumn v st) = recentNamespaces st.
Proof. reflexivity. Qed.
Lemma recent_set_aggregateMode v st : recentNamespaces (set_aggregateMode v st) = recentNamespaces st.
Proof. reflexivity. Qed.
Lemma recent_set_wrapMessages v st : recentNamespaces (set_wrapMessages v st) = recentNamespaces st.
Proof. reflexivity. Qed.
Lemma recent_set_filterVisible v st : recentNamespaces (set_filterVisible v st) = recentNamespaces st.
Proof. reflexivity. Qed.
Lemma recent_set_table v st : recentNamespaces (set_table v st) = recentNamespaces st.
Proof. reflexivity. Qed.
Lemma recent_set_recentNSBox v st : recentNamespaces (set_recentNSBox v st) = recentNamespaces st.
Proof. reflexivity. Qed.
Lemma recent_set_infoView v st : recentNamespaces (set_infoView v st) = recentNamespaces st.
Proof. reflexivity. Qed.
Lemma recent_set_filter v st : recentNamespaces (set_filter v st) = recentNamespaces st.
Proof. reflexivity. Qed.
Lemma recent_set_cancelled v st : recentNamespaces (set_cancelled v st) = recentNamespaces st.
Proof. reflexivity. Qed.
Lemma recent_set_started v st : recentNamespaces (set_started v st) = recentNamespaces st.
Proof. reflexivity. Qed.
Hint Rewrite
  recent_set_filterText recent_set_allEvents recent_set_visibleEvents recent_set_rowToVisibleEvent
  recent_set_recentNamespaces recent_set_watchCancel recent_set_watchGeneration recent_set_namespace
  recent_set_showTimestampColumn recent_set_autoScroll recent_set_showNamespaceColumn recent_set_showStatusColumn
  recent_set_showActionColumn recent_set_showResourceColumn recent_set_aggregateMode recent_set_wrapMessages
  recent_set_filterVisible recent_set_table recent_set_recentNSBox recent_set_infoView
  recent_set_filter recent_set_cancelled recent_set_started : ui_fields.
Lemma generation_set_filterText v st : watchGeneration (set_filterText v st) = watchGeneration st.
Proof. reflexivity. Qed.
Lemma generation_set_allEvents v st : watchGeneration (set_allEvents v st) = watchGeneration st.
Proof. reflexivity. Qed.
Lemma generation_set_visibleEvents v st : watchGeneration (set_visibleEvents v st) = watchGeneration st.
Proof. reflexivity. Qed.
Lemma generation_set_rowToVisibleEvent v st : watchGeneration (set_rowToVisibleEvent v st) = watchGeneration st.
Proof. reflexivity. Qed.
Lemma generation_set_recentNamespaces v st : watchGeneration (set_recentNamespaces v st) = watchGeneration st.
Proof. reflexivity. Qed.
Lemma generation_set_watchCancel v st : watchGeneration (set_watchCancel v st) = watchGeneration st.
Proof. reflexivity. Qed.
Lemma generation_set_watchGeneration v st : watchGeneration (set_watchGeneration v st) = v.
Proof. reflexivity. Qed.
Lemma generation_set_namespace v st : watchGeneration (set_namespace v st) = watchGeneration st.
Proof. reflexivity. Qed.
Lemma generation_set_showTimestampColumn v st : watchGeneration (set_showTimestampColumn v st) = watchGeneration st.
Proof. reflexivity. Qed.
Lemma generation_set_autoScroll v st : watchGeneration (set_autoScroll v st) = watchGeneration st.
Proof. reflexivity. Qed.
Lemma generation_set_showNamespaceColumn v st : watchGeneration (set_showNamespaceColumn v st) = watchGeneration st.
Proof. reflexivity. Qed.
Lemma generation_set_showStatusColumn v st : watchGeneration (set_showStatusColumn v st) = watchGeneration st.
Proof. reflexivity. Qed.
Lemma generation_set_showActionColumn v st : watchGeneration (set_showActionColumn v st) = watchGeneration st.
Proof. reflexivity. Qed.
Lemma generation_set_showResourceColumn v st : watchGeneration (set_showResourceColumn v st) = watchGeneration st.
Proof. reflexivity. Qed.
Lemma generation_set_aggregateMode v st : watchGeneration (set_aggregateMode v st) = watchGeneration st.
Proof. reflexivity. Qed.
Lemma generation_set_wrapMessages v st : watchGeneration (set_wrapMessages v st) = watchGeneration st.
Proof. reflexivity. Qed.
Lemma generation_set_filterVisible v st : watchGeneration (set_filterVisible v st) = watchGeneration st.
Proof. reflexivity. Qed.
Lemma generation_set_table v st : watchGeneration (set_table v st) = watchGeneration st.
Proof. reflexivity. Qed.
Lemma generation_set_recentNSBox v st : watchGeneration (set_recentNSBox v st) = watchGeneration st.
Proof. reflexivity. Qed.
Lemma generation_set_infoView v st : watchGeneration (set_infoView v st) = watchGeneration st.
Proof. reflexivity. Qed.
Lemma generation_set_filter v st : watchGeneration (set_filter v st) = watchGeneration st.
Proof. reflexivity. Qed.
Lemma generation_set_cancelled v st : watchGeneration (set_cancelled v st) = watchGeneration st.
Proof. reflexivity. Qed.
Lemma generation_set_started v st : watchGeneration (set_started v st) = watchGeneration st.
Proof. reflexivity. Qed.
Hint Rewrite
  generation_set_filterText generation_set_allEvents generation_set_visibleEvents generation_set_rowToVisibleEvent
  generation_set_recentNamespaces generation_set_watchCancel generation_set_watchGeneration generation_set_namespace
  generation_set_showTimestampColumn generation_set_autoScroll generation_set_showNamespaceColumn generation_set_showStatusColumn
  generation_set_showActionColumn generation_set_showResourceColumn generation_set_aggregateMode generation_set_wrapMessages
  generation_set_filterVisible generation_set_table generation_set_recentNSBox generation_set_infoView
  generation_set_filter generation_set_cancelled generation_set_started : ui_fields.

Lemma events_set_filterText v st : allEvents (set_filterText v st) = allEvents st.
Proof. reflexivity. Qed.
Lemma events_set_allEvents v st : allEvents (set_allEvents v st) = v.
Proof. reflexivity. Qed.
Lemma events_set_visibleEvents v st : allEvents (set_visibleEvents v st) = allEvents st.
Proof. reflexivity. Qed.
Lemma events_set_rowToVisibleEvent v st : allEvents (set_rowToVisibleEvent v st) = allEvents st.
Proof. reflexivity. Qed.
Lemma events_set_recentNamespaces v st : allEvents (set_recentNamespaces v st) = allEvents st.
Proof. reflexivity. Qed.
Lemma events_set_watchCancel v st : allEvents (set_watchCancel v st) = allEvents st.
Proof. reflexivity. Qed.
Lemma events_set_watchGeneration v st : allEvents (set_watchGeneration v st) = allEvents st.
Proof. reflexivity. Qed.
Lemma events_set_namespace v st : allEvents (set_namespace v st) = allEvents st.
Proof. reflexivity. Qed.
Lemma events_set_showTimestampColumn v st : allEvents (set_showTimestampColumn v st) = allEvents st.
Proof. reflexivity. Qed.
Lemma events_set_autoScroll v st : allEvents (set_autoScroll v st) = allEvents st.
Proof. reflexivity. Qed.
Lemma events_set_showNamespaceColumn v st : allEvents (set_showNamespaceColumn v st) = allEvents st.
Proof. reflexivity. Qed.
Lemma events_set_showStatusColumn v st : allEvents (set_showStatusColumn v st) = allEvents st.
Proof. reflexivity. Qed.
Lemma events_set_showActionColumn v st : allEvents (set_showActionColumn v st) = allEvents st.
Proof. reflexivity. Qed.
Lemma events_set_showResourceColumn v st : allEvents (set_showResourceColumn v st) = allEvents st.
Proof. reflexivity. Qed.
Lemma events_set_aggregateMode v st : allEvents (set_aggregateMode v st) = allEvents st.
Proof. reflexivity. Qed.
Lemma events_set_wrapMessages v st : allEvents (set_wrapMessages v st) = allEvents st.
Proof. reflexivity. Qed.
Lemma events_set_filterVisible v st : allEvents (set_filterVisible v st) = allEvents st.
Proof. reflexivity. Qed.
Lemma events_set_table v st : allEvents (set_table v st) = allEvents st.
Proof. reflexivity. Qed.
Lemma events_set_recentNSBox v st : allEvents (set_recentNSBox v st) = allEvents st.
Proof. reflexivity. Qed.
Lemma events_set_infoView v st : allEvents (set_infoView v st) = allEvents st.
Proof. reflexivity. Qed.
Lemma events_set_filter v st : allEvents (set_filter v st) = allEvents st.
Proof. reflexivity. Qed.
Lemma events_set_cancelled v st : allEvents (set_cancelled v st) = allEvents st.
Proof. reflexivity. Qed.
Lemma events_set_started v st : allEvents (set_started v st) = allEvents st.
Proof. reflexivity. Qed.
Hint Rewrite
  events_set_filterText events_set_allEvents events_set_visibleEvents events_set_rowToVisibleEvent
  events_set_recentNamespaces events_set_watchCancel events_set_watchGeneration events_set_namespace
  events_set_showTimestampColumn events_set_autoScroll events_set_showNamespaceColumn events_set_showStatusColumn
  events_set_showActionColumn events_set_showResourceColumn events_set_aggregateMode events_set_wrapMessages
  events_set_filterVisible events_set_table events_set_recentNSBox events_set_infoView
  events_set_filter events_set_cancelled events_set_started : ui_fields.

Section callbacks.
Context `{GoLib} (env : Env).

Lemma refreshTable_fields st :
  recentNamespaces (refreshTable st) = recentNamespaces st ∧
  watchGeneration (refreshTable st) = watchGeneration st ∧
  allEvents (refreshTable st) = allEvents st.
Proof.
  unfold refreshTable. destruct (renderTable _ _ _ _ _ _).
  by autorewrite with ui_fields.
Qed.

Lemma updateTableTitle_fields st :
  recentNamespaces (updateTableTitle st) = recentNamespaces st ∧
  watchGeneration (updateTableTitle st) = watchGeneration st ∧
  allEvents (updateTableTitle st) = allEvents st.
Proof. unfold updateTableTitle. destruct (autoScroll st); by autorewrite with ui_fields. Qed.

(** Push a projection through the setters and the two refresh functions. *)
Ltac fields :=
  repeat first
    [ rewrite (proj1 (refreshTable_fields _))
    | rewrite (proj1 (proj2 (refreshTable_fields _)))
    | rewrite (proj2 (proj2 (refreshTable_fields _)))
    | rewrite (proj1 (updateTableTitle_fields _))
    | rewrite (proj1 (proj2 (updateTableTitle_fields _)))
    | rewrite (proj2 (proj2 (updateTableTitle_fields _)))
    | progress autorewrite with ui_fields ].

Lemma updateNamespace_recent newNS st :
  recentNamespaces (updateNamespace env newNS st) = updateRecent newNS (recentNamespaces st).
Proof. unfold updateNamespace. fields. destruct (watchCancel st); by fields. Qed.

Lemma updateNamespace_generation newNS st :
  watchGeneration (updateNamespace env newNS st) = wrap64 (watchGeneration st + 1).
Proof. unfold updateNamespace. fields. destruct (watchCancel st); by fields. Qed.

Lemma onWatchEvent_recent generation event st :
  recentNamespaces (onWatchEvent generation event st) = recentNamespaces st.
Proof.
  unfold onWatchEvent. repeat (case_match; fields; try done).
Qed.

Lemma onWatchError_recent generation err st :
  recentNamespaces (onWatchError generation err st) = recentNamespaces st.
Proof. unfold onWatchError. repeat (case_match; fields; try done). Qed.

Lemma step_recent st m :
  recentNamespaces (step env st m) = recentNamespaces st ∨
  ∃ newNS, recentNamespaces (step env st m) = updateRecent newNS (recentNamespaces st).
Proof.
  destruct m; cbn [step].
  - right. eexists. apply updateNamespace_recent.
  - unfold handleRune, selectLast.
    repeat (case_match; fields; rewrite ?updateNamespace_recent; eauto).
  - left. by fields.
  - left. unfold selectLast. by fields.
  - left. by fields.
  - left. unfold filterDone. by fields.
  - left. apply onWatchEvent_recent.
  - left. apply onWatchError_recent.
  - left. by fields.
Qed.

Lemma updateRecent_inv newNS recent : recentInv recent → recentInv (updateRecent newNS recent).
Proof.
  intros [Hnd Hlen]. destruct (decide (newNS = "")) as [->|Hne].
  - by unfold updateRecent.
  - by destruct (updateRecent_spec recent newNS Hnd Hlen Hne) as (? & ? & _).
Qed.

Lemma run_recent st trace :
  recentInv (recentNamespaces st) → recentInv (recentNamespaces (run env st trace)).
Proof.
  revert st. induction trace as [|m trace IH]; intros st Hinv; simpl; [done|].
  apply IH. destruct (step_recent st m) as [->|[newNS ->]]; [done|].
  by apply updateRecent_inv.
Qed.

Lemma startUI_recent ns : recentInv (recentNamespaces (startUI env ns)).
Proof.
  unfold startUI. rewrite updateNamespace_recent.
  apply updateRecent_inv. fields. simpl.
  split; [constructor|simpl; lia].
Qed.

(** The event log *)
Lemma eventLine_wellFormed event : wellFormed (eventLine event) = true.
Proof.
  unfold wellFormed. apply bool_decide_eq_true.
  apply (splitn_separated 5). unfold eventLine.
  by repeat apply separated_column.
Qed.

Lemma updateNamespace_events newNS st :
  allEvents (updateNamespace env newNS st) = [].
Proof. unfold updateNamespace. by fields. Qed.

Lemma onWatchEvent_events generation event st :
  allEvents (onWatchEvent generation event st) = allEvents st ∨
  allEvents (onWatchEvent generation event st) = allEvents st ++ [eventLine event].
Proof.
  unfold onWatchEvent. repeat (case_match; fields; auto).
Qed.

Lemma onWatchError_events generation err st :
  allEvents (onWatchError generation err st) = allEvents st.
Proof. unfold onWatchError. repeat (case_match; fields; try done). Qed.

Lemma step_events st m : logInv (allEvents st) → logInv (allEvents (step env st m)).
Proof.
  intros Hinv. destruct m; cbn [step].
  - rewrite updateNamespace_events. constructor.
  - unfold handleRune, selectLast.
    repeat (case_match; fields; rewrite ?updateNamespace_events; try done; try constructor).
  - by fields.
  - unfold selectLast. by fields.
  - by fields.
  - unfold filterDone. by fields.
  - destruct (onWatchEvent_events generation event st) as [->| ->]; [done|].
    apply Forall_app. split; [done|]. constructor; [|constructor].
    apply eventLine_wellFormed.
  - by rewrite onWatchError_events.
  - by fields.
Qed.

Lemma run_events st trace : logInv (allEvents st) → logInv (allEvents (run env st trace)).
Proof.
  revert st. induction trace as [|m trace IH]; intros st Hinv; cbn [run fold_left]; [done|].
  apply IH. by apply step_events.
Qed.

Lemma startUI_events ns : logInv (allEvents (startUI env ns)).
Proof. unfold startUI. rewrite updateNamespace_events. constructor. Qed.

(** Generations *)
Lemma onWatchEvent_stale generation event st :
  generation ≠ watchGeneration st → onWatchEvent generation event st = st.
Proof. intros Hg. unfold onWatchEvent. by rewrite decide_True. Qed.

Lemma onWatchError_stale generation err st :
  generation ≠ watchGeneration st → onWatchError generation err st = st.
Proof. intros Hg. unfold onWatchError. by rewrite decide_True. Qed.

Lemma step_stale st m : live st m = false → step env st m = st.
Proof.
  destruct m; simpl; try done; intros Hl%bool_decide_eq_false.
  - by apply onWatchEvent_stale.
  - by apply onWatchError_stale.
Qed.

Lemma run_runLive st trace : run env st trace = runLive env st trace.
Proof.
  revert st. induction trace as [|m trace IH]; intros st; simpl; [done|].
  destruct (live st m) eqn:Hl; [apply IH|].
  rewrite step_stale by done. apply IH.
Qed.

Lemma onWatchEvent_generation generation event st :
  watchGeneration (onWatchEvent generation event st) = watchGeneration st.
Proof.
  unfold onWatchEvent. repeat (case_match; fields; try done).
Qed.

Lemma onWatchError_generation generation err st :
  watchGeneration (onWatchError generation err st) = watchGeneration st.
Proof. unfold onWatchError. repeat (case_match; fields; try done). Qed.

Lemma step_generation st m :
  watchGeneration (step env st m) = watchGeneration st ∨
  watchGeneration (step env st m) = wrap64 (watchGeneration st + 1).
Proof.
  destruct m; cbn [step].
  - right. apply updateNamespace_generation.
  - unfold handleRune, selectLast.
    repeat (case_match; fields; rewrite ?updateNamespace_generation; eauto).
  - left. by fields.
  - left. unfold selectLast. by fields.
  - left. by fields.
  - left. unfold filterDone. by fields.
  - left. apply onWatchEvent_generation.
  - left. apply onWatchError_generation.
  - left. by fields.
Qed.

Lemma run_generation st trace :
  isInt (watchGeneration st) →
  ∃ k, (k ≤ length trace)%nat ∧
       watchGeneration (run env st trace) = wrap64 (watchGeneration st + Z.of_nat k).
Proof.
  revert st. induction trace as [|m trace IH]; intros st Hint; cbn [run fold_left].
  - exists 0%nat. split; [done|]. rewrite Z.add_0_r. by rewrite wrap64_id.
  - fold (run env (step env st m) trace).
    destruct (step_generation st m) as [Hs|Hs].
    + destruct (IH (step env st m)) as (k & Hk & ->); [by rewrite Hs|].
      exists k. split; [simpl; lia|]. by rewrite Hs.
    + destruct (IH (step env st m)) as (k & Hk & ->).
      { rewrite Hs. apply wrap64_range. }
      exists (S k). split; [simpl; lia|]. rewrite Hs, wrap64_add. f_equal. lia.
Qed.

End callbacks.

(** *** The claims about the update loop *)

(** C1 — generation invariant.  A watch result, event or error, queued
    by a goroutine whose generation is not the current
    [watchGeneration] is dropped: the callback returns the state it was
    given, so the event log, the visible rows, the back-reference
    table, the table and its title are all untouched.
    [updateNamespace] moves [watchGeneration] one step on, which makes
    every result of the watch it supersedes stale, and such results
    stay stale over any run of fewer than 2^64 - 1 turns.  Whatever the
    interleaving of scope changes, keys and deliveries, the loop ends in
    the state it reaches when the stale results are never queued: only
    results of the current generation are reflected. *)
Theorem generation_discards_stale `{GoLib} (env : Env) (st : UI) (generation : Z) :
  generation ≠ watchGeneration st →
  (∀ event, onWatchEvent generation event st = st) ∧
  (∀ err, onWatchError generation err st = st) ∧
  (∀ newNS event err,
     let st' := updateNamespace env newNS st in
     watchGeneration st' = wrap64 (watchGeneration st + 1) ∧
     onWatchEvent (watchGeneration st) event st' = st' ∧
     onWatchError (watchGeneration st) err st' = st') ∧
  (∀ newNS trace event err,
     isInt (watchGeneration st) → Z.of_nat (length trace) < 2 ^ 64 - 1 →
     let st' := run env (updateNamespace env newNS st) trace in
     onWatchEvent (watchGeneration st) event st' = st' ∧
     onWatchError (watchGeneration st) err st' = st') ∧
  (∀ trace, run env st trace = runLive env st trace).
Proof.
  intros Hstale. split; [|split; [|split; [|split]]].
  - intros event. by apply onWatchEvent_stale.
  - intros err. by apply onWatchError_stale.
  - intros newNS event err st'. subst st'.
    pose proof (updateNamespace_generation env newNS st) as Hg.
    assert (watchGeneration st ≠ watchGeneration (updateNamespace env newNS st)) as Hne.
    { rewrite Hg. intros Heq. by apply (wrap64_succ_ne (watchGeneration st)). }
    split; [done|]. split; [by apply onWatchEvent_stale|by apply onWatchError_stale].
  - intros newNS trace event err Hint Hlen st'. subst st'.
    assert (watchGeneration st ≠
            watchGeneration (run env (updateNamespace env newNS st) trace)) as Hne.
    { destruct (run_generation env (updateNamespace env newNS st) trace) as (k & Hk & ->).
      { rewrite updateNamespace_generation. apply wrap64_range. }
      rewrite updateNamespace_generation, wrap64_add.
      replace (watchGeneration st + 1 + Z.of_nat k)
        with (watchGeneration st + (1 + Z.of_nat k)) by lia.
      intros Heq. symmetry in Heq. revert Heq. apply wrap64_ne; [done|lia]. }
    split; [by apply onWatchEvent_stale|by apply onWatchError_stale].
  - intros trace. apply run_runLive.
Qed.

(** C7 — the recent-namespaces list.  Over every run of the update loop
    the list holds no duplicate and at most 3 entries.  A scope change
    to a named namespace puts it at the front of the list with its old
    entry removed, keeps the others in order and cuts the list to 3: a
    namespace already listed moves to the front and nothing is lost; a
    new one goes to the front and, when the list was full, the oldest
    entry goes.  Selecting all namespaces leaves the list as it is. *)
Theorem recent_namespaces_mru `{GoLib} (env : Env) :
  (∀ ns trace, recentInv (recentNamespaces (run env (startUI env ns) trace))) ∧
  (∀ newNS st,
     recentNamespaces (updateNamespace env newNS st) =
     updateRecent newNS (recentNamespaces st)) ∧
  (∀ recent, updateRecent "" recent = recent) ∧
  (∀ recent newNS,
     recentInv recent → newNS ≠ "" →
     let recent' := updateRecent newNS recent in
     recentInv recent' ∧ head recent' = Some newNS ∧
     recent' = take 3 (newNS :: base.filter (fun ns => ns ≠ newNS) recent) ∧
     (newNS ∈ recent →
        recent' = newNS :: base.filter (fun ns => ns ≠ newNS) recent ∧
        recent' ≡ₚ recent) ∧
     (newNS ∉ recent → recent' = newNS :: take 2 recent)).
Proof.
  split; [|split; [|split]].
  - intros ns trace. apply run_recent, startUI_recent.
  - intros newNS st. apply updateNamespace_recent.
  - done.
  - intros recent newNS [Hnd Hlen] Hne recent'. subst recent'.
    destruct (updateRecent_spec recent newNS Hnd Hlen Hne) as (H1 & H2 & H3 & H4 & H5).
    split; [by split|]. split; [by rewrite H3|]. done.
Qed.

(** Examples on the ASCII instance. *)
Local Existing Instance ascii_lib.

Lemma generation_discards_stale_witness :
  0 ≠ watchGeneration (startUI sampleEnv "default") ∧
  onWatchEvent 0 sampleEvent (startUI sampleEnv "default") = startUI sampleEnv "default".
Proof.
  assert (0 ≠ watchGeneration (startUI sampleEnv "default")) as Hne
    by (vm_compute; discriminate).
  split; [exact Hne|].
  destruct (generation_discards_stale sampleEnv (startUI sampleEnv "default") 0 Hne)
    as [Hevent _].
  exact (Hevent sampleEvent).
Defined.

Lemma recent_namespaces_mru_witness :
  recentInv ["b"; "a"; "default"] ∧ "c" ≠ "" ∧
  updateRecent "c" ["b"; "a"; "default"] = ["c"; "b"; "a"] ∧
  updateRecent "a" ["b"; "a"; "default"] = ["a"; "b"; "default"].
Proof.
  assert (recentInv ["b"; "a"; "default"]) as Hinv.
  { split; [|simpl; lia]. apply (bool_decide_unpack _). by vm_compute. }
  assert ("c" ≠ "") as Hc by discriminate.
  assert ("a" ≠ "") as Ha by discriminate.
  destruct (recent_namespaces_mru sampleEnv) as (_ & _ & _ & Hupd).
  split; [exact Hinv|]. split; [exact Hc|]. split.
  - destruct (Hupd ["b"; "a"; "default"] "c" Hinv Hc) as (_ & _ & _ & _ & Hnew).
    rewrite Hnew; [reflexivity|].
    apply (bool_decide_unpack _). by vm_compute.
  - destruct (Hupd ["b"; "a"; "default"] "a" Hinv Ha) as (_ & _ & Heq & _).
    rewrite Heq. reflexivity.
Defined.

End TUIProofs.

(** ** The ASCII instance meets what the proofs ask of [strings.Fields] *)

Module AsciiLaws.
Import AsciiLib.

Lemma no_space_app a b : no_space (a +:+ b) = no_space a && no_space b.
Proof.
  induction a as [|c a IH]; [done|].
  rewrite str_app_cons. simpl. rewrite IH. by rewrite andb_assoc.
Qed.

Lemma fields_go_word cur w rest :
  no_space w = true → w ≠ "" →
  fields_go cur (w +:+ rest) = fields_go (Some (default "" cur +:+ w)) rest.
Proof.
  revert cur. induction w as [|c w IH]; intros cur Hns Hne; [done|].
  rewrite str_app_cons. simpl in *. apply andb_true_iff in Hns as [Hc Hw].
  apply negb_true_iff in Hc. rewrite Hc.
  destruct w as [|c' w'].
  - rewrite str_app_nil_l. by destruct cur.
  - rewrite IH by done. f_equal. f_equal. destruct cur; simpl.
    + by rewrite str_app_assoc.
    + done.
Qed.

Lemma fields_go_out cur s w :
  (∀ c, cur = Some c → word c) →
  w ∈ fields_go cur s → word w.
Proof.
  revert cur. induction s as [|c s IH]; intros cur Hcur; simpl.
  - destruct cur as [c|]; [|by intros ?%elem_of_nil].
    intros ->%list_elem_of_singleton. by apply Hcur.
  - destruct (is_space c) eqn:Hc.
    + destruct cur as [c0|].
      * intros [->|Hin]%elem_of_cons; [by apply Hcur|]. by apply (IH None).
      * by apply (IH None).
    + apply IH. intros c1 [= <-]. destruct cur as [c0|].
      * destruct (Hcur c0 eq_refl) as [Hne Hns]. split.
        -- destruct c0; [done|]. by rewrite str_app_cons.
        -- rewrite no_space_app, Hns. simpl. by rewrite Hc.
      * split; [done|]. simpl. by rewrite Hc.
Qed.

Lemma Fields_of_word w : word w → Fields w = [w].
Proof.
  intros [Hne Hns]. unfold Fields.
  rewrite <- (str_app_nil_r w) at 1. by rewrite fields_go_word.
Qed.

Lemma word_iff w : Fields w = [w] ↔ word w.
Proof.
  split; [|apply Fields_of_word].
  intros Hw. apply (fields_go_out None w); [done|].
  unfold Fields in Hw. rewrite Hw. by left.
Qed.

Lemma Fields_word s w : w ∈ Fields s → Fields w = [w].
Proof. intros Hin. apply Fields_of_word, (fields_go_out None s); done. Qed.

Lemma Fields_Join ws :
  Forall (fun w => Fields w = [w]) ws → Fields (Join ws " ") = ws.
Proof.
  induction 1 as [|w ws Hw%word_iff Hws IH]; [done|].
  destruct Hw as [Hne Hns]. unfold Fields, Join in *.
  destruct ws as [|w' ws'].
  - cbn [String.concat]. rewrite <- (str_app_nil_r w) at 1. by rewrite fields_go_word.
  - change (String.concat " " (w :: w' :: ws'))
      with (w +:+ " " +:+ String.concat " " (w' :: ws')).
    rewrite fields_go_word by done. rewrite str_app_cons, str_app_nil_l.
    cbn [fields_go]. change (is_space " ") with true. cbv iota.
    by rewrite ?str_app_nil_l, IH.
Qed.

Lemma no_space_slices n w :
  no_space w = true → no_space (slice_to n w) = true ∧ no_space (slice_from n w) = true.
Proof.
  intros Hw. rewrite <- (slice_to_from n w), no_space_app in Hw.
  by apply andb_true_iff in Hw.
Qed.

Lemma Fields_slice w n :
  Fields w = [w] → (0 < n < String.length w)%nat →
  Fields (slice_to n w) = [slice_to n w] ∧ Fields (slice_from n w) = [slice_from n w].
Proof.
  intros [Hne Hns]%word_iff Hn.
  destruct (no_space_slices n w Hns) as [Ht Hf].
  split; apply Fields_of_word; (split; [|done]); intros Hz.
  - pose proof (length_slice_to n w) as Hl. rewrite Hz in Hl. simpl in Hl. lia.
  - pose proof (length_slice_from n w) as Hl. rewrite Hz in Hl. simpl in Hl. lia.
Qed.

Lemma fields_go_length cur s w :
  w ∈ fields_go cur s →
  (String.length w ≤ String.length (default "" cur) + String.length s)%nat.
Proof.
  revert cur. induction s as [|c s IH]; intros cur; simpl.
  - destruct cur as [c|]; [|by intros ?%elem_of_nil].
    intros ->%list_elem_of_singleton. simpl. lia.
  - destruct (is_space c).
    + destruct cur as [c0|].
      * intros [->|Hin%IH]%elem_of_cons; simpl in *; lia.
      * intros Hin%IH. simpl in *. lia.
    + intros Hin%IH. destruct cur; simpl in *; rewrite ?str_length_app in *;
        simpl in *; lia.
Qed.

Lemma Fields_length s w :
  w ∈ Fields s → (String.length w ≤ String.length s)%nat.
Proof. intros Hin%fields_go_length. simpl in Hin. lia. Qed.
End AsciiLaws.

(** * The claims of the specification *)


(** C3 — the last-seen fields of a group.  For lines whose timestamps
    are not before the zero time, every group carries the timestamp,
    type and message of a contributing line with the greatest timestamp.
    Among several lines with that greatest timestamp the first one in the
    input supplies the fields, because a later line replaces them only
    when its timestamp is strictly after the stored one; when the
    greatest timestamp is the zero time (missing or unreadable
    timestamps) every line replaces them and the last one supplies
    them. *)
Theorem aggregate_last_seen_first_wins `{GoLib} (events : list string)
    (group : aggregatedEvent) :
  group ∈ aggregateSummary events →
  (∀ l, l ∈ contributing (groupKey group) events → 0 <= instant (lineTime l)) →
  suppliedBy (contributing (groupKey group) events) group.
Proof.
  intros Hg%aggregateSummary_elem Hpos.
  unfold aggregateGroups in Hg. rewrite aggregate_lookup, lookup_empty in Hg.
  destruct (contributing (groupKey group) events) as [|l ls] eqn:Hc; [done|].
  destruct (suppliedBy_fold (l :: ls)) as (g & Hfold & Hs); [done|done|].
  rewrite Hfold in Hg. by injection Hg as <-.
Qed.


(** C5 — substring against subsequence.  A candidate that contains the
    query scores 1200 minus twice the match position minus its excess
    length, and a candidate that only holds the query as a subsequence
    scores at most [subseqBound n] for a query of n runes.  So the
    substring candidate scores strictly higher whenever its penalty and
    that bound together stay below 1200.  The lengths are those of the
    trimmed and lower-cased texts; as a text has no more runes than
    bytes, the condition holds whenever the lower-cased query has at
    most 20 bytes and the lower-cased substring candidate at most 200. *)
Theorem substring_outranks_bounded `{GoLib} (query substr subseq : string) (s : Z) :
  let q := ToLower (TrimSpace query) in
  let t := ToLower (TrimSpace substr) in
  let u := ToLower (TrimSpace subseq) in
  let n := Z.of_nat (length (runes q)) in
  q ≠ "" →
  0 <= Index t q →
  Index u q < 0 →
  fuzzyMatchScore query subseq = (s, true) →
  Index t q * 2 + (len t - len q) + subseqBound n < 1200 ∨
  (n <= len q ∧ len q <= 20 ∧ len t <= 200) →
  ∃ s', fuzzyMatchScore query substr = (s', true) ∧ s < s'.
Proof.
  intros q t u n Hq Ht Hu Hs Hcase.
  assert (Index t q * 2 + (len t - len q) + subseqBound n < 1200) as Hbound.
  { destruct Hcase as [Hbound|(Hrunes & Hquery & Htarget)]; [done|].
    pose proof (Index_fits t q Ht) as Hfits.
    assert (0 <= n) as Hn by (subst n; lia).
    assert (n * (n + 43) <= len q * (len q + 43)) as Hmono by nia.
    assert (len q * (len q + 43) < 1200 + 6 * len q) as Hsmall by nia.
    unfold subseqBound. revert Hmono Hsmall.
    generalize (n * (n + 43)) (len q * (len q + 43)). intros a b Hmono Hsmall.
    assert (a / 2 <= b / 2) as Hhalf by (by apply Z.div_le_mono).
    assert (b / 2 < 600 + 3 * len q) as Hhalf' by (apply Z.div_lt_upper_bound; lia).
    lia. }
  pose proof (fuzzyMatchScore_subsequence query subseq s Hq Hu Hs) as [_ Hle].
  eexists. split; [by apply fuzzyMatchScore_contains|]. subst q t u n. lia.
Qed.

(** C6 — word wrap.  For a positive width, the words of the lines of
    [wrapLine] joined by single spaces are the words of the paragraph,
    each word longer than the width replaced by its segments; the
    segments of a word put together again are the word, all but the last
    are exactly [width] bytes long, and no line is longer than the
    width.  The four hypotheses are facts about [strings.Fields]. *)
Theorem wrapLine_round_trip `{GoLib} (text : string) (width : Z) :
  (∀ s w, w ∈ Fields s → isWord w) →
  (∀ ws, Forall isWord ws → Fields (Join ws " ") = ws) →
  (∀ w n, isWord w → (0 < n < String.length w)%nat →
          isWord (slice_to n w) ∧ isWord (slice_from n w)) →
  (∀ s w, w ∈ Fields s → (String.length w ≤ String.length s)%nat) →
  0 < width →
  Fields (Join (wrapLine text width) " ") = flat_map (segments width) (Fields text) ∧
  Forall (fun line => len line <= width) (wrapLine text width) ∧
  (∀ word, foldr String.append "" (segments width word) = word) ∧
  (∀ word, len word <= width → segments width word = [word]) ∧
  (∀ word, ∃ pieces rest,
     segments width word = pieces ++ [rest] ∧
     Forall (fun p => len p = width) pieces ∧ len rest <= width).
Proof.
  intros Hword Hjoin Hslice Hlen Hw.
  destruct (wrapLine_roundtrip Hword Hjoin Hslice Hlen text width Hw) as [Hrt Hall].
  split; [done|]. split; [done|]. split; [|split].
  - intros word. by apply segments_concat.
  - intros word. apply segments_short.
  - intros word. unfold segments.
    pose proof (hardSplit_spec (String.length word) width word Hw (le_n _)) as Hs.
    destruct (hardSplit _ _ _ _) as [pieces rest].
    destruct Hs as (Hp & Hr & _). by exists pieces, rest.
Qed.

(** C8 — back references.  A line that does not split into six fields
    changes nothing: no row, no entry.  The table returned by
    [renderTableContent] lists, for every well-formed line of the
    filtered list in order, the index of the line once per row it is
    rendered to, so the continuation rows of a wrapped message share the
    index of their first row; every entry is the index of a well-formed
    line of the filtered list; and after [renderTable] the table has one
    row per entry below the header. *)
Theorem render_back_references `{GoLib} (table : Table) (events : list string)
    (filterText : string) (opts : ColumnOptions) (wrapMessages : bool) (tableWidth : Z) :
  let filtered := filterEvents events filterText in
  let msgWidth := messageColumnWidth tableWidth opts in
  let rowToEvent :=
    (renderTableContent table events filterText opts wrapMessages tableWidth).2 in
  (∀ st eventIdx line,
     wellFormed line = false →
     renderLine opts wrapMessages msgWidth st eventIdx line = st) ∧
  rowToEvent = backRefs wrapMessages msgWidth 0 filtered ∧
  (∀ idx, idx ∈ rowToEvent →
     0 <= idx < Z.of_nat (length filtered) ∧
     ∃ line, filtered !! Z.to_nat idx = Some line ∧ wellFormed line = true) ∧
  GetRowCount (renderTable table events filterText opts wrapMessages tableWidth).1 =
  1 + Z.of_nat (length (renderTable table events filterText opts wrapMessages tableWidth).2).
Proof.
  intros filtered msgWidth rowToEvent.
  split; [intros st eventIdx line; apply renderLine_malformed|].
  assert (rowToEvent = backRefs wrapMessages msgWidth 0 filtered) as Hrefs
    by apply renderTableContent_refs.
  split; [done|]. split; [|apply renderTable_rows].
  intros idx Hin. rewrite Hrefs in Hin.
  destruct (backRefs_valid _ _ _ _ _ Hin) as (line & Hline & Hwf & Hle).
  rewrite Nat.sub_0_r in Hline. split; [|by exists line].
  apply lookup_lt_Some in Hline. lia.
Qed.

(** C9 — the width of the message column.  The result is at least 20 for
    every width and every choice of columns.  When the usable width, the
    table width less 3 per enabled column next to the message column, is
    at least 20 and five times it fits a 64-bit integer, the result is the
    larger of 20 and the share of the message column, weight 5 against 1
    for timestamp, namespace, status and action and 2 for resource. *)
Theorem messageColumnWidth_share (tableWidth : Z) (opts : ColumnOptions) :
  isInt tableWidth →
  20 <= messageColumnWidth tableWidth opts ∧
  (20 <= usableWidth tableWidth opts →
   usableWidth tableWidth opts * 5 <= maxInt →
   messageColumnWidth tableWidth opts = Z.max 20 (messageShare tableWidth opts)).
Proof.
  intros Hint. split; [apply mcw_floor|]. by apply mcw_share.
Qed.

(** C10 — the palette and the empty query.  When the trimmed query is
    empty every command and every jump matches with fuzzy score 1, the
    commands with 50 on top, and the sorted list is cut to its first 20
    entries; for any other query the result is the whole sorted list of
    matches, a rearrangement of all of them.  The two hypotheses are facts
    about [strings.TrimSpace] and [strings.ToLower]. *)
Theorem palette_empty_query_truncates `{GoLib} (query : string)
    (commands : list CommandPaletteCommand) (jumps : list CommandPaletteJump) :
  TrimSpace "" = "" → ToLower "" = "" →
  let q := TrimSpace query in
  let results := buildCommandPaletteResults query commands jumps in
  (q = "" →
     (∀ target, fuzzyMatchScore q target = (1, true)) ∧
     paletteMatches q commands jumps =
       ((fun c => mkResult (Some c) None 51) <$> commands) ++
       ((fun j => mkResult None (Some j) 1) <$> jumps) ∧
     results = take 20 (sort_Slice resultLess (paletteMatches q commands jumps)) ∧
     length results = (20 `min` (length commands + length jumps))%nat) ∧
  (q ≠ "" →
     results = sort_Slice resultLess (paletteMatches q commands jumps) ∧
     results ≡ₚ paletteMatches q commands jumps).
Proof.
  intros Htrim Hlower q results. subst results.
  rewrite buildCommandPaletteResults_unfold. fold q. cbv zeta. split; intros Hq.
  - rewrite decide_True by done. rewrite Hq. repeat split.
    + by apply fuzzyMatchScore_empty.
    + by apply paletteMatches_empty.
    + rewrite length_take. unfold sort_Slice.
      rewrite merge_sort_Permutation, paletteMatches_empty by done.
      rewrite length_app, !length_fmap. lia.
  - rewrite decide_False by done. split; [done|].
    apply merge_sort_Permutation.
Qed.

(** * More of the code *)

(** ** Substrings and the filter *)

Lemma HasPrefix_spec s p : HasPrefix s p = true ↔ ∃ b, s = p +:+ b.
Proof.
  revert s. induction p as [|a p IH]; intros s; cbn [HasPrefix].
  - split; [intros _; by exists s|done].
  - destruct s as [|c s]; [split; [done|by intros [b Hb]]|].
    rewrite andb_true_iff, IH. split.
    + intros [Hac%Ascii.eqb_eq [b ->]]. subst. by exists b.
    + intros [b Hb]. rewrite str_app_cons in Hb. injection Hb as -> ->.
      split; [apply Ascii.eqb_refl|by exists b].
Qed.

Lemma index_of_Some s sub m :
  index_of s sub = Some m →
  (m ≤ String.length s)%nat ∧ s = slice_to m s +:+ sub +:+ slice_from (m + String.length sub) s.
Proof.
  revert m. induction s as [|c s IH]; intros m; cbn [index_of].
  - destruct (HasPrefix "" sub) eqn:Hp; [|done]. intros [= <-].
    apply HasPrefix_spec in Hp as [b Hb]. destruct sub; [|done]. done.
  - destruct (HasPrefix (String c s) sub) eqn:Hp.
    + intros [= <-]. apply HasPrefix_spec in Hp as [b Hb]. split; [simpl; lia|].
      cbn [slice_to]. rewrite str_app_nil_l. rewrite Hb at 1. f_equal.
      rewrite Hb. clear. induction sub; [done|]. rewrite str_app_cons. simpl. done.
    + destruct (index_of s sub) as [k|] eqn:Hk; [|done]. intros [= <-].
      destruct (IH k eq_refl) as [Hle Hs]. split; [simpl; lia|].
      cbn [slice_to]. rewrite str_app_cons. simpl. by f_equal.
Qed.

Lemma index_of_None s sub a b : index_of s sub = None → s ≠ a +:+ sub +:+ b.
Proof.
  revert a. induction s as [|c s IH]; intros a; cbn [index_of].
  - destruct (HasPrefix "" sub) eqn:Hp; [done|]. intros _ Hs.
    destruct a; [|done]. rewrite str_app_nil_l in Hs.
    assert (HasPrefix "" sub = true) as Ht by (apply HasPrefix_spec; by exists b).
    congruence.
  - destruct (HasPrefix (String c s) sub) eqn:Hp; [done|].
    destruct (index_of s sub) eqn:Hk; [done|]. intros _ Hs.
    destruct a as [|c' a].
    + rewrite str_app_nil_l in Hs.
      assert (HasPrefix (String c s) sub = true) as Ht by (apply HasPrefix_spec; by exists b).
      congruence.
    + rewrite str_app_cons in Hs. injection Hs as -> Hs. by apply (IH a eq_refl).
Qed.

Lemma Contains_spec s sub : Contains s sub = true ↔ ∃ a b, s = a +:+ sub +:+ b.
Proof.
  unfold Contains, Index. destruct (index_of s sub) as [m|] eqn:Hm.
  - split; [intros _|intros _; apply Z.leb_le; lia].
    destruct (index_of_Some _ _ _ Hm) as [_ Hs]. eauto.
  - split; [done|]. intros (a & b & Hs). by apply index_of_None with (a:=a) (b:=b) in Hm.
Qed.

Lemma Contains_empty s : Contains s "" = true.
Proof. apply Contains_spec. by exists "", s. Qed.

(** X1 — the filter.  [filterEvents] keeps, in their order, exactly the
    lines that hold the filter text as a substring; the empty filter
    keeps every line, and two filters can be applied in either order. *)
Theorem filterEvents_substring (events : list string) (filterText : string) :
  filterEvents events filterText `sublist_of` events ∧
  (∀ line, line ∈ filterEvents events filterText ↔
           line ∈ events ∧ ∃ a b, line = a +:+ filterText +:+ b) ∧
  filterEvents events "" = events ∧
  (∀ other, filterEvents (filterEvents events filterText) other =
            filterEvents (filterEvents events other) filterText).
Proof.
  unfold filterEvents, matchesFilter. split; [apply sublist_filter|].
  split; [|split].
  - intros line. by rewrite list_elem_of_filter, Contains_spec, (comm and).
  - induction events as [|e events IH]; [done|].
    rewrite filter_cons, decide_True by apply Contains_empty. by f_equal.
  - intros other. induction events as [|e events IH]; [done|].
    rewrite !filter_cons.
    destruct (decide (Contains e filterText = true)), (decide (Contains e other = true));
      rewrite ?filter_cons, ?decide_True, ?decide_False by done; by f_equal.
Qed.

(** ** Lines that fit the width *)

Section wrap_bounds.
Context `{GoLib}.

Lemma flush_fits width st : fits width st → fits width (flush st).
Proof.
  destruct st as [lines current]. intros [Hl Hc]. unfold flush, fits.
  destruct (decide (current ≠ "")); simpl; [|done].
  split; [|pose proof (len_nonneg current); unfold len in *; simpl; lia].
  apply Forall_app. split; [done|]. by constructor.
Qed.

Lemma wrapWord_fits width st word :
  0 < width → fits width st → fits width (wrapWord width st word).
Proof.
  intros Hw Hst. unfold wrapWord.
  destruct (Z.ltb_spec width (len word)) as [Hlong|Hshort].
  - apply flush_fits in Hst. destruct (flush st) as [lines current].
    destruct Hst as [Hl _]. simpl in Hl.
    rewrite hardSplit_acc.
    pose proof (hardSplit_spec (String.length word) width word Hw (le_n _)) as Hs.
    destruct (hardSplit _ _ [] word) as [pieces rest].
    destruct Hs as (Hp & Hr & _). split; simpl; [|done].
    apply Forall_app. split; [done|].
    eapply Forall_impl; [exact Hp|]. simpl. intros; lia.
  - destruct st as [lines current]. destruct Hst as [Hl Hc]. simpl in *.
    destruct (decide (current = "")); [done|].
    destruct (Z.leb_spec (len (current +:+ " " +:+ word)) width); [done|].
    split; simpl; [|done]. apply Forall_app. split; [done|]. by constructor.
Qed.

Lemma wrapWords_fits width words st :
  0 < width → fits width st → fits width (fold_left (wrapWord width) words st).
Proof.
  intros Hw. revert st. induction words as [|w words IH]; intros st Hst; simpl; [done|].
  by apply IH, wrapWord_fits.
Qed.

Lemma wrapLine_fits text width :
  0 < width → Forall (fun line => len line <= width) (wrapLine text width).
Proof.
  intros Hw. unfold wrapLine.
  destruct (Z.leb_spec width 0); [lia|]. simpl.
  destruct (Z.leb_spec (len text) width); [by repeat constructor|].
  destruct (decide _); [repeat constructor; unfold len; simpl; lia|].
  assert (fits width ([], "")) as Hinit by (split; [constructor|unfold len; simpl; lia]).
  pose proof (flush_fits width _ (wrapWords_fits width (Fields text) _ Hw Hinit)) as Hf.
  destruct (flush _) as [lines current]. destruct Hf as [Hl _].
  destruct (decide _); [repeat constructor; unfold len; simpl; lia|done].
Qed.

Lemma wrapLine_nonempty text width : wrapLine text width ≠ [].
Proof.
  unfold wrapLine. destruct (_ || _); [done|].
  destruct (decide _); [done|]. destruct (flush _) as [lines current].
  destruct (decide _) as [|Hn]; [done|]. by destruct lines.
Qed.

(** X2 — word wrap stays within the width.  [wrapLine] and [wrapMessage]
    never return an empty list; for a width of 0 or less they return the
    text as it is; for a positive width no line they return is longer
    than the width, whatever [strings.Fields] and [strings.TrimSpace]
    do. *)
Theorem wrapMessage_fits (text : string) (width : Z) :
  wrapLine text width ≠ [] ∧ wrapMessage text width ≠ [] ∧
  (width <= 0 → wrapLine text width = [text] ∧ wrapMessage text width = [text]) ∧
  (0 < width →
   Forall (fun line => len line <= width) (wrapLine text width) ∧
   Forall (fun line => len line <= width) (wrapMessage text width)).
Proof.
  split; [apply wrapLine_nonempty|]. split; [|split].
  - pose proof (wrapMessage_nonempty text width) as Hn.
    destruct (wrapMessage text width); [simpl in Hn; lia|done].
  - intros Hw. unfold wrapLine, wrapMessage.
    destruct (Z.leb_spec width 0); [done|lia].
  - intros Hw. split; [by apply wrapLine_fits|].
    unfold wrapMessage. destruct (Z.leb_spec width 0); [lia|].
    assert (∀ paragraphs lines,
      Forall (fun line => len line <= width) lines →
      Forall (fun line => len line <= width)
        (fold_left (fun lines paragraph =>
                      let trimmed := TrimSpace paragraph in
                      if decide (trimmed = "") then lines ++ [""]
                      else lines ++ wrapLine trimmed width) paragraphs lines)) as Hfold.
    { induction paragraphs as [|p ps IH]; intros lines Hl; simpl; [done|].
      apply IH. destruct (decide _); apply Forall_app; split; try done.
      - repeat constructor. unfold len; simpl; lia.
      - by apply wrapLine_fits. }
    cbv zeta. destruct (decide _); [repeat constructor; unfold len; simpl; lia|].
    by apply Hfold.
Qed.
End wrap_bounds.

(** ** Groups and keys *)

Section aggregate_groups.
Context `{GoLib}.

Lemma groupStep_identity g line :
  namespace (groupStep (Some g) line) = namespace g ∧
  resource (groupStep (Some g) line) = resource g ∧
  reason (groupStep (Some g) line) = reason g.
Proof. unfold groupStep. simpl. by repeat case_match. Qed.

Lemma groupStep_new line :
  namespace (groupStep None line) = lineField 4 line ∧
  resource (groupStep None line) = lineField 1 line ∧
  reason (groupStep None line) = lineField 3 line.
Proof. unfold groupStep. simpl. by repeat case_match. Qed.

Lemma groupFold_some ls g :
  ∃ g', fold_left (fun og line => Some (groupStep og line)) ls (Some g) = Some g' ∧
        count g' = count g + Z.of_nat (length ls) ∧
        namespace g' = namespace g ∧ resource g' = resource g ∧ reason g' = reason g.
Proof.
  revert g. induction ls as [|l ls IH]; intros g; simpl.
  - exists g. repeat split; lia.
  - destruct (IH (groupStep (Some g) l)) as (g' & -> & Hc & Hn & Hr & Hre).
    exists g'. split; [done|].
    rewrite groupStep_count in Hc. simpl in Hc.
    destruct (groupStep_identity g l) as (? & ? & ?).
    repeat split; [lia|congruence..].
Qed.

Lemma aggregate_member events group :
  group ∈ aggregateSummary events ↔
  fold_left (fun og line => Some (groupStep og line))
    (contributing (groupKey group) events) None = Some group.
Proof.
  rewrite aggregateSummary_elem. unfold aggregateGroups.
  by rewrite aggregate_lookup, lookup_empty.
Qed.

(** X3 — the count and the identity of a group.  A group of the summary
    has at least one contributing line; its count is the number of
    contributing lines, and its namespace, resource and reason are
    those of the first of them. *)
Theorem aggregate_group_count (events : list string) (group : aggregatedEvent) :
  group ∈ aggregateSummary events →
  ∃ first rest,
    contributing (groupKey group) events = first :: rest ∧
    count group = Z.of_nat (length (first :: rest)) ∧
    namespace group = lineField 4 first ∧
    resource group = lineField 1 first ∧
    reason group = lineField 3 first.
Proof.
  intros Hg%aggregate_member.
  destruct (contributing (groupKey group) events) as [|first rest]; [done|].
  exists first, rest. split; [done|]. simpl in Hg.
  destruct (groupFold_some rest (groupStep None first)) as (g' & Hf & Hc & Hn & Hr & Hre).
  rewrite Hf in Hg. injection Hg as ->.
  rewrite groupStep_count in Hc. simpl in Hc.
  destruct (groupStep_new first) as (? & ? & ?).
  repeat split; [simpl length; lia|congruence..].
Qed.

Lemma aggregate_key_present events key :
  key ∈ groupKey <$> aggregateSummary events ↔ contributing key events ≠ [].
Proof.
  rewrite list_elem_of_fmap. split.
  - intros (g & -> & Hg). apply aggregate_member in Hg.
    by destruct (contributing (groupKey g) events).
  - intros Hne. destruct (contributing key events) as [|first rest] eqn:Hc; [done|].
    destruct (groupFold_some rest (groupStep None first)) as (g & Hf & _).
    assert (aggregateGroups events !! key = Some g) as Hk.
    { unfold aggregateGroups. by rewrite aggregate_lookup, lookup_empty, Hc. }
    assert (groupKey g = key) as Hgk.
    { apply (aggregate_keys events ∅); [|done].
      intros ?? Hl. by rewrite lookup_empty in Hl. }
    exists g. split; [done|]. apply aggregateSummary_elem. by rewrite Hgk.
Qed.

(** X4 — one output line per key.  The groups of the summary have
    pairwise distinct keys, a key has a group exactly when a well-formed
    input line has that key, and [aggregateEvents] returns as many lines
    as there are distinct keys among the well-formed input lines. *)
Theorem aggregate_one_line_per_key (events : list string) :
  NoDup (groupKey <$> aggregateSummary events) ∧
  (∀ key, key ∈ groupKey <$> aggregateSummary events ↔
          ∃ line, line ∈ events ∧ wellFormed line = true ∧ lineKey line = key) ∧
  length (aggregateEvents events) =
    length (remove_dups (lineKey <$> filter (fun line => wellFormed line = true) events)).
Proof.
  assert (∀ key, key ∈ groupKey <$> aggregateSummary events ↔
                 ∃ line, line ∈ events ∧ wellFormed line = true ∧ lineKey line = key) as Hkeys.
  { intros key. rewrite aggregate_key_present. unfold contributing. split.
    - intros Hne. destruct (filter _ events) as [|line rest] eqn:Hf; [done|].
      assert (line ∈ filter (fun line => wellFormed line = true ∧ lineKey line = key) events)
        as Hin by (rewrite Hf; left).
      apply list_elem_of_filter in Hin as [[Hw Hk] Hin]. by exists line.
    - intros (line & Hin & Hw & Hk) Hnil.
      assert (line ∈ filter (fun line => wellFormed line = true ∧ lineKey line = key) events)
        as Hf by (by apply list_elem_of_filter).
      rewrite Hnil in Hf. by apply elem_of_nil in Hf. }
  split; [apply aggregateSummary_keys|]. split; [done|].
  unfold aggregateEvents. rewrite length_fmap, <- (length_fmap groupKey).
  apply Permutation_length, NoDup_Permutation;
    [apply aggregateSummary_keys|apply NoDup_remove_dups|].
  intros key. rewrite Hkeys, elem_of_remove_dups, list_elem_of_fmap. split.
  - intros (line & Hin & Hw & Hk). exists line. split; [done|]. by apply list_elem_of_filter.
  - intros (line & -> & [Hw Hin]%list_elem_of_filter). by exists line.
Qed.

End aggregate_groups.

(** ** Fields of a line *)

Lemma HasPrefix_spaced a rest :
  HasPrefix a "│" = false → spaced rest → HasPrefix (a +:+ rest) "│" = false.
Proof.
  intros Ha Hrest.
  assert (HasPrefix rest "│" = false) as Hr by (by destruct Hrest as [->|[r ->]]).
  destruct a as [|c1 [|c2 [|c3 a]]].
  - by rewrite str_app_nil_l.
  - rewrite str_app_cons, str_app_nil_l. cbn [HasPrefix] in *.
    destruct Hrest as [->|[r ->]]; cbn; by rewrite ?andb_false_r.
  - rewrite !str_app_cons, str_app_nil_l. cbn [HasPrefix] in *.
    destruct Hrest as [->|[r ->]]; cbn; by rewrite ?andb_false_r.
  - by rewrite !str_app_cons.
Qed.

Lemma index_of_spaced a rest :
  clean a → spaced rest →
  index_of (a +:+ rest) "│" = (fun m => String.length a + m)%nat <$> index_of rest "│".
Proof.
  unfold clean. intros Ha Hrest. induction a as [|c a IH].
  - rewrite str_app_nil_l. by destruct (index_of rest "│").
  - cbn [index_of] in Ha. destruct (HasPrefix (String c a) "│") eqn:Hp; [done|].
    destruct (index_of a "│") eqn:Hi; [done|].
    rewrite str_app_cons. cbn [index_of].
    rewrite <- str_app_cons, (HasPrefix_spaced _ _ Hp Hrest).
    rewrite IH by done. by destruct (index_of rest "│").
Qed.

Lemma clean_spaces n : clean (repeat_byte n " ").
Proof. unfold clean. induction n as [|n IH]; [done|]. cbn [repeat_byte index_of]. by rewrite IH. Qed.

Lemma spaced_spaces n : spaced (repeat_byte n " ").
Proof. destruct n; [by left|right; by eexists]. Qed.

Lemma clean_padRight `{GoLib} n field : clean field → clean (padRight n field).
Proof.
  intros Hf. unfold clean, padRight.
  rewrite index_of_spaced by (done || apply spaced_spaces).
  by rewrite clean_spaces.
Qed.

Lemma clean_space field : clean field → clean (" " +:+ field).
Proof. unfold clean. intros Hf. rewrite str_app_cons, str_app_nil_l. cbn [index_of]. by rewrite Hf. Qed.

Lemma slice_to_app a b : slice_to (String.length a) (a +:+ b) = a.
Proof. induction a; [by destruct b|]. rewrite str_app_cons. simpl. by f_equal. Qed.

Lemma slice_from_app a b : slice_from (String.length a) (a +:+ b) = b.
Proof. induction a; [done|]. by rewrite str_app_cons. Qed.

Lemma splitn_step n s sep :
  splitn (S (S n)) s sep =
  match index_of s sep with
  | None => [s]
  | Some m => slice_to m s :: splitn (S n) (slice_from (m + String.length sep) s) sep
  end.
Proof. reflexivity. Qed.

(** Splitting at the separator that follows a clean field. *)
Lemma splitn_column n field rest :
  clean field →
  splitn (S (S n)) (field +:+ " │ " +:+ rest) "│" =
  (field +:+ " ") :: splitn (S n) (" " +:+ rest) "│".
Proof.
  intros Hf. rewrite splitn_step.
  rewrite index_of_spaced by (done || right; by eexists).
  change (index_of (" │ " +:+ rest) "│") with (Some 1%nat). cbn [fmap option_fmap option_map].
  change (String.length "│") with 3%nat.
  f_equal.
  - replace (field +:+ " │ " +:+ rest) with ((field +:+ " ") +:+ ("│ " +:+ rest))
      by (by rewrite str_app_assoc).
    replace (String.length field + 1)%nat with (String.length (field +:+ " "))
      by (by rewrite str_length_app).
    apply slice_to_app.
  - f_equal; [].
    replace (field +:+ " │ " +:+ rest) with ((field +:+ " │") +:+ (" " +:+ rest))
      by (by rewrite str_app_assoc).
    replace (String.length field + 1 + 3)%nat with (String.length (field +:+ " │"))
      by (rewrite str_length_app; simpl; lia).
    apply slice_from_app.
Qed.

Section line_fields.
Context `{GoLib}.

Lemma layout_separated f0 f1 f2 f3 f4 tail : separated 5 (layout f0 f1 f2 f3 f4 tail).
Proof. unfold layout. by repeat apply separated_column. Qed.

Lemma layout_wellFormed f0 f1 f2 f3 f4 tail : wellFormed (layout f0 f1 f2 f3 f4 tail) = true.
Proof.
  unfold wellFormed. apply bool_decide_eq_true.
  apply (splitn_separated 5), layout_separated.
Qed.

Lemma layout_fields f0 f1 f2 f3 f4 tail :
  clean f0 → clean f1 → clean f2 → clean f3 → clean f4 →
  SplitN (layout f0 f1 f2 f3 f4 tail) "│" 6 =
  [padRight 25 f0 +:+ " "; " " +:+ padRight 60 f1 +:+ " "; " " +:+ padRight 10 f2 +:+ " ";
   " " +:+ padRight 20 f3 +:+ " "; " " +:+ padRight 10 f4 +:+ " "; " " +:+ tail].
Proof.
  intros H0 H1 H2 H3 H4. unfold SplitN, layout.
  change (6 <? 0) with false. change (Z.to_nat 6) with 6%nat. cbv iota.
  rewrite splitn_column by (by apply clean_padRight).
  rewrite <- (str_app_assoc " "), splitn_column by (by apply clean_space, clean_padRight).
  rewrite <- (str_app_assoc " "), splitn_column by (by apply clean_space, clean_padRight).
  rewrite <- (str_app_assoc " "), splitn_column by (by apply clean_space, clean_padRight).
  rewrite <- (str_app_assoc " "), splitn_column by (by apply clean_space, clean_padRight).
  by rewrite !str_app_assoc.
Qed.

Lemma eventLine_layout event :
  TUI.eventLine event =
  layout (FormatRFC3339 (TUI.LastTimestamp event))
         (TUI.InvolvedKind event +:+ "/" +:+ TUI.InvolvedName event)
         (TUI.EventType event) (TUI.EventReason event) (TUI.EventNamespace event)
         (TUI.EventMessage event +:+ newline).
Proof. reflexivity. Qed.

Lemma formatGroup_layout group :
  formatGroup group =
  layout (if IsZero (lastSeen group) then "-" else FormatRFC3339 (lastSeen group))
         (resource group) (Itoa (count group)) (reason group) (namespace group)
         (lastMessage group).
Proof. reflexivity. Qed.

End line_fields.

Lemma plain_clean s : plain s → clean s.
Proof.
  unfold clean. induction s as [|c s IH]; [done|]. intros [Hc Hs].
  cbn [index_of]. rewrite (IH Hs).
  assert (HasPrefix (String c s) "│" = false) as ->; [|done].
  cbn [HasPrefix]. apply andb_false_intro1. apply Ascii.eqb_neq. intros <-.
  vm_compute in Hc. lia.
Qed.

Lemma digit_plain d : 0 <= d < 10 → (nat_of_ascii (digit d) < 128)%nat.
Proof.
  intros Hd. unfold digit.
  assert (Z.to_nat d < 10)%nat as Hn by lia.
  rewrite nat_ascii_embedding by lia. lia.
Qed.

Lemma digits_plain fuel n acc : plain acc → plain (digits fuel n acc).
Proof.
  revert n acc. induction fuel as [|fuel IH]; intros n acc Hacc; [done|].
  cbn [digits].
  assert (plain (String (digit (n mod 10)) acc)) as Hacc'.
  { split; [|done]. apply digit_plain. apply Z.mod_pos_bound. lia. }
  destruct (n <? 10); [done|]. by apply IH.
Qed.

Lemma Itoa_clean n : clean (Itoa n).
Proof.
  apply plain_clean. unfold Itoa. destruct (n <? 0).
  - split; [vm_compute; lia|]. by apply digits_plain.
  - by apply digits_plain.
Qed.

Section line_theorems.
Context `{GoLib}.

(** X5 — the fields of an event line.  The line the event handler
    builds always splits into six fields; when the timestamp, the
    resource, the type, the reason and the namespace hold no separator,
    the six fields are these five, padded and with a space on either
    side, and the message with the newline, however many separators
    the message holds. *)
Theorem eventLine_fields (event : TUI.Event) :
  wellFormed (TUI.eventLine event) = true ∧
  (clean (FormatRFC3339 (TUI.LastTimestamp event)) →
   clean (TUI.InvolvedKind event +:+ "/" +:+ TUI.InvolvedName event) →
   clean (TUI.EventType event) → clean (TUI.EventReason event) →
   clean (TUI.EventNamespace event) →
   SplitN (TUI.eventLine event) "│" 6 =
   [padRight 25 (FormatRFC3339 (TUI.LastTimestamp event)) +:+ " ";
    " " +:+ padRight 60 (TUI.InvolvedKind event +:+ "/" +:+ TUI.InvolvedName event) +:+ " ";
    " " +:+ padRight 10 (TUI.EventType event) +:+ " ";
    " " +:+ padRight 20 (TUI.EventReason event) +:+ " ";
    " " +:+ padRight 10 (TUI.EventNamespace event) +:+ " ";
    " " +:+ TUI.EventMessage event +:+ newline]).
Proof.
  rewrite eventLine_layout. split; [apply layout_wellFormed|].
  intros. by apply layout_fields.
Qed.

(** X6 — the lines of the aggregated view.  Every line
    [aggregateEvents] returns splits into six fields, so the table
    renders each of them; when the last-seen text, the resource, the
    reason and the namespace of a group hold no separator, the fields
    of its line are these, the count in decimal in the third place and
    the last message in the sixth. *)
Theorem aggregateEvents_fields (events : list string) :
  logInv (aggregateEvents events) ∧
  (∀ group,
     clean (if IsZero (lastSeen group) then "-" else FormatRFC3339 (lastSeen group)) →
     clean (resource group) → clean (reason group) → clean (namespace group) →
     SplitN (formatGroup group) "│" 6 =
     [padRight 25 (if IsZero (lastSeen group) then "-" else FormatRFC3339 (lastSeen group))
        +:+ " ";
      " " +:+ padRight 60 (resource group) +:+ " ";
      " " +:+ padRight 10 (Itoa (count group)) +:+ " ";
      " " +:+ padRight 20 (reason group) +:+ " ";
      " " +:+ padRight 10 (namespace group) +:+ " ";
      " " +:+ lastMessage group]).
Proof.
  split.
  - unfold logInv, aggregateEvents. apply Forall_fmap, Forall_forall.
    intros group _. simpl. rewrite formatGroup_layout. apply layout_wellFormed.
  - intros group H0 H1 H3 H4. rewrite formatGroup_layout.
    apply layout_fields; try done. apply Itoa_clean.
Qed.

End line_theorems.

(** ** The cells of the rendered table *)

Section cells.
Context `{GoLib}.

Lemma SetCell_fresh t row c :
  row = length (tableCells t) →
  tableCells (SetCell row 0 c t) = tableCells t ++ [[c]].
Proof.
  intros ->. unfold SetCell, store. cbn [tableCells].
  replace (S (length (tableCells t)) - length (tableCells t))%nat with 1%nat by lia.
  cbn [replicate].
  rewrite lookup_app_r, Nat.sub_diag by lia. cbn [lookup list_lookup default length].
  rewrite insert_app_r_alt, Nat.sub_diag by lia. done.
Qed.

Lemma SetCell_last t rows r row col c :
  tableCells t = rows ++ [r] → row = length rows → col = length r →
  tableCells (SetCell row col c t) = rows ++ [r ++ [c]].
Proof.
  intros Ht -> ->. unfold SetCell, store. cbn [tableCells]. rewrite Ht.
  rewrite length_app. cbn [length].
  replace (S (length rows) - (length rows + 1))%nat with 0%nat by lia.
  cbn [replicate]. rewrite app_nil_r.
  rewrite (list_lookup_middle rows [] r (length rows) eq_refl). cbn [default id].
  replace (S (length r) - length r)%nat with 1%nat by lia. cbn [replicate].
  rewrite (insert_app_r_alt r), Nat.sub_diag by lia. cbn [insert list_insert].
  rewrite (insert_app_r_alt rows), Nat.sub_diag by lia. done.
Qed.

(** Solve [tableCells (SetCell .. (SetCell .. t)) = ?cells] for the cells
    written one after the other into a new row. *)
Ltac row_cells :=
  first [ apply SetCell_fresh; reflexivity
        | eapply SetCell_last; [row_cells | reflexivity | reflexivity] ].

Lemma renderRow_cells t row parts opts :
  row = length (tableCells t) →
  tableCells (renderRow t row parts opts) = tableCells t ++ [rowCells opts parts].
Proof.
  intros ->. unfold renderRow, rowCells, textCell, SetExpansion, NewTableCell.
  destruct (Timestamp opts), (Namespace opts), (Status opts), (Action opts), (Resource opts);
    cbv beta iota zeta; cbn [Text]; (etransitivity; [row_cells|reflexivity]).
Qed.

Lemma renderTableHeader_cells t opts :
  tableCells t = [] →
  tableCells (renderTableHeader t opts) = [headerCells opts].
Proof.
  destruct t as [title cells sel track width]. cbn [tableCells]. intros ->.
  unfold renderTableHeader, headerCells, textCell, SetExpansion, NewTableCell.
  destruct (Timestamp opts), (Namespace opts), (Status opts), (Action opts), (Resource opts);
    cbv beta iota zeta; cbn [Text].
  all: etransitivity; [row_cells|reflexivity].
Qed.

Lemma continuations_cells opts eventIdx conts table row rowToEvent :
  row = length (tableCells table) →
  tableCells
    (fold_left (fun '(table, row, rowToEvent) cont =>
                  (renderRow table row [""; ""; ""; ""; ""; cont] opts, S row,
                   rowToEvent ++ [Z.of_nat eventIdx]))
               conts (table, row, rowToEvent)).1.1 =
  tableCells table ++ ((fun cont => rowCells opts [""; ""; ""; ""; ""; cont]) <$> conts).
Proof.
  revert table row rowToEvent.
  induction conts as [|cont conts IH]; intros table row rowToEvent Hrow; simpl.
  - by rewrite app_nil_r.
  - rewrite IH.
    + rewrite renderRow_cells by done. by rewrite <- app_assoc.
    + rewrite renderRow_cells by done. rewrite length_app. simpl. lia.
Qed.

Lemma renderLine_cells opts wrapMessages msgWidth table row rowToEvent eventIdx line :
  row = length (tableCells table) →
  tableCells (renderLine opts wrapMessages msgWidth (table, row, rowToEvent) eventIdx line).1.1 =
  tableCells table ++ lineRows opts wrapMessages msgWidth line.
Proof.
  intros Hrow. unfold lineRows.
  destruct (wellFormed line) eqn:Hw; cbn [negb].
  2:{ rewrite renderLine_malformed by done. simpl. by rewrite app_nil_r. }
  unfold renderLine. unfold wellFormed in Hw. apply bool_decide_eq_true in Hw.
  rewrite decide_True by done.
  destruct wrapMessages; cbn [negb].
  - pose proof (wrapMessage_nonempty (TrimSpace (part (SplitN line "│" 6) 5)) msgWidth) as Hne.
    cbv zeta. rewrite decide_False by lia.
    rewrite continuations_cells.
    + rewrite renderRow_cells by done. by rewrite <- app_assoc.
    + rewrite renderRow_cells by done. rewrite length_app. simpl. lia.
  - simpl. by rewrite renderRow_cells.
Qed.

Lemma renderLines_cells opts wrapMessages msgWidth eventIdx lines table row rowToEvent :
  row = length (tableCells table) →
  tableCells (renderLines opts wrapMessages msgWidth eventIdx lines
                (table, row, rowToEvent)).1.1 =
  tableCells table ++ flat_map (lineRows opts wrapMessages msgWidth) lines.
Proof.
  revert eventIdx table row rowToEvent.
  induction lines as [|line lines IH]; intros eventIdx table row rowToEvent Hrow;
    cbn [renderLines flat_map].
  - by rewrite app_nil_r.
  - pose proof (renderLine_cells opts wrapMessages msgWidth table row rowToEvent
                  eventIdx line Hrow) as Hc.
    destruct (renderLine_rows opts wrapMessages msgWidth table row rowToEvent eventIdx line)
      as (table1 & Heq & Hlen1).
    rewrite Heq in Hc |- *. simpl in Hc.
    rewrite IH by (symmetry; by apply Hlen1).
    by rewrite Hc, <- app_assoc.
Qed.

(** X7 — the rendered table.  After [renderTable] the table holds the
    header row and, for every well-formed line of the filtered list in
    order, its rows: the enabled columns in the order time, namespace,
    status, action, resource, then the message; with wrapping, one row
    per wrapped line of the message, the other columns empty after the
    first.  Every row has one cell per enabled column and one for the
    message, so the columns line up with the header. *)
Theorem renderTable_cells (table : Table) (events : list string) (filterText : string)
    (opts : ColumnOptions) (wrapMessages : bool) (tableWidth : Z) :
  let rows := tableCells (renderTable table events filterText opts wrapMessages tableWidth).1 in
  rows = headerCells opts ::
         flat_map (lineRows opts wrapMessages (messageColumnWidth tableWidth opts))
                  (filterEvents events filterText) ∧
  Forall (fun row => length row = S (length (columnWeights opts))) rows.
Proof.
  intros rows.
  assert (rows = headerCells opts ::
            flat_map (lineRows opts wrapMessages (messageColumnWidth tableWidth opts))
                     (filterEvents events filterText)) as Hrows.
  { subst rows. unfold renderTable, renderTableContent.
    pose proof (renderLines_cells opts wrapMessages (messageColumnWidth tableWidth opts) 0
                  (filterEvents events filterText) (renderTableHeader (Clear table) opts)
                  1 []) as Hc.
    destruct (renderLines _ _ _ _ _ _) as [[table' row'] rowToEvent]. simpl in *.
    rewrite Hc by (by rewrite renderTableHeader_cells).
    by rewrite renderTableHeader_cells. }
  split; [done|]. rewrite Hrows.
  assert (∀ parts, length (rowCells opts parts) = S (length (columnWeights opts))) as Hrow.
  { intros parts. unfold rowCells, columnWeights.
    by destruct (Timestamp opts), (Namespace opts), (Status opts), (Action opts),
         (Resource opts). }
  constructor.
  - unfold headerCells, columnWeights.
    by destruct (Timestamp opts), (Namespace opts), (Status opts), (Action opts),
         (Resource opts).
  - apply Forall_flat_map, Forall_forall. intros line _. unfold lineRows.
    destruct (negb (wellFormed line)); [constructor|].
    destruct (negb wrapMessages); [by repeat constructor|].
    constructor; [done|]. apply Forall_fmap, Forall_forall. intros cont _. apply Hrow.
Qed.

End cells.


(** ** The view of the update loop *)

Module TUIViewProofs.
Import TUI TUIView.

Create Rewrite HintDb view_fields.

Lemma table_set_filterText v st : table (set_filterText v st) = table st.
Proof. reflexivity. Qed.
Lemma table_set_allEvents v st : table (set_allEvents v st) = table st.
Proof. reflexivity. Qed.
Lemma table_set_visibleEvents v st : table (set_visibleEvents v st) = table st.
Proof. reflexivity. Qed.
Lemma table_set_rowToVisibleEvent v st : table (set_rowToVisibleEvent v st) = table st.
Proof. reflexivity. Qed.
Lemma table_set_recentNamespaces v st : table (set_recentNamespaces v st) = table st.
Proof. reflexivity. Qed.
Lemma table_set_watchCancel v st : table (set_watchCancel v st) = table st.
Proof. reflexivity. Qed.
Lemma table_set_watchGeneration v st : table (set_watchGeneration v st) = table st.
Proof. reflexivity. Qed.
Lemma table_set_namespace v st : table (set_namespace v st) = table st.
Proof. reflexivity. Qed.
Lemma table_set_showTimestampColumn v st : table (set_showTimestampColumn v st) = table st.
Proof. reflexivity. Qed.
Lemma table_set_autoScroll v st : table (set_autoScroll v st) = table st.
Proof. reflexivity. Qed.
Lemma table_set_showNamespaceColumn v st : table (set_showNamespaceColumn v st) = table st.
Proof. reflexivity. Qed.
Lemma table_set_showStatusColumn v st : table (set_showStatusColumn v st) = table st.
Proof. reflexivity. Qed.
Lemma table_set_showActionColumn v st : table (set_showActionColumn v st) = table st.
Proof. reflexivity. Qed.
Lemma table_set_showResourceColumn v st : table (set_showResourceColumn v st) = table st.
Proof. reflexivity. Qed.
Lemma table_set_aggregateMode v st : table (set_aggregateMode v st) = table st.
Proof. reflexivity. Qed.
Lemma table_set_wrapMessages v st : table (set_wrapMessages v st) = table st.
Proof. reflexivity. Qed.
Lemma table_set_filterVisible v st : table (set_filterVisible v st) = table st.
Proof. reflexivity. Qed.
Lemma table_set_table v st : table (set_table v st) = v.
Proof. reflexivity. Qed.
Lemma table_set_recentNSBox v st : table (set_recentNSBox v st) = table st.
Proof. reflexivity. Qed.
Lemma table_set_infoView v st : table (set_infoView v st) = table st.
Proof. reflexivity. Qed.
Lemma table_set_filter v st : table (set_filter v st) = table st.
Proof. reflexivity. Qed.
Lemma table_set_cancelled v st : table (set_cancelled v st) = table st.
Proof. reflexivity. Qed.
Lemma table_set_started v st : table (set_started v st) = table st.
Proof. reflexivity. Qed.
Hint Rewrite
  table_set_filterText table_set_allEvents table_set_visibleEvents table_set_rowToVisibleEvent
  table_set_recentNamespaces table_set_watchCancel table_set_watchGeneration table_set_namespace
  table_set_showTimestampColumn table_set_autoScroll table_set_showNamespaceColumn table_set_showStatusColumn
  table_set_showActionColumn table_set_showResourceColumn table_set_aggregateMode table_set_wrapMessages
  table_set_filterVisible table_set_table table_set_recentNSBox table_set_infoView
  table_set_filter table_set_cancelled table_set_started : view_fields.

Lemma visible_set_filterText v st : visibleEvents (set_filterText v st) = visibleEvents st.
Proof. reflexivity. Qed.
Lemma visible_set_allEvents v st : visibleEvents (set_allEvents v st) = visibleEvents st.
Proof. reflexivity. Qed.
Lemma visible_set_visibleEvents v st : visibleEvents (set_visibleEvents v st) = v.
Proof. reflexivity. Qed.
Lemma visible_set_rowToVisibleEvent v st : visibleEvents (set_rowToVisibleEvent v st) = visibleEvents st.
Proof. reflexivity. Qed.
Lemma visible_set_recentNamespaces v st : visibleEvents (set_recentNamespaces v st) = visibleEvents st.
Proof. reflexivity. Qed.
Lemma visible_set_watchCancel v st : visibleEvents (set_watchCancel v st) = visibleEvents st.
Proof. reflexivity. Qed.
Lemma visible_set_watchGeneration v st : visibleEvents (set_watchGeneration v st) = visibleEvents st.
Proof. reflexivity. Qed.
Lemma visible_set_namespace v st : visibleEvents (set_namespace v st) = visibleEvents st.
Proof. reflexivity. Qed.
Lemma visible_set_showTimestampColumn v st : visibleEvents (set_showTimestampColumn v st) = visibleEvents st.
Proof. reflexivity. Qed.
Lemma visible_set_autoScroll v st : visibleEvents (set_autoScroll v st) = visibleEvents st.
Proof. reflexivity. Qed.
Lemma visible_set_showNamespaceColumn v st : visibleEvents (set_showNamespaceColumn v st) = visibleEvents st.
Proof. reflexivity. Qed.
Lemma visible_set_showStatusColumn v st : visibleEvents (set_showStatusColumn v st) = visibleEvents st.
Proof. reflexivity. Qed.
Lemma visible_set_showActionColumn v st : visibleEvents (set_showActionColumn v st) = visibleEvents st.
Proof. reflexivity. Qed.
Lemma visible_set_showResourceColumn v st : visibleEvents (set_showResourceColumn v st) = visibleEvents st.
Proof. reflexivity. Qed.
Lemma visible_set_aggregateMode v st : visibleEvents (set_aggregateMode v st) = visibleEvents st.
Proof. reflexivity. Qed.
Lemma visible_set_wrapMessages v st : visibleEvents (set_wrapMessages v st) = visibleEvents st.
Proof. reflexivity. Qed.
Lemma visible_set_filterVisible v st : visibleEvents (set_filterVisible v st) = visibleEvents st.
Proof. reflexivity. Qed.
Lemma visible_set_table v st : visibleEvents (set_table v st) = visibleEvents st.
Proof. reflexivity. Qed.
Lemma visible_set_recentNSBox v st : visibleEvents (set_recentNSBox v st) = visibleEvents st.
Proof. reflexivity. Qed.
Lemma visible_set_infoView v st : visibleEvents (set_infoView v st) = visibleEvents st.
Proof. reflexivity. Qed.
Lemma visible_set_filter v st : visibleEvents (set_filter v st) = visibleEvents st.
Proof. reflexivity. Qed.
Lemma visible_set_cancelled v st : visibleEvents (set_cancelled v st) = visibleEvents st.
Proof. reflexivity. Qed.
Lemma visible_set_started v st : visibleEvents (set_started v st) = visibleEvents st.
Proof. reflexivity. Qed.
Hint Rewrite
  visible_set_filterText visible_set_allEvents visible_set_visibleEvents visible_set_rowToVisibleEvent
  visible_set_recentNamespaces visible_set_watchCancel visible_set_watchGeneration visible_set_namespace
  visible_set_showTimestampColumn visible_set_autoScroll visible_set_showNamespaceColumn visible_set_showStatusColumn
  visible_set_showActionColumn visible_set_showResourceColumn visible_set_aggregateMode visible_set_wrapMessages
  visible_set_filterVisible visible_set_table visible_set_recentNSBox visible_set_infoView
  visible_set_filter visible_set_cancelled visible_set_started : view_fields.

Lemma rows_set_filterText v st : rowToVisibleEvent (set_filterText v st) = rowToVisibleEvent st.
Proof. reflexivity. Qed.
Lemma rows_set_allEvents v st : rowToVisibleEvent (set_allEvents v st) = rowToVisibleEvent st.
Proof. reflexivity. Qed.
Lemma rows_set_visibleEvents v st : rowToVisibleEvent (set_visibleEvents v st) = rowToVisibleEvent st.
Proof. reflexivity. Qed.
Lemma rows_set_rowToVisibleEvent v st : rowToVisibleEvent (set_rowToVisibleEvent v st) = v.
Proof. reflexivity. Qed.
Lemma rows_set_recentNamespaces v st : rowToVisibleEvent (set_recentNamespaces v st) = rowToVisibleEvent st.
Proof. reflexivity. Qed.
Lemma rows_set_watchCancel v st : rowToVisibleEvent (set_watchCancel v st) = rowToVisibleEvent st.
Proof. reflexivity. Qed.
Lemma rows_set_watchGeneration v st : rowToVisibleEvent (set_watchGeneration v st) = rowToVisibleEvent st.
Proof. reflexivity. Qed.
Lemma rows_set_namespace v st : rowToVisibleEvent (set_namespace v st) = rowToVisibleEvent st.
Proof. reflexivity. Qed.
Lemma rows_set_showTimestampColumn v st : rowToVisibleEvent (set_showTimestampColumn v st) = rowToVisibleEvent st.
Proof. reflexivity. Qed.
Lemma rows_set_autoScroll v st : rowToVisibleEvent (set_autoScroll v st) = rowToVisibleEvent st.
Proof. reflexivity. Qed.
Lemma rows_set_showNamespaceColumn v st : rowToVisibleEvent (set_showNamespaceColumn v st) = rowToVisibleEvent st.
Proof. reflexivity. Qed.
Lemma rows_set_showStatusColumn v st : rowToVisibleEvent (set_showStatusColumn v st) = rowToVisibleEvent st.
Proof. reflexivity. Qed.
Lemma rows_set_showActionColumn v st : rowToVisibleEvent (set_showActionColumn v st) = rowToVisibleEvent st.
Proof. reflexivity. Qed.
Lemma rows_set_showResourceColumn v st : rowToVisibleEvent (set_showResourceColumn v st) = rowToVisibleEvent st.
Proof. reflexivity. Qed.
Lemma rows_set_aggregateMode v st : rowToVisibleEvent (set_aggregateMode v st) = rowToVisibleEvent st.
Proof. reflexivity. Qed.
Lemma rows_set_wrapMessages v st : rowToVisibleEvent (set_wrapMessages v st) = rowToVisibleEvent st.
Proof. reflexivity. Qed.
Lemma rows_set_filterVisible v st : rowToVisibleEvent (set_filterVisible v st) = rowToVisibleEvent st.
Proof. reflexivity. Qed.
Lemma rows_set_table v st : rowToVisibleEvent (set_table v st) = rowToVisibleEvent st.
Proof. reflexivity. Qed.
Lemma rows_set_recentNSBox v st : rowToVisibleEvent (set_recentNSBox v st) = rowToVisibleEvent st.
Proof. reflexivity. Qed.
Lemma rows_set_infoView v st : rowToVisibleEvent (set_infoView v st) = rowToVisibleEvent st.
Proof. reflexivity. Qed.
Lemma rows_set_filter v st : rowToVisibleEvent (set_filter v st) = rowToVisibleEvent st.
Proof. reflexivity. Qed.
Lemma rows_set_cancelled v st : rowToVisibleEvent (set_cancelled v st) = rowToVisibleEvent st.
Proof. reflexivity. Qed.
Lemma rows_set_started v st : rowToVisibleEvent (set_started v st) = rowToVisibleEvent st.
Proof. reflexivity. Qed.
Hint Rewrite
  rows_set_filterText rows_set_allEvents rows_set_visibleEvents rows_set_rowToVisibleEvent
  rows_set_recentNamespaces rows_set_watchCancel rows_set_watchGeneration rows_set_namespace
  rows_set_showTimestampColumn rows_set_autoScroll rows_set_showNamespaceColumn rows_set_showStatusColumn
  rows_set_showActionColumn rows_set_showResourceColumn rows_set_aggregateMode rows_set_wrapMessages
  rows_set_filterVisible rows_set_table rows_set_recentNSBox rows_set_infoView
  rows_set_filter rows_set_cancelled rows_set_started : view_fields.

Lemma wrap_set_filterText v st : wrapMessages (set_filterText v st) = wrapMessages st.
Proof. reflexivity. Qed.
Lemma wrap_set_allEvents v st : wrapMessages (set_allEvents v st) = wrapMessages st.
Proof. reflexivity. Qed.
Lemma wrap_set_visibleEvents v st : wrapMessages (set_visibleEvents v st) = wrapMessages st.
Proof. reflexivity. Qed.
Lemma wrap_set_rowToVisibleEvent v st : wrapMessages (set_rowToVisibleEvent v st) = wrapMessages st.
Proof. reflexivity. Qed.
Lemma wrap_set_recentNamespaces v st : wrapMessages (set_recentNamespaces v st) = wrapMessages st.
Proof. reflexivity. Qed.
Lemma wrap_set_watchCancel v st : wrapMessages (set_watchCancel v st) = wrapMessages st.
Proof. reflexivity. Qed.
Lemma wrap_set_watchGeneration v st : wrapMessages (set_watchGeneration v st) = wrapMessages st.
Proof. reflexivity. Qed.
Lemma wrap_set_namespace v st : wrapMessages (set_namespace v st) = wrapMessages st.
Proof. reflexivity. Qed.
Lemma wrap_set_showTimestampColumn v st : wrapMessages (set_showTimestampColumn v st) = wrapMessages st.
Proof. reflexivity. Qed.
Lemma wrap_set_autoScroll v st : wrapMessages (set_autoScroll v st) = wrapMessages st.
Proof. reflexivity. Qed.
Lemma wrap_set_showNamespaceColumn v st : wrapMessages (set_showNamespaceColumn v st) = wrapMessages st.
Proof. reflexivity. Qed.
Lemma wrap_set_showStatusColumn v st : wrapMessages (set_showStatusColumn v st) = wrapMessages st.
Proof. reflexivity. Qed.
Lemma wrap_set_showActionColumn v st : wrapMessages (set_showActionColumn v st) = wrapMessages st.
Proof. reflexivity. Qed.
Lemma wrap_set_showResourceColumn v st : wrapMessages (set_showResourceColumn v st) = wrapMessages st.
Proof. reflexivity. Qed.
Lemma wrap_set_aggregateMode v st : wrapMessages (set_aggregateMode v st) = wrapMessages st.
Proof. reflexivity. Qed.
Lemma wrap_set_wrapMessages v st : wrapMessages (set_wrapMessages v st) = v.
Proof. reflexivity. Qed.
Lemma wrap_set_filterVisible v st : wrapMessages (set_filterVisible v st) = wrapMessages st.
Proof. reflexivity. Qed.
Lemma wrap_set_table v st : wrapMessages (set_table v st) = wrapMessages st.
Proof. reflexivity. Qed.
Lemma wrap_set_recentNSBox v st : wrapMessages (set_recentNSBox v st) = wrapMessages st.
Proof. reflexivity. Qed.
Lemma wrap_set_infoView v st : wrapMessages (set_infoView v st) = wrapMessages st.
Proof. reflexivity. Qed.
Lemma wrap_set_filter v st : wrapMessages (set_filter v st) = wrapMessages st.
Proof. reflexivity. Qed.
Lemma wrap_set_cancelled v st : wrapMessages (set_cancelled v st) = wrapMessages st.
Proof. reflexivity. Qed.
Lemma wrap_set_started v st : wrapMessages (set_started v st) = wrapMessages st.
Proof. reflexivity. Qed.
Hint Rewrite
  wrap_set_filterText wrap_set_allEvents wrap_set_visibleEvents wrap_set_rowToVisibleEvent
  wrap_set_recentNamespaces wrap_set_watchCancel wrap_set_watchGeneration wrap_set_namespace
  wrap_set_showTimestampColumn wrap_set_autoScroll wrap_set_showNamespaceColumn wrap_set_showStatusColumn
  wrap_set_showActionColumn wrap_set_showResourceColumn wrap_set_aggregateMode wrap_set_wrapMessages
  wrap_set_filterVisible wrap_set_table wrap_set_recentNSBox wrap_set_infoView
  wrap_set_filter wrap_set_cancelled wrap_set_started : view_fields.

Lemma columns_set_filterText v st : currentColumns (set_filterText v st) = currentColumns st.
Proof. reflexivity. Qed.
Lemma columns_set_allEvents v st : currentColumns (set_allEvents v st) = currentColumns st.
Proof. reflexivity. Qed.
Lemma columns_set_visibleEvents v st : currentColumns (set_visibleEvents v st) = currentColumns st.
Proof. reflexivity. Qed.
Lemma columns_set_rowToVisibleEvent v st : currentColumns (set_rowToVisibleEvent v st) = currentColumns st.
Proof. reflexivity. Qed.
Lemma columns_set_recentNamespaces v st : currentColumns (set_recentNamespaces v st) = currentColumns st.
Proof. reflexivity. Qed.
Lemma columns_set_watchCancel v st : currentColumns (set_watchCancel v st) = currentColumns st.
Proof. reflexivity. Qed.
Lemma columns_set_watchGeneration v st : currentColumns (set_watchGeneration v st) = currentColumns st.
Proof. reflexivity. Qed.
Lemma columns_set_namespace v st : currentColumns (set_namespace v st) = currentColumns st.
Proof. reflexivity. Qed.
Lemma columns_set_showTimestampColumn v st : currentColumns (set_showTimestampColumn v st) = mkColumnOptions v (showNamespaceColumn st) (showStatusColumn st) (showActionColumn st) (showResourceColumn st) (aggregateMode st).
Proof. reflexivity. Qed.
Lemma columns_set_autoScroll v st : currentColumns (set_autoScroll v st) = currentColumns st.
Proof. reflexivity. Qed.
Lemma columns_set_showNamespaceColumn v st : currentColumns (set_showNamespaceColumn v st) = mkColumnOptions (showTimestampColumn st) v (showStatusColumn st) (showActionColumn st) (showResourceColumn st) (aggregateMode st).
Proof. reflexivity. Qed.
Lemma columns_set_showStatusColumn v st : currentColumns (set_showStatusColumn v st) = mkColumnOptions (showTimestampColumn st) (showNamespaceColumn st) v (showActionColumn st) (showResourceColumn st) (aggregateMode st).
Proof. reflexivity. Qed.
Lemma columns_set_showActionColumn v st : currentColumns (set_showActionColumn v st) = mkColumnOptions (showTimestampColumn st) (showNamespaceColumn st) (showStatusColumn st) v (showResourceColumn st) (aggregateMode st).
Proof. reflexivity. Qed.
Lemma columns_set_showResourceColumn v st : currentColumns (set_showResourceColumn v st) = mkColumnOptions (showTimestampColumn st) (showNamespaceColumn st) (showStatusColumn st) (showActionColumn st) v (aggregateMode st).
Proof. reflexivity. Qed.
Lemma columns_set_aggregateMode v st : currentColumns (set_aggregateMode v st) = mkColumnOptions (showTimestampColumn st) (showNamespaceColumn st) (showStatusColumn st) (showActionColumn st) (showResourceColumn st) v.
Proof. reflexivity. Qed.
Lemma columns_set_wrapMessages v st : currentColumns (set_wrapMessages v st) = currentColumns st.
Proof. reflexivity. Qed.
Lemma columns_set_filterVisible v st : currentColumns (set_filterVisible v st) = currentColumns st.
Proof. reflexivity. Qed.
Lemma columns_set_table v st : currentColumns (set_table v st) = currentColumns st.
Proof. reflexivity. Qed.
Lemma columns_set_recentNSBox v st : currentColumns (set_recentNSBox v st) = currentColumns st.
Proof. reflexivity. Qed.
Lemma columns_set_infoView v st : currentColumns (set_infoView v st) = currentColumns st.
Proof. reflexivity. Qed.
Lemma columns_set_filter v st : currentColumns (set_filter v st) = currentColumns st.
Proof. reflexivity. Qed.
Lemma columns_set_cancelled v st : currentColumns (set_cancelled v st) = currentColumns st.
Proof. reflexivity. Qed.
Lemma columns_set_started v st : currentColumns (set_started v st) = currentColumns st.
Proof. reflexivity. Qed.
Hint Rewrite
  columns_set_filterText columns_set_allEvents columns_set_visibleEvents columns_set_rowToVisibleEvent
  columns_set_recentNamespaces columns_set_watchCancel columns_set_watchGeneration columns_set_namespace
  columns_set_showTimestampColumn columns_set_autoScroll columns_set_showNamespaceColumn columns_set_showStatusColumn
  columns_set_showActionColumn columns_set_showResourceColumn columns_set_aggregateMode columns_set_wrapMessages
  columns_set_filterVisible columns_set_table columns_set_recentNSBox columns_set_infoView
  columns_set_filter columns_set_cancelled columns_set_started : view_fields.


Lemma agg_set_filterText v st : aggregateMode (set_filterText v st) = aggregateMode st.
Proof. reflexivity. Qed.
Lemma agg_set_allEvents v st : aggregateMode (set_allEvents v st) = aggregateMode st.
Proof. reflexivity. Qed.
Lemma agg_set_visibleEvents v st : aggregateMode (set_visibleEvents v st) = aggregateMode st.
Proof. reflexivity. Qed.
Lemma agg_set_rowToVisibleEvent v st : aggregateMode (set_rowToVisibleEvent v st) = aggregateMode st.
Proof. reflexivity. Qed.
Lemma agg_set_recentNamespaces v st : aggregateMode (set_recentNamespaces v st) = aggregateMode st.
Proof. reflexivity. Qed.
Lemma agg_set_watchCancel v st : aggregateMode (set_watchCancel v st) = aggregateMode st.
Proof. reflexivity. Qed.
Lemma agg_set_watchGeneration v st : aggregateMode (set_watchGeneration v st) = aggregateMode st.
Proof. reflexivity. Qed.
Lemma agg_set_namespace v st : aggregateMode (set_namespace v st) = aggregateMode st.
Proof. reflexivity. Qed.
Lemma agg_set_showTimestampColumn v st : aggregateMode (set_showTimestampColumn v st) = aggregateMode st.
Proof. reflexivity. Qed.
Lemma agg_set_autoScroll v st : aggregateMode (set_autoScroll v st) = aggregateMode st.
Proof. reflexivity. Qed.
Lemma agg_set_showNamespaceColumn v st : aggregateMode (set_showNamespaceColumn v st) = aggregateMode st.
Proof. reflexivity. Qed.
Lemma agg_set_showStatusColumn v st : aggregateMode (set_showStatusColumn v st) = aggregateMode st.
Proof. reflexivity. Qed.
Lemma agg_set_showActionColumn v st : aggregateMode (set_showActionColumn v st) = aggregateMode st.
Proof. reflexivity. Qed.
Lemma agg_set_showResourceColumn v st : aggregateMode (set_showResourceColumn v st) = aggregateMode st.
Proof. reflexivity. Qed.
Lemma agg_set_aggregateMode v st : aggregateMode (set_aggregateMode v st) = v.
Proof. reflexivity. Qed.
Lemma agg_set_wrapMessages v st : aggregateMode (set_wrapMessages v st) = aggregateMode st.
Proof. reflexivity. Qed.
Lemma agg_set_filterVisible v st : aggregateMode (set_filterVisible v st) = aggregateMode st.
Proof. reflexivity. Qed.
Lemma agg_set_table v st : aggregateMode (set_table v st) = aggregateMode st.
Proof. reflexivity. Qed.
Lemma agg_set_recentNSBox v st : aggregateMode (set_recentNSBox v st) = aggregateMode st.
Proof. reflexivity. Qed.
Lemma agg_set_infoView v st : aggregateMode (set_infoView v st) = aggregateMode st.
Proof. reflexivity. Qed.
Lemma agg_set_filter v st : aggregateMode (set_filter v st) = aggregateMode st.
Proof. reflexivity. Qed.
Lemma agg_set_cancelled v st : aggregateMode (set_cancelled v st) = aggregateMode st.
Proof. reflexivity. Qed.
Lemma agg_set_started v st : aggregateMode (set_started v st) = aggregateMode st.
Proof. reflexivity. Qed.
Hint Rewrite
  agg_set_filterText agg_set_allEvents agg_set_visibleEvents agg_set_rowToVisibleEvent
  agg_set_recentNamespaces agg_set_watchCancel agg_set_watchGeneration agg_set_namespace
  agg_set_showTimestampColumn agg_set_autoScroll agg_set_showNamespaceColumn agg_set_showStatusColumn
  agg_set_showActionColumn agg_set_showResourceColumn agg_set_aggregateMode agg_set_wrapMessages
  agg_set_filterVisible agg_set_table agg_set_recentNSBox agg_set_infoView
  agg_set_filter agg_set_cancelled agg_set_started : view_fields.


Lemma tableCells_Select row t : tableCells (Select row t) = tableCells t.
Proof. reflexivity. Qed.
Lemma tableCells_ScrollToEnd t : tableCells (ScrollToEnd t) = tableCells t.
Proof. reflexivity. Qed.
Lemma tableCells_ScrollToBeginning t : tableCells (ScrollToBeginning t) = tableCells t.
Proof. reflexivity. Qed.
Lemma tableCells_SetTitle title t : tableCells (SetTitle title t) = tableCells t.
Proof. reflexivity. Qed.
Lemma tableCells_resize width t : tableCells (resize width t) = tableCells t.
Proof. reflexivity. Qed.
Hint Rewrite tableCells_Select tableCells_ScrollToEnd tableCells_ScrollToBeginning
  tableCells_SetTitle tableCells_resize : view_fields.

Lemma filterEvents_empty events : filterEvents events "" = events.
Proof. by destruct (filterEvents_substring events "") as (_ & _ & ? & _). Qed.

Lemma renderTable_refs `{GoLib} table events filterText opts wrapMessages tableWidth :
  (renderTable table events filterText opts wrapMessages tableWidth).2 =
  backRefs wrapMessages (messageColumnWidth tableWidth opts) 0
    (filterEvents events filterText).
Proof. apply renderTableContent_refs. Qed.

Section callbacks.
Context `{GoLib} (env : Env).

Lemma refreshTable_frame st :
  currentColumns (refreshTable st) = currentColumns st ∧
  wrapMessages (refreshTable st) = wrapMessages st.
Proof.
  unfold refreshTable. destruct (renderTable _ _ _ _ _ _).
  by autorewrite with view_fields.
Qed.

Lemma refreshTable_view st : viewInv (refreshTable st).
Proof.
  destruct (refreshTable_frame st) as [Hcols Hwrap].
  exists (messageColumnWidth (GetInnerRect (table st)) (currentColumns st)).
  rewrite Hcols, Hwrap. unfold refreshTable.
  autorewrite with view_fields.
  pose proof (renderTable_cells (table st)
                (filterEvents (if aggregateMode st then aggregateEvents (allEvents st)
                               else allEvents st) (filterText st))
                "" (currentColumns st) (wrapMessages st) (GetInnerRect (table st))) as [Hc _].
  pose proof (renderTable_refs (table st)
                (filterEvents (if aggregateMode st then aggregateEvents (allEvents st)
                               else allEvents st) (filterText st))
                "" (currentColumns st) (wrapMessages st) (GetInnerRect (table st))) as Hr.
  rewrite filterEvents_empty in Hc, Hr.
  destruct (renderTable _ _ _ _ _ _) as [t r]. autorewrite with view_fields.
  simpl in Hc, Hr. by rewrite Hc, Hr.
Qed.

Lemma viewInv_ext st st' :
  tableCells (table st') = tableCells (table st) →
  currentColumns st' = currentColumns st →
  wrapMessages st' = wrapMessages st →
  visibleEvents st' = visibleEvents st →
  rowToVisibleEvent st' = rowToVisibleEvent st →
  viewInv st → viewInv st'.
Proof.
  intros Ht Hc Hw Hv Hr (msgWidth & Hcells & Hrefs). exists msgWidth.
  by rewrite Ht, Hc, Hw, Hv, Hr.
Qed.

Lemma updateTableTitle_same st :
  tableCells (table (updateTableTitle st)) = tableCells (table st) ∧
  currentColumns (updateTableTitle st) = currentColumns st ∧
  wrapMessages (updateTableTitle st) = wrapMessages st ∧
  visibleEvents (updateTableTitle st) = visibleEvents st ∧
  rowToVisibleEvent (updateTableTitle st) = rowToVisibleEvent st.
Proof.
  unfold updateTableTitle. destruct (autoScroll st); by autorewrite with view_fields.
Qed.

(** The view after some changes that leave it alone is the view after
    [refreshTable]. *)
Ltac same_view :=
  repeat first
    [ rewrite (proj1 (updateTableTitle_same _))
    | rewrite (proj1 (proj2 (updateTableTitle_same _)))
    | rewrite (proj1 (proj2 (proj2 (updateTableTitle_same _))))
    | rewrite (proj1 (proj2 (proj2 (proj2 (updateTableTitle_same _)))))
    | rewrite (proj2 (proj2 (proj2 (proj2 (updateTableTitle_same _)))))
    | progress autorewrite with view_fields ];
  try reflexivity.

Ltac by_refresh :=
  eapply viewInv_ext; [same_view ..|apply refreshTable_view].

Ltac by_same H :=
  eapply viewInv_ext; [same_view ..|exact H].

(** Name the state [refreshTable] is applied to. *)
Ltac name_refreshed :=
  match goal with
  | |- context [refreshTable ?st] => assert_fails (is_var st); generalize st; intro
  end.

Lemma updateNamespace_view newNS st : viewInv (updateNamespace env newNS st).
Proof. unfold updateNamespace. cbv zeta. name_refreshed. by_refresh. Qed.

Lemma handleRune_view r st : viewInv st → viewInv (handleRune env r st).
Proof.
  intros Hinv. unfold handleRune, selectLast.
  repeat (destruct (decide _) as [_|_]); cbv zeta; try name_refreshed;
    repeat match goal with
           | |- context [if ?c then _ else _] => destruct c
           | |- context [match ?o with Some _ => _ | None => _ end] => destruct o
           end;
    first [ exact Hinv | apply updateNamespace_view | apply refreshTable_view
          | by_refresh | by_same Hinv ].
Qed.

Lemma backRefs_snoc wrapMessages msgWidth eventIdx lines line :
  backRefs wrapMessages msgWidth eventIdx (lines ++ [line]) =
  backRefs wrapMessages msgWidth eventIdx lines ++
  replicate (rowsOf wrapMessages msgWidth line) (Z.of_nat (eventIdx + length lines)).
Proof.
  revert eventIdx. induction lines as [|l lines IH]; intros eventIdx; simpl.
  - by rewrite app_nil_r, Nat.add_0_r.
  - rewrite IH, <- app_assoc. do 3 f_equal. lia.
Qed.

Lemma onWatchEvent_view generation event st :
  viewInv st → viewInv (onWatchEvent generation event st).
Proof.
  intros Hinv. unfold onWatchEvent.
  destruct (decide (generation ≠ watchGeneration st)); [done|].
  destruct (autoScroll st); [|done].
  cbv zeta. autorewrite with view_fields.
  destruct (aggregateMode st || wrapMessages st) eqn:Hmode.
  { repeat case_match; by_refresh. }
  apply orb_false_iff in Hmode as [Hagg Hwrap].
  destruct (matchesFilter _ _ && _); [|by_same Hinv].
  destruct (decide _) as [Hparts|Hparts].
  - destruct Hinv as (msgWidth & Hcells & Hrefs). exists msgWidth.
    autorewrite with view_fields.
    rewrite renderRow_cells.
    2:{ unfold GetRowCount. by rewrite Nat2Z.id. }
    rewrite Hcells, Hrefs, Hwrap, flat_map_app, backRefs_snoc. simpl flat_map.
    unfold lineRows, rowsOf.
    assert (wellFormed (eventLine event) = true) as ->
      by (unfold wellFormed; by apply bool_decide_eq_true).
    cbn [negb]. rewrite app_nil_r, length_app. simpl.
    split; [done|]. do 2 f_equal. lia.
  - destruct Hinv as (msgWidth & Hcells & Hrefs). exists msgWidth.
    autorewrite with view_fields.
    rewrite Hcells, Hrefs, Hwrap, flat_map_app, backRefs_snoc. simpl flat_map.
    unfold lineRows, rowsOf.
    assert (wellFormed (eventLine event) = false) as ->
      by (unfold wellFormed; by apply bool_decide_eq_false).
    cbn [negb]. simpl. by rewrite !app_nil_r.
Qed.

Lemma step_view st m : viewInv st → viewInv (step env st m).
Proof.
  intros Hinv. destruct m; cbn [step].
  - apply updateNamespace_view.
  - by apply handleRune_view.
  - by_same Hinv.
  - unfold selectLast. by_same Hinv.
  - by_same Hinv.
  - unfold filterDone. by_refresh.
  - by apply onWatchEvent_view.
  - unfold onWatchError. case_match; [done|]. by_same Hinv.
  - by_same Hinv.
Qed.

Lemma run_view st trace : viewInv st → viewInv (run env st trace).
Proof.
  revert st. induction trace as [|m trace IH]; intros st Hinv; cbn [run fold_left]; [done|].
  by apply IH, step_view.
Qed.

Lemma startUI_view ns : viewInv (startUI env ns).
Proof. apply updateNamespace_view. Qed.

Lemma lineRows_length opts wrapMessages msgWidth line :
  length (lineRows opts wrapMessages msgWidth line) = rowsOf wrapMessages msgWidth line.
Proof.
  unfold lineRows, rowsOf. destruct (wellFormed line); [|done]. cbn [negb].
  destruct wrapMessages; [|done]. cbn [negb length]. rewrite length_fmap.
  fold (lineField 5 line).
  pose proof (wrapMessage_nonempty (lineField 5 line) msgWidth) as Hne.
  destruct (wrapMessage (lineField 5 line) msgWidth); simpl in *; lia.
Qed.

Lemma rows_length opts wrapMessages msgWidth eventIdx lines :
  length (flat_map (lineRows opts wrapMessages msgWidth) lines) =
  length (backRefs wrapMessages msgWidth eventIdx lines).
Proof.
  revert eventIdx. induction lines as [|line lines IH]; intros eventIdx; [done|].
  cbn [flat_map backRefs]. rewrite !length_app, length_replicate, lineRows_length.
  by rewrite (IH (S eventIdx)).
Qed.

Lemma viewInv_rows st :
  viewInv st →
  GetRowCount (table st) = 1 + Z.of_nat (length (rowToVisibleEvent st)).
Proof.
  intros (msgWidth & Hcells & Hrefs). unfold GetRowCount. rewrite Hcells, Hrefs.
  cbn [length]. rewrite (rows_length _ _ _ 0). lia.
Qed.

Lemma viewInv_selected st row :
  viewInv st → 1 <= row < GetRowCount (table st) →
  ∃ idx line,
    rowToVisibleEvent st !! Z.to_nat (row - 1) = Some (Z.of_nat idx) ∧
    visibleEvents st !! idx = Some line ∧
    wellFormed line = true ∧
    onSelected row st = Some (SplitN line "│" 6).
Proof.
  intros Hinv Hrow. rewrite (viewInv_rows st Hinv) in Hrow.
  destruct Hinv as (msgWidth & _ & Hrefs).
  destruct (lookup_lt_is_Some_2 (rowToVisibleEvent st) (Z.to_nat (row - 1))) as [i Hi];
    [lia|].
  assert (i ∈ backRefs (wrapMessages st) msgWidth 0 (visibleEvents st)) as Hin.
  { rewrite <- Hrefs. by eapply list_elem_of_lookup_2. }
  destruct (backRefs_valid _ _ _ _ _ Hin) as (line & Hline & Hwf & Hle).
  rewrite Nat.sub_0_r in Hline.
  exists (Z.to_nat i), line. rewrite Z2Nat.id by lia.
  split; [done|]. split; [done|]. split; [done|].
  unfold onSelected. cbv zeta. rewrite Hi. cbn [default id].
  apply lookup_lt_Some in Hline as Hlt.
  destruct (Z.leb_spec row 0); [lia|].
  destruct (Z.leb_spec (Z.of_nat (length (rowToVisibleEvent st))) (row - 1)); [lia|].
  cbn [orb].
  destruct (Z.leb_spec 0 i); [|lia]. destruct (Z.ltb_spec i (Z.of_nat (length (visibleEvents st))));
    [|lia].
  cbn [andb]. by rewrite Hline.
Qed.

End callbacks.

(** X8 — the table shows the visible events.  In every state the update
    loop reaches, the table is the header and the rows of the visible
    events under the current columns and wrap mode, the back-reference
    table has one entry per row below the header, every such row leads
    back to a well-formed visible line, which is what the selection
    handler hands to the details view, and the handler does nothing for
    the header row and for rows that do not exist. *)
Theorem table_shows_visible_events `{GoLib} (env : Env) (ns : string) (trace : list Msg) :
  let st := run env (startUI env ns) trace in
  viewInv st ∧
  GetRowCount (table st) = 1 + Z.of_nat (length (rowToVisibleEvent st)) ∧
  (∀ row, 1 <= row < GetRowCount (table st) →
     ∃ idx line,
       rowToVisibleEvent st !! Z.to_nat (row - 1) = Some (Z.of_nat idx) ∧
       visibleEvents st !! idx = Some line ∧
       wellFormed line = true ∧
       onSelected row st = Some (SplitN line "│" 6)) ∧
  (∀ row, row <= 0 ∨ GetRowCount (table st) <= row → onSelected row st = None).
Proof.
  intros st.
  assert (viewInv st) as Hinv by apply run_view, startUI_view.
  split; [done|]. split; [by apply viewInv_rows|]. split.
  - intros row Hrow. by apply viewInv_selected.
  - intros row Hrow. rewrite (viewInv_rows st Hinv) in Hrow. unfold onSelected.
    destruct (Z.leb_spec row 0); [done|].
    destruct (Z.leb_spec (Z.of_nat (length (rowToVisibleEvent st))) (row - 1)); [done|lia].
Qed.

End TUIViewProofs.


(** ** The watch and its scope *)

Module TUIScopeProofs.
Import TUI TUIView.

Create Rewrite HintDb scope_fields.

Lemma cancel_set_filterText v st : watchCancel (set_filterText v st) = watchCancel st.
Proof. reflexivity. Qed.
Lemma cancel_set_allEvents v st : watchCancel (set_allEvents v st) = watchCancel st.
Proof. reflexivity. Qed.
Lemma cancel_set_visibleEvents v st : watchCancel (set_visibleEvents v st) = watchCancel st.
Proof. reflexivity. Qed.
Lemma cancel_set_rowToVisibleEvent v st : watchCancel (set_rowToVisibleEvent v st) = watchCancel st.
Proof. reflexivity. Qed.
Lemma cancel_set_recentNamespaces v st : watchCancel (set_recentNamespaces v st) = watchCancel st.
Proof. reflexivity. Qed.
Lemma cancel_set_watchCancel v st : watchCancel (set_watchCancel v st) = v.
Proof. reflexivity. Qed.
Lemma cancel_set_watchGeneration v st : watchCancel (set_watchGeneration v st) = watchCancel st.
Proof. reflexivity. Qed.
Lemma cancel_set_namespace v st : watchCancel (set_namespace v st) = watchCancel st.
Proof. reflexivity. Qed.
Lemma cancel_set_showTimestampColumn v st : watchCancel (set_showTimestampColumn v st) = watchCancel st.
Proof. reflexivity. Qed.
Lemma cancel_set_autoScroll v st : watchCancel (set_autoScroll v st) = watchCancel st.
Proof. reflexivity. Qed.
Lemma cancel_set_showNamespaceColumn v st : watchCancel (set_showNamespaceColumn v st) = watchCancel st.
Proof. reflexivity. Qed.
Lemma cancel_set_showStatusColumn v st : watchCancel (set_showStatusColumn v st) = watchCancel st.
Proof. reflexivity. Qed.
Lemma cancel_set_showActionColumn v st : watchCancel (set_showActionColumn v st) = watchCancel st.
Proof. reflexivity. Qed.
Lemma cancel_set_showResourceColumn v st : watchCancel (set_showResourceColumn v st) = watchCancel st.
Proof. reflexivity. Qed.
Lemma cancel_set_aggregateMode v st : watchCancel (set_aggregateMode v st) = watchCancel st.
Proof. reflexivity. Qed.
Lemma cancel_set_wrapMessages v st : watchCancel (set_wrapMessages v st) = watchCancel st.
Proof. reflexivity. Qed.
Lemma cancel_set_filterVisible v st : watchCancel (set_filterVisible v st) = watchCancel st.
Proof. reflexivity. Qed.
Lemma cancel_set_table v st : watchCancel (set_table v st) = watchCancel st.
Proof. reflexivity. Qed.
Lemma cancel_set_recentNSBox v st : watchCancel (set_recentNSBox v st) = watchCancel st.
Proof. reflexivity. Qed.
Lemma cancel_set_infoView v st : watchCancel (set_infoView v st) = watchCancel st.
Proof. reflexivity. Qed.
Lemma cancel_set_filter v st : watchCancel (set_filter v st) = watchCancel st.
Proof. reflexivity. Qed.
Lemma cancel_set_cancelled v st : watchCancel (set_cancelled v st) = watchCancel st.
Proof. reflexivity. Qed.
Lemma cancel_set_started v st : watchCancel (set_started v st) = watchCancel st.
Proof. reflexivity. Qed.
Hint Rewrite
  cancel_set_filterText cancel_set_allEvents cancel_set_visibleEvents cancel_set_rowToVisibleEvent
  cancel_set_recentNamespaces cancel_set_watchCancel cancel_set_watchGeneration cancel_set_namespace
  cancel_set_showTimestampColumn cancel_set_autoScroll cancel_set_showNamespaceColumn cancel_set_showStatusColumn
  cancel_set_showActionColumn cancel_set_showResourceColumn cancel_set_aggregateMode cancel_set_wrapMessages
  cancel_set_filterVisible cancel_set_table cancel_set_recentNSBox cancel_set_infoView
  cancel_set_filter cancel_set_cancelled cancel_set_started : scope_fields.

Lemma cancelled_set_filterText v st : cancelled (set_filterText v st) = cancelled st.
Proof. reflexivity. Qed.
Lemma cancelled_set_allEvents v st : cancelled (set_allEvents v st) = cancelled st.
Proof. reflexivity. Qed.
Lemma cancelled_set_visibleEvents v st : cancelled (set_visibleEvents v st) = cancelled st.
Proof. reflexivity. Qed.
Lemma cancelled_set_rowToVisibleEvent v st : cancelled (set_rowToVisibleEvent v st) = cancelled st.
Proof. reflexivity. Qed.
Lemma cancelled_set_recentNamespaces v st : cancelled (set_recentNamespaces v st) = cancelled st.
Proof. reflexivity. Qed.
Lemma cancelled_set_watchCancel v st : cancelled (set_watchCancel v st) = cancelled st.
Proof. reflexivity. Qed.
Lemma cancelled_set_watchGeneration v st : cancelled (set_watchGeneration v st) = cancelled st.
Proof. reflexivity. Qed.
Lemma cancelled_set_namespace v st : cancelled (set_namespace v st) = cancelled st.
Proof. reflexivity. Qed.
Lemma cancelled_set_showTimestampColumn v st : cancelled (set_showTimestampColumn v st) = cancelled st.
Proof. reflexivity. Qed.
Lemma cancelled_set_autoScroll v st : cancelled (set_autoScroll v st) = cancelled st.
Proof. reflexivity. Qed.
Lemma cancelled_set_showNamespaceColumn v st : cancelled (set_showNamespaceColumn v st) = cancelled st.
Proof. reflexivity. Qed.
Lemma cancelled_set_showStatusColumn v st : cancelled (set_showStatusColumn v st) = cancelled st.
Proof. reflexivity. Qed.
Lemma cancelled_set_showActionColumn v st : cancelled (set_showActionColumn v st) = cancelled st.
Proof. reflexivity. Qed.
Lemma cancelled_set_showResourceColumn v st : cancelled (set_showResourceColumn v st) = cancelled st.
Proof. reflexivity. Qed.
Lemma cancelled_set_aggregateMode v st : cancelled (set_aggregateMode v st) = cancelled st.
Proof. reflexivity. Qed.
Lemma cancelled_set_wrapMessages v st : cancelled (set_wrapMessages v st) = cancelled st.
Proof. reflexivity. Qed.
Lemma cancelled_set_filterVisible v st : cancelled (set_filterVisible v st) = cancelled st.
Proof. reflexivity. Qed.
Lemma cancelled_set_table v st : cancelled (set_table v st) = cancelled st.
Proof. reflexivity. Qed.
Lemma cancelled_set_recentNSBox v st : cancelled (set_recentNSBox v st) = cancelled st.
Proof. reflexivity. Qed.
Lemma cancelled_set_infoView v st : cancelled (set_infoView v st) = cancelled st.
Proof. reflexivity. Qed.
Lemma cancelled_set_filter v st : cancelled (set_filter v st) = cancelled st.
Proof. reflexivity. Qed.
Lemma cancelled_set_cancelled v st : cancelled (set_cancelled v st) = v.
Proof. reflexivity. Qed.
Lemma cancelled_set_started v st : cancelled (set_started v st) = cancelled st.
Proof. reflexivity. Qed.
Hint Rewrite
  cancelled_set_filterText cancelled_set_allEvents cancelled_set_visibleEvents cancelled_set_rowToVisibleEvent
  cancelled_set_recentNamespaces cancelled_set_watchCancel cancelled_set_watchGeneration cancelled_set_namespace
  cancelled_set_showTimestampColumn cancelled_set_autoScroll cancelled_set_showNamespaceColumn cancelled_set_showStatusColumn
  cancelled_set_showActionColumn cancelled_set_showResourceColumn cancelled_set_aggregateMode cancelled_set_wrapMessages
  cancelled_set_filterVisible cancelled_set_table cancelled_set_recentNSBox cancelled_set_infoView
  cancelled_set_filter cancelled_set_cancelled cancelled_set_started : scope_fields.

Lemma started_set_filterText v st : started (set_filterText v st) = started st.
Proof. reflexivity. Qed.
Lemma started_set_allEvents v st : started (set_allEvents v st) = started st.
Proof. reflexivity. Qed.
Lemma started_set_visibleEvents v st : started (set_visibleEvents v st) = started st.
Proof. reflexivity. Qed.
Lemma started_set_rowToVisibleEvent v st : started (set_rowToVisibleEvent v st) = started st.
Proof. reflexivity. Qed.
Lemma started_set_recentNamespaces v st : started (set_recentNamespaces v st) = started st.
Proof. reflexivity. Qed.
Lemma started_set_watchCancel v st : started (set_watchCancel v st) = started st.
Proof. reflexivity. Qed.
Lemma started_set_watchGeneration v st : started (set_watchGeneration v st) = started st.
Proof. reflexivity. Qed.
Lemma started_set_namespace v st : started (set_namespace v st) = started st.
Proof. reflexivity. Qed.
Lemma started_set_showTimestampColumn v st : started (set_showTimestampColumn v st) = started st.
Proof. reflexivity. Qed.
Lemma started_set_autoScroll v st : started (set_autoScroll v st) = started st.
Proof. reflexivity. Qed.
Lemma started_set_showNamespaceColumn v st : started (set_showNamespaceColumn v st) = started st.
Proof. reflexivity. Qed.
Lemma started_set_showStatusColumn v st : started (set_showStatusColumn v st) = started st.
Proof. reflexivity. Qed.
Lemma started_set_showActionColumn v st : started (set_showActionColumn v st) = started st.
Proof. reflexivity. Qed.
Lemma started_set_showResourceColumn v st : started (set_showResourceColumn v st) = started st.
Proof. reflexivity. Qed.
Lemma started_set_aggregateMode v st : started (set_aggregateMode v st) = started st.
Proof. reflexivity. Qed.
Lemma started_set_wrapMessages v st : started (set_wrapMessages v st) = started st.
Proof. reflexivity. Qed.
Lemma started_set_filterVisible v st : started (set_filterVisible v st) = started st.
Proof. reflexivity. Qed.
Lemma started_set_table v st : started (set_table v st) = started st.
Proof. reflexivity. Qed.
Lemma started_set_recentNSBox v st : started (set_recentNSBox v st) = started st.
Proof. reflexivity. Qed.
Lemma started_set_infoView v st : started (set_infoView v st) = started st.
Proof. reflexivity. Qed.
Lemma started_set_filter v st : started (set_filter v st) = started st.
Proof. reflexivity. Qed.
Lemma started_set_cancelled v st : started (set_cancelled v st) = started st.
Proof. reflexivity. Qed.
Lemma started_set_started v st : started (set_started v st) = v.
Proof. reflexivity. Qed.
Hint Rewrite
  started_set_filterText started_set_allEvents started_set_visibleEvents started_set_rowToVisibleEvent
  started_set_recentNamespaces started_set_watchCancel started_set_watchGeneration started_set_namespace
  started_set_showTimestampColumn started_set_autoScroll started_set_showNamespaceColumn started_set_showStatusColumn
  started_set_showActionColumn started_set_showResourceColumn started_set_aggregateMode started_set_wrapMessages
  started_set_filterVisible started_set_table started_set_recentNSBox started_set_infoView
  started_set_filter started_set_cancelled started_set_started : scope_fields.

Lemma ns_set_filterText v st : namespace (set_filterText v st) = namespace st.
Proof. reflexivity. Qed.
Lemma ns_set_allEvents v st : namespace (set_allEvents v st) = namespace st.
Proof. reflexivity. Qed.
Lemma ns_set_visibleEvents v st : namespace (set_visibleEvents v st) = namespace st.
Proof. reflexivity. Qed.
Lemma ns_set_rowToVisibleEvent v st : namespace (set_rowToVisibleEvent v st) = namespace st.
Proof. reflexivity. Qed.
Lemma ns_set_recentNamespaces v st : namespace (set_recentNamespaces v st) = namespace st.
Proof. reflexivity. Qed.
Lemma ns_set_watchCancel v st : namespace (set_watchCancel v st) = namespace st.
Proof. reflexivity. Qed.
Lemma ns_set_watchGeneration v st : namespace (set_watchGeneration v st) = namespace st.
Proof. reflexivity. Qed.
Lemma ns_set_namespace v st : namespace (set_namespace v st) = v.
Proof. reflexivity. Qed.
Lemma ns_set_showTimestampColumn v st : namespace (set_showTimestampColumn v st) = namespace st.
Proof. reflexivity. Qed.
Lemma ns_set_autoScroll v st : namespace (set_autoScroll v st) = namespace st.
Proof. reflexivity. Qed.
Lemma ns_set_showNamespaceColumn v st : namespace (set_showNamespaceColumn v st) = namespace st.
Proof. reflexivity. Qed.
Lemma ns_set_showStatusColumn v st : namespace (set_showStatusColumn v st) = namespace st.
Proof. reflexivity. Qed.
Lemma ns_set_showActionColumn v st : namespace (set_showActionColumn v st) = namespace st.
Proof. reflexivity. Qed.
Lemma ns_set_showResourceColumn v st : namespace (set_showResourceColumn v st) = namespace st.
Proof. reflexivity. Qed.
Lemma ns_set_aggregateMode v st : namespace (set_aggregateMode v st) = namespace st.
Proof. reflexivity. Qed.
Lemma ns_set_wrapMessages v st : namespace (set_wrapMessages v st) = namespace st.
Proof. reflexivity. Qed.
Lemma ns_set_filterVisible v st : namespace (set_filterVisible v st) = namespace st.
Proof. reflexivity. Qed.
Lemma ns_set_table v st : namespace (set_table v st) = namespace st.
Proof. reflexivity. Qed.
Lemma ns_set_recentNSBox v st : namespace (set_recentNSBox v st) = namespace st.
Proof. reflexivity. Qed.
Lemma ns_set_infoView v st : namespace (set_infoView v st) = namespace st.
Proof. reflexivity. Qed.
Lemma ns_set_filter v st : namespace (set_filter v st) = namespace st.
Proof. reflexivity. Qed.
Lemma ns_set_cancelled v st : namespace (set_cancelled v st) = namespace st.
Proof. reflexivity. Qed.
Lemma ns_set_started v st : namespace (set_started v st) = namespace st.
Proof. reflexivity. Qed.
Hint Rewrite
  ns_set_filterText ns_set_allEvents ns_set_visibleEvents ns_set_rowToVisibleEvent
  ns_set_recentNamespaces ns_set_watchCancel ns_set_watchGeneration ns_set_namespace
  ns_set_showTimestampColumn ns_set_autoScroll ns_set_showNamespaceColumn ns_set_showStatusColumn
  ns_set_showActionColumn ns_set_showResourceColumn ns_set_aggregateMode ns_set_wrapMessages
  ns_set_filterVisible ns_set_table ns_set_recentNSBox ns_set_infoView
  ns_set_filter ns_set_cancelled ns_set_started : scope_fields.

Lemma nscol_set_filterText v st : showNamespaceColumn (set_filterText v st) = showNamespaceColumn st.
Proof. reflexivity. Qed.
Lemma nscol_set_allEvents v st : showNamespaceColumn (set_allEvents v st) = showNamespaceColumn st.
Proof. reflexivity. Qed.
Lemma nscol_set_visibleEvents v st : showNamespaceColumn (set_visibleEvents v st) = showNamespaceColumn st.
Proof. reflexivity. Qed.
Lemma nscol_set_rowToVisibleEvent v st : showNamespaceColumn (set_rowToVisibleEvent v st) = showNamespaceColumn st.
Proof. reflexivity. Qed.
Lemma nscol_set_recentNamespaces v st : showNamespaceColumn (set_recentNamespaces v st) = showNamespaceColumn st.
Proof. reflexivity. Qed.
Lemma nscol_set_watchCancel v st : showNamespaceColumn (set_watchCancel v st) = showNamespaceColumn st.
Proof. reflexivity. Qed.
Lemma nscol_set_watchGeneration v st : showNamespaceColumn (set_watchGeneration v st) = showNamespaceColumn st.
Proof. reflexivity. Qed.
Lemma nscol_set_namespace v st : showNamespaceColumn (set_namespace v st) = showNamespaceColumn st.
Proof. reflexivity. Qed.
Lemma nscol_set_showTimestampColumn v st : showNamespaceColumn (set_showTimestampColumn v st) = showNamespaceColumn st.
Proof. reflexivity. Qed.
Lemma nscol_set_autoScroll v st : showNamespaceColumn (set_autoScroll v st) = showNamespaceColumn st.
Proof. reflexivity. Qed.
Lemma nscol_set_showNamespaceColumn v st : showNamespaceColumn (set_showNamespaceColumn v st) = v.
Proof. reflexivity. Qed.
Lemma nscol_set_showStatusColumn v st : showNamespaceColumn (set_showStatusColumn v st) = showNamespaceColumn st.
Proof. reflexivity. Qed.
Lemma nscol_set_showActionColumn v st : showNamespaceColumn (set_showActionColumn v st) = showNamespaceColumn st.
Proof. reflexivity. Qed.
Lemma nscol_set_showResourceColumn v st : showNamespaceColumn (set_showResourceColumn v st) = showNamespaceColumn st.
Proof. reflexivity. Qed.
Lemma nscol_set_aggregateMode v st : showNamespaceColumn (set_aggregateMode v st) = showNamespaceColumn st.
Proof. reflexivity. Qed.
Lemma nscol_set_wrapMessages v st : showNamespaceColumn (set_wrapMessages v st) = showNamespaceColumn st.
Proof. reflexivity. Qed.
Lemma nscol_set_filterVisible v st : showNamespaceColumn (set_filterVisible v st) = showNamespaceColumn st.
Proof. reflexivity. Qed.
Lemma nscol_set_table v st : showNamespaceColumn (set_table v st) = showNamespaceColumn st.
Proof. reflexivity. Qed.
Lemma nscol_set_recentNSBox v st : showNamespaceColumn (set_recentNSBox v st) = showNamespaceColumn st.
Proof. reflexivity. Qed.
Lemma nscol_set_infoView v st : showNamespaceColumn (set_infoView v st) = showNamespaceColumn st.
Proof. reflexivity. Qed.
Lemma nscol_set_filter v st : showNamespaceColumn (set_filter v st) = showNamespaceColumn st.
Proof. reflexivity. Qed.
Lemma nscol_set_cancelled v st : showNamespaceColumn (set_cancelled v st) = showNamespaceColumn st.
Proof. reflexivity. Qed.
Lemma nscol_set_started v st : showNamespaceColumn (set_started v st) = showNamespaceColumn st.
Proof. reflexivity. Qed.
Hint Rewrite
  nscol_set_filterText nscol_set_allEvents nscol_set_visibleEvents nscol_set_rowToVisibleEvent
  nscol_set_recentNamespaces nscol_set_watchCancel nscol_set_watchGeneration nscol_set_namespace
  nscol_set_showTimestampColumn nscol_set_autoScroll nscol_set_showNamespaceColumn nscol_set_showStatusColumn
  nscol_set_showActionColumn nscol_set_showResourceColumn nscol_set_aggregateMode nscol_set_wrapMessages
  nscol_set_filterVisible nscol_set_table nscol_set_recentNSBox nscol_set_infoView
  nscol_set_filter nscol_set_cancelled nscol_set_started : scope_fields.

Lemma gen_set_filterText v st : watchGeneration (set_filterText v st) = watchGeneration st.
Proof. reflexivity. Qed.
Lemma gen_set_allEvents v st : watchGeneration (set_allEvents v st) = watchGeneration st.
Proof. reflexivity. Qed.
Lemma gen_set_visibleEvents v st : watchGeneration (set_visibleEvents v st) = watchGeneration st.
Proof. reflexivity. Qed.
Lemma gen_set_rowToVisibleEvent v st : watchGeneration (set_rowToVisibleEvent v st) = watchGeneration st.
Proof. reflexivity. Qed.
Lemma gen_set_recentNamespaces v st : watchGeneration (set_recentNamespaces v st) = watchGeneration st.
Proof. reflexivity. Qed.
Lemma gen_set_watchCancel v st : watchGeneration (set_watchCancel v st) = watchGeneration st.
Proof. reflexivity. Qed.
Lemma gen_set_watchGeneration v st : watchGeneration (set_watchGeneration v st) = v.
Proof. reflexivity. Qed.
Lemma gen_set_namespace v st : watchGeneration (set_namespace v st) = watchGeneration st.
Proof. reflexivity. Qed.
Lemma gen_set_showTimestampColumn v st : watchGeneration (set_showTimestampColumn v st) = watchGeneration st.
Proof. reflexivity. Qed.
Lemma gen_set_autoScroll v st : watchGeneration (set_autoScroll v st) = watchGeneration st.
Proof. reflexivity. Qed.
Lemma gen_set_showNamespaceColumn v st : watchGeneration (set_showNamespaceColumn v st) = watchGeneration st.
Proof. reflexivity. Qed.
Lemma gen_set_showStatusColumn v st : watchGeneration (set_showStatusColumn v st) = watchGeneration st.
Proof. reflexivity. Qed.
Lemma gen_set_showActionColumn v st : watchGeneration (set_showActionColumn v st) = watchGeneration st.
Proof. reflexivity. Qed.
Lemma gen_set_showResourceColumn v st : watchGeneration (set_showResourceColumn v st) = watchGeneration st.
Proof. reflexivity. Qed.
Lemma gen_set_aggregateMode v st : watchGeneration (set_aggregateMode v st) = watchGeneration st.
Proof. reflexivity. Qed.
Lemma gen_set_wrapMessages v st : watchGeneration (set_wrapMessages v st) = watchGeneration st.
Proof. reflexivity. Qed.
Lemma gen_set_filterVisible v st : watchGeneration (set_filterVisible v st) = watchGeneration st.
Proof. reflexivity. Qed.
Lemma gen_set_table v st : watchGeneration (set_table v st) = watchGeneration st.
Proof. reflexivity. Qed.
Lemma gen_set_recentNSBox v st : watchGeneration (set_recentNSBox v st) = watchGeneration st.
Proof. reflexivity. Qed.
Lemma gen_set_infoView v st : watchGeneration (set_infoView v st) = watchGeneration st.
Proof. reflexivity. Qed.
Lemma gen_set_filter v st : watchGeneration (set_filter v st) = watchGeneration st.
Proof. reflexivity. Qed.
Lemma gen_set_cancelled v st : watchGeneration (set_cancelled v st) = watchGeneration st.
Proof. reflexivity. Qed.
Lemma gen_set_started v st : watchGeneration (set_started v st) = watchGeneration st.
Proof. reflexivity. Qed.
Hint Rewrite
  gen_set_filterText gen_set_allEvents gen_set_visibleEvents gen_set_rowToVisibleEvent
  gen_set_recentNamespaces gen_set_watchCancel gen_set_watchGeneration gen_set_namespace
  gen_set_showTimestampColumn gen_set_autoScroll gen_set_showNamespaceColumn gen_set_showStatusColumn
  gen_set_showActionColumn gen_set_showResourceColumn gen_set_aggregateMode gen_set_wrapMessages
  gen_set_filterVisible gen_set_table gen_set_recentNSBox gen_set_infoView
  gen_set_filter gen_set_cancelled gen_set_started : scope_fields.


Section callbacks.
Context `{GoLib} (env : Env).

Lemma refreshTable_scope st :
  watchCancel (refreshTable st) = watchCancel st ∧
  cancelled (refreshTable st) = cancelled st ∧
  started (refreshTable st) = started st ∧
  namespace (refreshTable st) = namespace st ∧
  showNamespaceColumn (refreshTable st) = showNamespaceColumn st ∧
  watchGeneration (refreshTable st) = watchGeneration st.
Proof.
  unfold refreshTable. destruct (renderTable _ _ _ _ _ _).
  by autorewrite with scope_fields.
Qed.

Lemma updateTableTitle_scope st :
  watchCancel (updateTableTitle st) = watchCancel st ∧
  cancelled (updateTableTitle st) = cancelled st ∧
  started (updateTableTitle st) = started st ∧
  namespace (updateTableTitle st) = namespace st ∧
  showNamespaceColumn (updateTableTitle st) = showNamespaceColumn st ∧
  watchGeneration (updateTableTitle st) = watchGeneration st.
Proof.
  unfold updateTableTitle. destruct (autoScroll st); by autorewrite with scope_fields.
Qed.

Ltac scope :=
  repeat first
    [ rewrite (proj1 (refreshTable_scope _))
    | rewrite (proj1 (proj2 (refreshTable_scope _)))
    | rewrite (proj1 (proj2 (proj2 (refreshTable_scope _))))
    | rewrite (proj1 (proj2 (proj2 (proj2 (refreshTable_scope _)))))
    | rewrite (proj1 (proj2 (proj2 (proj2 (proj2 (refreshTable_scope _))))))
    | rewrite (proj2 (proj2 (proj2 (proj2 (proj2 (refreshTable_scope _))))))
    | rewrite (proj1 (updateTableTitle_scope _))
    | rewrite (proj1 (proj2 (updateTableTitle_scope _)))
    | rewrite (proj1 (proj2 (proj2 (updateTableTitle_scope _))))
    | rewrite (proj1 (proj2 (proj2 (proj2 (updateTableTitle_scope _)))))
    | rewrite (proj1 (proj2 (proj2 (proj2 (proj2 (updateTableTitle_scope _))))))
    | rewrite (proj2 (proj2 (proj2 (proj2 (proj2 (updateTableTitle_scope _))))))
    | progress autorewrite with scope_fields ].

Lemma scopeInv_ext st st' : scopeOf st' = scopeOf st → scopeInv st → scopeInv st'.
Proof.
  unfold scopeOf, scopeInv, watchInv. intros [= Hc Hca Hs Hn Hnc Hg].
  by rewrite Hc, Hca, Hs, Hn, Hnc, Hg.
Qed.

Lemma updateNamespace_scope newNS st :
  (watchCancel st = None → cancelled st = (started st).*2) →
  (∀ g, watchCancel st = Some g → ∃ earlier ns,
      started st = earlier ++ [(ns, g)] ∧ cancelled st = earlier.*2) →
  scopeInv (updateNamespace env newNS st) ∧
  namespace (updateNamespace env newNS st) = newNS.
Proof.
  intros Hnone Hsome. unfold scopeInv, watchInv, updateNamespace.
  destruct (watchCancel st) as [g|] eqn:Hc; cbv zeta.
  all: repeat match goal with
       | |- context [set_infoView ?i _] => assert_fails (is_var i); generalize i; intro
       | |- context [set_recentNSBox ?i _] => assert_fails (is_var i); generalize i; intro
       | |- context [set_recentNamespaces ?i _] => assert_fails (is_var i); generalize i; intro
       end.
  all: scope.
  - destruct (Hsome g eq_refl) as (earlier & ns & Hs & Hca).
    split; [split|].
    + exists (started st). split; [done|]. split; [|done].
      rewrite Hs, Hca, fmap_app. done.
    + done.
    + destruct (decide (newNS = "")) as [->|]; done.
  - split; [split|].
    + exists (started st). split; [done|]. split; [|done].
      rewrite app_nil_r || idtac. by apply Hnone.
    + done.
    + destruct (decide (newNS = "")) as [->|]; done.
Qed.

Lemma watchInv_some st :
  watchInv st →
  (watchCancel st = None → cancelled st = (started st).*2) ∧
  (∀ g, watchCancel st = Some g → ∃ earlier ns,
      started st = earlier ++ [(ns, g)] ∧ cancelled st = earlier.*2).
Proof.
  intros (earlier & Hs & Hca & Hc). split; [by rewrite Hc|].
  intros g. rewrite Hc. intros [= <-]. by exists earlier, (namespace st).
Qed.

Lemma step_scope st m : scopeInv st → scopeInv (step env st m).
Proof.
  intros Hinv.
  assert (∀ newNS, scopeInv (updateNamespace env newNS st)) as Hupd.
  { intros newNS. destruct Hinv as [Hw _]. apply watchInv_some in Hw as [Hn Hs].
    by apply updateNamespace_scope. }
  assert (∀ st', scopeOf st' = scopeOf st → scopeInv st') as Hsame.
  { intros st' Heq. by apply (scopeInv_ext st). }
  destruct m; cbn [step].
  - apply Hupd.
  - unfold handleRune, selectLast.
    repeat case_match; try apply Hupd; apply Hsame; unfold scopeOf; scope; done.
  - apply Hsame; unfold scopeOf; scope; done.
  - unfold selectLast. apply Hsame; unfold scopeOf; scope; done.
  - apply Hsame; unfold scopeOf; scope; done.
  - unfold filterDone. apply Hsame; unfold scopeOf; scope; done.
  - unfold onWatchEvent. cbv zeta.
    repeat case_match; try done; apply Hsame; unfold scopeOf; scope; done.
  - unfold onWatchError. case_match; [done|]. apply Hsame; unfold scopeOf; scope; done.
  - apply Hsame; unfold scopeOf; scope; done.
Qed.

Lemma run_scope st trace : scopeInv st → scopeInv (run env st trace).
Proof.
  revert st. induction trace as [|m trace IH]; intros st Hinv; cbn [run fold_left]; [done|].
  by apply IH, step_scope.
Qed.

Lemma startUI_scope ns : scopeInv (startUI env ns).
Proof.
  unfold startUI. apply updateNamespace_scope.
  - intros _. by scope.
  - scope. done.
Qed.

End callbacks.

(** X9 — one live watch.  In every state the update loop reaches, the
    watch started last watches the current namespace under the current
    generation and is the one [watchCancel] cancels, every watch started
    before it has been cancelled, and the namespace column is shown
    exactly when all namespaces are watched. *)
Theorem one_live_watch `{GoLib} (env : Env) (ns : string) (trace : list Msg) :
  let st := run env (startUI env ns) trace in
  (∃ earlier,
     started st = earlier ++ [(namespace st, watchGeneration st)] ∧
     cancelled st = earlier.*2 ∧
     watchCancel st = Some (watchGeneration st)) ∧
  showNamespaceColumn st = bool_decide (namespace st = NamespaceAll).
Proof. intros st. apply run_scope, startUI_scope. Qed.

End TUIScopeProofs.

(** ** Merge sort under two comparators that agree on the elements *)

Section merge_sort_ext.
Context {A} (R1 R2 : relation A) `{∀ x y, Decision (R1 x y)} `{∀ x y, Decision (R2 x y)}.
Context (P : A → Prop).
Hypothesis agree : ∀ x y, P x → P y → (R1 x y ↔ R2 x y).

Lemma list_merge_ext l1 l2 :
  Forall P l1 → Forall P l2 → list_merge R1 l1 l2 = list_merge R2 l1 l2.
Proof.
  intros Hl1. revert l2. induction Hl1 as [|x1 l1 Hx1 Hl1 IH1]; intros l2 Hl2.
  - by rewrite !list_merge_nil_l.
  - induction Hl2 as [|x2 l2 Hx2 Hl2 IH2]; [by rewrite !list_merge_nil_r|].
    rewrite !list_merge_cons.
    destruct (decide (R1 x1 x2)) as [Hr|Hr], (decide (R2 x1 x2)) as [Hr'|Hr'].
    + f_equal. apply IH1. by constructor.
    + exfalso. apply Hr'. by apply agree.
    + exfalso. apply Hr. by apply agree.
    + by f_equal.
Qed.

Lemma list_merge_Forall l1 l2 :
  Forall P l1 → Forall P l2 → Forall P (list_merge R1 l1 l2).
Proof.
  intros Hl1 Hl2. rewrite merge_Permutation. by apply Forall_app.
Qed.

Lemma merge_list_to_stack_ext st l :
  stackOf P st → Forall P l →
  merge_list_to_stack R1 st l = merge_list_to_stack R2 st l ∧
  stackOf P (merge_list_to_stack R1 st l).
Proof.
  intros Hst. revert l. induction Hst as [|[l'|] st Hl' Hst IH]; intros l Hl; simpl.
  - split; [done|]. by repeat constructor.
  - rewrite <- list_merge_ext by done.
    destruct (IH (list_merge R1 l' l)) as [-> Hs]; [by apply list_merge_Forall|].
    split; [done|]. by constructor.
  - split; [done|]. by constructor.
Qed.

Lemma merge_stack_ext st :
  stackOf P st → merge_stack R1 st = merge_stack R2 st ∧ Forall P (merge_stack R1 st).
Proof.
  induction 1 as [|[l|] st Hl Hst [IH1 IH2]]; simpl; [done| |done].
  rewrite <- IH1. split; [by apply list_merge_ext|by apply list_merge_Forall].
Qed.

Lemma merge_sort_aux_ext st l :
  stackOf P st → Forall P l → merge_sort_aux R1 st l = merge_sort_aux R2 st l.
Proof.
  intros Hst Hl. revert st Hst. induction Hl as [|x l Hx Hl IH]; intros st Hst; simpl.
  - by apply merge_stack_ext.
  - destruct (merge_list_to_stack_ext st [x]) as [Heq Hs]; [done|by repeat constructor|].
    rewrite <- Heq. by apply IH.
Qed.

Lemma merge_sort_ext l : Forall P l → merge_sort R1 l = merge_sort R2 l.
Proof. intros Hl. apply merge_sort_aux_ext; [constructor|done]. Qed.

End merge_sort_ext.

(** ** The order of the palette results *)

Global Instance strLt_dec a b : Decision (strLt a b).
Proof. unfold strLt. apply _. Defined.

Global Instance tieBefore_dec a b : Decision (tieBefore a b).
Proof. unfold tieBefore. repeat case_match; apply _. Defined.

Global Instance ranksBefore_dec a b : Decision (ranksBefore a b).
Proof. unfold ranksBefore. apply _. Defined.

Lemma strLt_asym a b : strLt a b → strLt b a → False.
Proof.
  intros Hab Hba. apply (irreflexivity (@lexico string _) a).
  by apply (transitivity (R:=@lexico string _) Hab).
Qed.

Lemma strLe_trans a b c : ¬ strLt b a → ¬ strLt c b → ¬ strLt c a.
Proof.
  intros Hab Hbc Hca.
  destruct (strLt_trichotomy a b) as [Hlt|[->|Hgt]]; [|done|done].
  destruct (strLt_trichotomy b c) as [Hlt'|[->|Hgt']]; [|done|done].
  apply (strLt_asym a c); [|done].
  by apply (transitivity (R:=@lexico string _) Hlt).
Qed.

Global Instance ranksBefore_total : Total ranksBefore.
Proof.
  intros a b. unfold ranksBefore, tieBefore, resultClass.
  destruct (Z.lt_trichotomy (Score a) (Score b)) as [?|[Hs|?]]; [by right; left| |by left; left].
  destruct (Command a) as [ca|], (Command b) as [cb|], (Jump a) as [ja|], (Jump b) as [jb|];
    try (left; right; split; [done|]; first [left; lia | right; split; [done|]; done]);
    try (right; right; split; [done|]; first [left; lia | right; split; [done|]; done]).
  all: try (destruct (decide (strLt (Name cb) (Name ca)));
            [right; right; split; [done|]; right; split; [done|];
             intros ?; by eapply strLt_asym
            |left; right; split; [done|]; right; by split]).
  destruct (Z.le_gt_cases (Row jb) (Row ja)).
  - left. right. split; [done|]. right. by split.
  - right. right. split; [done|]. right. split; [done|]. lia.
Qed.

Global Instance ranksBefore_trans : Transitive ranksBefore.
Proof.
  intros a b c. unfold ranksBefore, tieBefore, resultClass.
  intros [?|[Hab Hab']] [?|[Hbc Hbc']]; [left; lia|left; lia|left; lia|].
  right. split; [lia|].
  destruct (Command a) as [ca|], (Command b) as [cb|], (Command c) as [cc|],
           (Jump a) as [ja|], (Jump b) as [jb|], (Jump c) as [jc|];
    try (left; lia); try (right; split; [lia|done]);
    try (exfalso; destruct Hab' as [?|[? _]], Hbc' as [?|[? _]]; lia).
  all: destruct Hab' as [?|[_ Hab']]; [lia|]; destruct Hbc' as [?|[_ Hbc']]; [lia|].
  all: right; split; [done|]; first [by eapply strLe_trans | lia].
Qed.

Lemma resultLess_ranksBefore a b :
  proper a → proper b → notAfter resultLess a b ↔ ranksBefore a b.
Proof.
  unfold notAfter, resultLess, ranksBefore, tieBefore, resultClass, proper.
  intros [[[ca Hca] Hja]|[Hca [ja Hja]]] [[[cb Hcb] Hjb]|[Hcb [jb Hjb]]];
    rewrite Hca, Hja, Hcb, Hjb.
  all: destruct (Z.eqb_spec (Score b) (Score a)) as [Hs|Hs]; cbn [negb].
  all: try (rewrite Z.ltb_ge || rewrite Z.ltb_nlt).
  all: try (split; [intros ?; left; lia|intros [?|[? _]]; lia]).
  - unfold strLt. destruct (String.ltb (Name cb) (Name ca)); split; try done.
    + intros [?|[_ [?|[_ Hn]]]]; [lia|lia|]. by destruct Hn.
    + intros _. right. split; [done|]. right. split; [done|]. by intros ?.
  - split; [|done]. intros _. right. split; [done|]. left. lia.
  - split; [done|]. intros [?|[_ [?|[? _]]]]; lia.
  - split.
    + intros ?. right. split; [done|]. right. by split.
    + intros [?|[_ [?|[_ ?]]]]; lia.
Qed.

Section ranked.
Context `{GoLib}.

Lemma paletteMatches_elem q commands jumps r :
  r ∈ paletteMatches q commands jumps ↔ resultOf q commands jumps r.
Proof.
  unfold paletteMatches, resultOf. rewrite elem_of_app, !list_elem_of_In, !in_flat_map.
  setoid_rewrite <- list_elem_of_In. split.
  - intros [(c & Hc & Hr)|(j & Hj & Hr)]; [left|right].
    + unfold matchCommand in Hr. fold (commandText c) in Hr.
      destruct (fuzzyMatchScore q (commandText c)) as [s ok] eqn:Hs.
      destruct ok; simpl in Hr; [|by apply elem_of_nil in Hr].
      apply list_elem_of_singleton in Hr. by exists c, s.
    + unfold matchJump in Hr. fold (jumpText j) in Hr.
      destruct (fuzzyMatchScore q (jumpText j)) as [s ok] eqn:Hs.
      destruct ok; simpl in Hr; [|by apply elem_of_nil in Hr].
      apply list_elem_of_singleton in Hr. by exists j, s.
  - intros [(c & s & Hc & Hs & ->)|(j & s & Hj & Hs & ->)]; [left|right].
    + exists c. split; [done|]. unfold matchCommand. fold (commandText c).
      rewrite Hs. simpl. by apply list_elem_of_singleton.
    + exists j. split; [done|]. unfold matchJump. fold (jumpText j).
      rewrite Hs. simpl. by apply list_elem_of_singleton.
Qed.

Lemma resultOf_proper q commands jumps r : resultOf q commands jumps r → proper r.
Proof.
  intros [(c & s & _ & _ & ->)|(j & s & _ & _ & ->)]; [left|right]; simpl; eauto.
Qed.

(** X10 — the ranked list of the palette.  The results
    [buildCommandPaletteResults] returns are in rank order: a higher
    score first, among equal scores commands before jumps, commands by
    name and jumps by descending row; so the scores never increase down
    the list.  Every result is a command or a jump that matches the
    trimmed query, a command with 50 added to its score; for a query
    that is not blank every match is in the list, and for a blank one
    the list has at most 20 results. *)
Theorem palette_results_ranked (query : string)
    (commands : list CommandPaletteCommand) (jumps : list CommandPaletteJump) :
  let results := buildCommandPaletteResults query commands jumps in
  StronglySorted ranksBefore results ∧
  (∀ r, r ∈ results → resultOf (TrimSpace query) commands jumps r) ∧
  (TrimSpace query ≠ "" →
   ∀ r, resultOf (TrimSpace query) commands jumps r → r ∈ results) ∧
  (∀ i j a b, (i < j)%nat → results !! i = Some a → results !! j = Some b →
              Score b <= Score a) ∧
  (TrimSpace query = "" → (length results ≤ 20)%nat).
Proof.
  intros results.
  set (matches := paletteMatches (TrimSpace query) commands jumps).
  assert (Forall proper matches) as Hproper.
  { apply Forall_forall. intros r Hr%paletteMatches_elem. by eapply resultOf_proper. }
  assert (sort_Slice resultLess matches = merge_sort ranksBefore matches) as Hsort.
  { unfold sort_Slice. apply (merge_sort_ext _ _ proper); [|done].
    intros a b Ha Hb. by apply resultLess_ranksBefore. }
  assert (StronglySorted ranksBefore (sort_Slice resultLess matches)) as Hsorted.
  { rewrite Hsort. apply StronglySorted_merge_sort; apply _. }
  assert (results = if decide (TrimSpace query = "")
                    then take 20 (sort_Slice resultLess matches)
                    else sort_Slice resultLess matches) as Hresults.
  { subst results. by rewrite buildCommandPaletteResults_unfold. }
  assert (StronglySorted ranksBefore results) as Hranked.
  { rewrite Hresults. destruct (decide _); [|done].
    rewrite <- (take_drop 20 (sort_Slice resultLess matches)) in Hsorted.
    by apply StronglySorted_app_1_l in Hsorted. }
  split; [done|]. split; [|split; [|split]].
  - intros r Hr. apply paletteMatches_elem. fold matches.
    assert (r ∈ sort_Slice resultLess matches) as Hin.
    { rewrite Hresults in Hr. destruct (decide _); [|done].
      apply elem_of_take in Hr as (i & Hi & _). by eapply list_elem_of_lookup_2. }
    unfold sort_Slice in Hin. by rewrite merge_sort_Permutation in Hin.
  - intros Hq r Hr%paletteMatches_elem. rewrite Hresults, decide_False by done.
    unfold sort_Slice. by rewrite merge_sort_Permutation.
  - intros i j a b Hij Hi Hj.
    assert (ranksBefore a b) as Hab.
    { rewrite <- (take_drop_middle results j b Hj) in Hranked, Hi.
      apply StronglySorted_app_1_elem_of with (x1:=a) (x2:=b) in Hranked; [done| |left].
      rewrite lookup_app_l in Hi by (rewrite length_take; apply lookup_lt_Some in Hj; lia).
      by eapply list_elem_of_lookup_2. }
    unfold ranksBefore in Hab. lia.
  - intros Hq. rewrite Hresults, decide_True by done. rewrite length_take. lia.
Qed.

End ranked.

(** ** When the fuzzy match succeeds *)

Lemma greedy_sublist qr tr : greedy qr tr = length qr ↔ qr `sublist_of` tr.
Proof.
  revert qr. induction tr as [|ch rest IH]; intros qr.
  - destruct qr as [|c qr]; simpl.
    + split; [intros _; apply sublist_nil_l|done].
    + split; [done|]. by intros ?%sublist_nil_r.
  - destruct qr as [|c qr']; cbn [greedy length].
    + split; [intros _; apply sublist_nil_l|done].
    + destruct (decide (ch = c)) as [->|Hne].
      * rewrite sublist_cons_r. split.
        -- intros [= Hg]. right. exists qr'. split; [done|]. by apply IH.
        -- intros [Hs|(l' & [= <-] & Hs)]; f_equal; apply IH; [|done].
           etrans; [|exact Hs]. by apply sublist_cons.
      * rewrite sublist_cons_r. rewrite (IH (c :: qr')). cbn [length]. split; [by left|].
        intros [?|(l' & [= ? _] & _)]; [done|congruence].
Qed.

Section fuzzy_match.
Context `{GoLib}.

Lemma matchLoop_qi qr tr i prev st :
  0 <= qi st <= Z.of_nat (length qr) →
  qi (matchLoop qr i prev tr st) =
  qi st + Z.of_nat (greedy (drop (Z.to_nat (qi st)) qr) tr).
Proof.
  revert i prev st. induction tr as [|ch rest IH]; intros i prev st Hq; cbn [matchLoop greedy].
  - lia.
  - unfold matchRune.
    destruct (Z.leb_spec (Z.of_nat (length qr)) (qi st)) as [Hend|Hmore].
    { rewrite drop_ge by lia. lia. }
    destruct (lookup_lt_is_Some_2 qr (Z.to_nat (qi st))) as [c Hc]; [lia|].
    rewrite (drop_S _ _ _ Hc), Hc.
    destruct (decide (ch = c)) as [->|Hne].
    + rewrite bool_decide_eq_true_2 by done. cbn [negb].
      destruct (_ || _), (_ =? _); cbv zeta; rewrite IH; cbn [qi];
        rewrite ?Z2Nat.inj_add by lia; try lia;
        replace (Z.to_nat (qi st) + Z.to_nat 1)%nat with (S (Z.to_nat (qi st))) by lia; lia.
    + rewrite bool_decide_eq_false_2 by congruence. cbn [negb].
      rewrite IH by done. by rewrite (drop_S _ _ _ Hc).
Qed.

(** X11 — when the fuzzy match succeeds.  A match has a score of at
    least 1 and a failure the score 0.  For a query and a target that are
    not blank, [fuzzyMatchScore] succeeds exactly when the folded query is
    a substring of the folded target or its runes are a subsequence of
    the target's.  A substring match scores at most 1200, and 1200 only
    when the two folded texts are equal. *)
Theorem fuzzyMatchScore_matches (query target : string) :
  let q := ToLower (TrimSpace query) in
  let t := ToLower (TrimSpace target) in
  (∀ s ok, fuzzyMatchScore query target = (s, ok) →
           if ok then 1 <= s else s = 0) ∧
  (q ≠ "" → t ≠ "" →
   ((fuzzyMatchScore query target).2 = true ↔
    0 <= Index t q ∨ runes q `sublist_of` runes t)) ∧
  (q ≠ "" → 0 <= Index t q →
   (fuzzyMatchScore query target).1 <= 1200 ∧
   ((fuzzyMatchScore query target).1 = 1200 ↔ Index t q = 0 ∧ len t = len q)).
Proof.
  intros q t. unfold fuzzyMatchScore. fold q t. split; [|split].
  - intros s ok. destruct (decide (q = "")); [by intros [= <- <-]|].
    destruct (decide (t = "")); [by intros [= <- <-]|].
    destruct (0 <=? Index t q).
    { destruct (Z.ltb_spec (1200 - Index t q * 2 - (len t - len q)) 1);
        intros [= <- <-]; lia. }
    destruct (negb _); [by intros [= <- <-]|].
    match goal with |- context [?x <? 1] => destruct (Z.ltb_spec x 1) end;
      intros [= <- <-]; lia.
  - intros Hq Ht. rewrite decide_False, decide_False by done.
    destruct (Z.leb_spec 0 (Index t q)) as [Hidx|Hidx].
    { destruct (_ <? 1); simpl; split; auto. }
    rewrite <- greedy_sublist.
    pose proof (matchLoop_qi (runes q) (runes t) 0 None (mkMatch 0 0 0 (-2))) as Hqi.
    cbn [qi] in Hqi. rewrite drop_0 in Hqi. specialize (Hqi ltac:(lia)).
    destruct (Z.eqb_spec (qi (matchLoop (runes q) 0 None (runes t) (mkMatch 0 0 0 (-2))))
                (Z.of_nat (length (runes q)))) as [Heq|Hne]; cbn [negb].
    + destruct (_ <? 1); simpl; (split; [intros _; right; lia|done]).
    + simpl. split; [done|]. intros [?|Hg]; [lia|]. rewrite Hg in Hqi. lia.
  - intros Hq Hidx. rewrite decide_False by done.
    destruct (decide (t = "")) as [Ht|Ht].
    { exfalso. rewrite Ht in Hidx. unfold Index in Hidx.
      destruct q; [done|]. simpl in Hidx. lia. }
    destruct (Z.leb_spec 0 (Index t q)); [|lia].
    assert (len q <= len t) as Hlen.
    { unfold Index in Hidx. destruct (index_of t q) as [m|] eqn:Hm; [|lia].
      apply index_of_Some in Hm as [_ Hm]. rewrite Hm. rewrite !len_app.
      pose proof (len_nonneg (slice_to m t)).
      pose proof (len_nonneg (slice_from (m + String.length q) t)). lia. }
    destruct (Z.ltb_spec (1200 - Index t q * 2 - (len t - len q)) 1); simpl; lia.
Qed.

End fuzzy_match.

(** ** The command palette while it is open *)

Module PaletteProofs.
Import PaletteModal.

Section modal.
Context `{GoLib}.

Lemma aliasMatches_spec commandToken aliases :
  aliasMatches commandToken aliases = true ↔
  ∃ alias, alias ∈ aliases ∧ ToLower alias = commandToken.
Proof.
  induction aliases as [|alias rest IH]; simpl.
  - split; [done|]. by intros (? & ?%elem_of_nil & _).
  - destruct (decide (ToLower alias = commandToken)) as [Heq|Hne].
    + split; [|done]. intros _. exists alias. split; [left|done].
    + rewrite IH. split.
      * intros (a & Ha & Hl). exists a. split; [by right|done].
      * intros (a & [->|Ha]%elem_of_cons & Hl); [done|]. by exists a.
Qed.

Lemma findCommand_spec commandToken commands :
  match findCommand commandToken commands with
  | Some command =>
      ∃ before after,
        commands = before ++ command :: after ∧
        answersTo commandToken command ∧
        Forall (fun c => ¬ answersTo commandToken c) before
  | None => Forall (fun c => ¬ answersTo commandToken c) commands
  end.
Proof.
  induction commands as [|c rest IH]; simpl; [constructor|].
  destruct (decide (ToLower (Name c) = commandToken)) as [Hname|Hname].
  { exists [], rest. split; [done|]. split; [by left|constructor]. }
  destruct (aliasMatches commandToken (Aliases c)) eqn:Ha.
  { exists [], rest. split; [done|]. split; [|constructor].
    right. by apply aliasMatches_spec. }
  assert (¬ answersTo commandToken c) as Hc.
  { intros [?|Hal]; [done|]. apply aliasMatches_spec in Hal. congruence. }
  destruct (findCommand commandToken rest) as [command|].
  - destruct IH as (before & after & -> & Hans & Hbefore).
    exists (c :: before), after. split; [done|]. split; [done|]. by constructor.
  - by constructor.
Qed.

(** X12 — the command a typed line names.  [parsePaletteCommandInput]
    answers with the first command of the list whose name or one of
    whose aliases is the first word of the line, letter case apart, and
    with the rest of the line, trimmed, as its argument; it answers with
    nothing when the line is blank or no command goes by that word. *)
Theorem parsePaletteCommandInput_first (raw : string)
    (commands : list CommandPaletteCommand) :
  match parsePaletteCommandInput raw commands with
  | Some (command, arg) =>
      ∃ first rest before after,
        TrimSpace raw ≠ "" ∧
        Fields (TrimSpace raw) = first :: rest ∧
        commands = before ++ command :: after ∧
        answersTo (ToLower first) command ∧
        Forall (fun c => ¬ answersTo (ToLower first) c) before ∧
        arg = TrimSpace (TrimPrefix (TrimSpace raw) first)
  | None =>
      TrimSpace raw = "" ∨ Fields (TrimSpace raw) = [] ∨
      ∃ first rest,
        Fields (TrimSpace raw) = first :: rest ∧
        Forall (fun c => ¬ answersTo (ToLower first) c) commands
  end.
Proof.
  unfold parsePaletteCommandInput.
  destruct (decide (TrimSpace raw = "")) as [Hempty|Hne]; [by left|].
  destruct (Fields (TrimSpace raw)) as [|first rest] eqn:Hfields; [by right; left|].
  pose proof (findCommand_spec (ToLower first) commands) as Hfind.
  destruct (findCommand (ToLower first) commands) as [command|].
  - destruct Hfind as (before & after & Hc & Hans & Hbefore).
    by exists first, rest, before, after.
  - right. right. by exists first, rest.
Qed.

Context (commands : list CommandPaletteCommand) (jumps : list CommandPaletteJump).
Context (hasRun : CommandPaletteCommand → bool) (onJump : bool).

Lemma updateResults_spec p :
  let p' := updateResults commands jumps p in
  inputText p' = inputText p ∧
  results p' = buildCommandPaletteResults (inputText p) commands jumps ∧
  selectionValid p' ∧
  selection p' =
    if decide (results p' = []) then 0
    else Z.max 0 (Z.min (Z.of_nat (length (results p')) - 1) (selection p)).
Proof.
  unfold updateResults, selectionValid.
  set (rs := buildCommandPaletteResults (inputText p) commands jumps).
  destruct (decide (length rs = 0%nat)) as [Hn|Hn]; cbn [inputText results selection].
  - apply length_zero_iff_nil in Hn. rewrite Hn, decide_True by done.
    split; [done|]. split; [done|]. split; [by left|done].
  - assert (rs ≠ []) as Hne by (by intros ->).
    destruct (Z.ltb_spec (selection p) 0);
      match goal with |- context [?a <=? ?b] => destruct (Z.leb_spec a b) end;
      cbn [inputText results selection]; rewrite decide_False by done;
      (split; [done|]; split; [done|]; split; [right; lia|lia]).
Qed.

Lemma updateResults_valid p :
  results p = buildCommandPaletteResults (inputText p) commands jumps →
  selectionValid p → updateResults commands jumps p = p.
Proof.
  intros Hr Hv. destruct (updateResults_spec p) as (Ht & Hres & _ & Hsel).
  unfold selectionValid in Hv. cbv zeta in *. rewrite <- Hr in Hres. rewrite Hres in Hsel.
  destruct p as [text rs sel], (updateResults commands jumps _) as [text' rs' sel'].
  cbn [inputText results selection] in *. subst text' rs'. f_equal.
  destruct Hv as [[-> ->]|Hv]; [by rewrite decide_True in Hsel|].
  rewrite decide_False in Hsel by (intros ->; simpl in Hv; lia). lia.
Qed.

Lemma updateResults_settled p : settled commands jumps (updateResults commands jumps p).
Proof.
  destruct (updateResults_spec p) as (Ht & Hres & Hv & _). cbv zeta in *.
  split; [by rewrite Ht|done].
Qed.

Lemma keyStep_settled p k :
  settled commands jumps p → settled commands jumps (keyStep commands jumps p k).
Proof.
  intros Hp. destruct k; cbn [keyStep]; try apply updateResults_settled.
  destruct (decide _); [done|].
  destruct (updateResults_spec (mkPalette text (results p) (selection p)))
    as (Ht & Hres & _ & _).
  cbv zeta in *. split; cbn [inputText results selection]; [by rewrite Ht|].
  unfold selectionValid. cbn [inputText results selection].
  destruct (results (updateResults commands jumps _)) as [|r rs]; [by left|].
  right. simpl. lia.
Qed.

Lemma runKeys_settled p keys :
  settled commands jumps p → settled commands jumps (runKeys commands jumps p keys).
Proof.
  revert p. induction keys as [|k keys IH]; intros p Hp; cbn [runKeys fold_left]; [done|].
  by apply IH, keyStep_settled.
Qed.

(** X13 — the selection of the palette.  Whatever keys the open palette
    has received, its results are those of the text in the input field
    and the selection points into them (or is 0 when there are none).
    Up and Down move the selection by one and stop at the ends, a redraw
    changes nothing, and new text puts the selection on the first
    result.  Enter on a line that names no command acts on the selected
    result: it runs the command, with the typed text as argument only
    when the command accepts one, or jumps to the row of the jump. *)
Theorem palette_selection_valid (keys : list Key) :
  let p := runKeys commands jumps (opened commands jumps) keys in
  results p = buildCommandPaletteResults (inputText p) commands jumps ∧
  selectionValid p ∧
  selection (keyStep commands jumps p KeyUp) = Z.max 0 (selection p - 1) ∧
  selection (keyStep commands jumps p KeyDown) =
    Z.min (Z.max 0 (Z.of_nat (length (results p)) - 1)) (selection p + 1) ∧
  (∀ height, keyStep commands jumps p (Draw height) = p) ∧
  (∀ text, text ≠ inputText p →
     keyStep commands jumps p (KeyInput text) =
     mkPalette text (buildCommandPaletteResults text commands jumps) 0) ∧
  (parsePaletteCommandInput (TrimSpace (inputText p)) commands = None →
   results p ≠ [] →
   ∃ selected,
     results p !! Z.to_nat (selection p) = Some selected ∧
     (∀ command, Command selected = Some command → hasRun command = true →
        ∃ arg, executeSelection commands hasRun onJump p = RunCommand command arg ∧
               (arg = "" ∨ arg = TrimSpace (inputText p) ∧ AcceptsArg command = true)) ∧
     (∀ jump, Command selected = None → Jump selected = Some jump → onJump = true →
        executeSelection commands hasRun onJump p = JumpTo (Row jump))).
Proof.
  intros p.
  assert (settled commands jumps p) as [Hres Hvalid]
    by apply runKeys_settled, updateResults_settled.
  split; [done|]. split; [done|].
  assert (∀ sel, results (updateResults commands jumps (mkPalette (inputText p) (results p) sel))
                 = results p) as Hsame.
  { intros sel. destruct (updateResults_spec (mkPalette (inputText p) (results p) sel))
      as (_ & -> & _). by rewrite Hres. }
  split; [|split; [|split; [|split]]].
  - cbn [keyStep].
    destruct (updateResults_spec (mkPalette (inputText p) (results p) (selection p - 1)))
      as (_ & _ & _ & ->). rewrite Hsame. cbv zeta. cbn [selection].
    destruct Hvalid as [[Hnil Hsel]|Hsel].
    + rewrite decide_True by done. lia.
    + rewrite decide_False by (intros Hnil; rewrite Hnil in Hsel; simpl in Hsel; lia). lia.
  - cbn [keyStep].
    destruct (updateResults_spec (mkPalette (inputText p) (results p) (selection p + 1)))
      as (_ & _ & _ & ->). rewrite Hsame. cbv zeta. cbn [selection].
    destruct Hvalid as [[Hnil Hsel]|Hsel].
    + rewrite decide_True by done. rewrite Hnil. simpl. lia.
    + rewrite decide_False by (intros Hnil; rewrite Hnil in Hsel; simpl in Hsel; lia). lia.
  - intros height. cbn [keyStep]. by apply updateResults_valid.
  - intros text Htext. cbn [keyStep]. rewrite decide_False by done. cbv zeta.
    destruct (updateResults_spec (mkPalette text (results p) (selection p)))
      as (-> & -> & _). done.
  - intros Hparse Hne.
    destruct Hvalid as [[Hnil _]|Hsel]; [done|].
    destruct (lookup_lt_is_Some_2 (results p) (Z.to_nat (selection p))) as [selected Hsd];
      [lia|].
    exists selected. split; [done|].
    assert (executeSelection commands hasRun onJump p =
                    match Command selected with
                    | Some command =>
                        if hasRun command then
                          RunCommand command
                            (if AcceptsArg command
                                && negb (bool_decide (TrimSpace (inputText p) = ""))
                                && negb (Contains (TrimSpace (inputText p)) " ")
                             then TrimSpace (inputText p) else "")
                        else match Jump selected with
                             | Some jump => if onJump then JumpTo (Row jump) else NoAction
                             | None => NoAction
                             end
                    | None => match Jump selected with
                              | Some jump => if onJump then JumpTo (Row jump) else NoAction
                              | None => NoAction
                              end
                    end) as Hexec.
    { unfold executeSelection. rewrite Hparse.
      rewrite decide_False by (by intros ?%length_zero_iff_nil).
      cbv zeta. destruct (Z.ltb_spec (selection p) 0); [lia|].
      destruct (Z.leb_spec (Z.of_nat (length (results p))) (selection p)); [lia|].
      cbn [orb]. by rewrite Hsd. }
    split.
    + intros command Hc Hrun. rewrite Hexec, Hc, Hrun.
      eexists. split; [done|].
      destruct (AcceptsArg command); cbn [andb]; [|by left].
      destruct (negb _ && negb _); [by right|by left].
    + intros jump Hc Hj Hon. by rewrite Hexec, Hc, Hj, Hon.
Qed.

(** X14 — the window the overlay draws.  For a height that is an [int],
    every row the draw function prints is a result of the list, so the
    index [results[row]] is in range; with room for at least one row and
    a list that is not empty the selected result is among the rows
    printed, the window is as long as the room or the list allows, the
    rows are pushed down so that they end above the input line, and a
    list that fits is shown from its start. *)
Theorem palette_window (keys : list Key) (height : Z) :
  let p := runKeys commands jumps (opened commands jumps) keys in
  let n := Z.of_nat (length (results p)) in
  let '(start, visibleCount, ofs) := drawWindow height p in
  isInt height → n <= maxInt →
  (∀ i, 0 <= i < visibleCount →
        0 <= start + i ∧ is_Some (results p !! Z.to_nat (start + i))) ∧
  (2 <= height → results p ≠ [] →
   start <= selection p < start + visibleCount ∧
   visibleCount = Z.min (height - 1) n ∧
   ofs = height - 1 - visibleCount ∧
   (n <= height - 1 → start = 0)).
Proof.
  intros p n.
  assert (settled commands jumps p) as [_ Hvalid]
    by apply runKeys_settled, updateResults_settled.
  unfold drawWindow. fold n. cbv zeta. intros Hheight Hn.
  unfold selectionValid in Hvalid. fold n in Hvalid.
  assert (results p = [] → n = 0) as Hnil by (intros Hr; subst n; by rewrite Hr).
  pose proof (wrap64_range (height - 1)) as HlistH.
  destruct (Z.le_gt_cases (wrap64 (height - 1)) 0) as [Hsmall|Hbig].
  { split.
    - intros i Hi. exfalso.
      match type of Hi with context [if ?c then _ else _] =>
        destruct c eqn:Hc in Hi end; [lia|].
      apply Z.ltb_ge in Hc. lia.
    - intros Hh. rewrite wrap64_id in Hsmall by (unfold isInt, minInt, maxInt in *; lia).
      lia. }
  assert (∀ x, 0 <= x <= maxInt → wrap64 x = x) as Hid.
  { intros x Hx. apply wrap64_id. unfold isInt, minInt, maxInt in *. lia. }
  set (listH := wrap64 (height - 1)) in *.
  unfold isInt, minInt, maxInt in *.
  rewrite (Hid (listH - 1)) by (unfold maxInt; lia).
  assert (∀ i, 0 <= i < n → is_Some (results p !! Z.to_nat i)) as Hlook.
  { intros i Hi. apply lookup_lt_is_Some_2. lia. }
  destruct (Z.ltb_spec listH n) as [Hmany|Hfew].
  - destruct Hvalid as [[Hr _]|Hsel]; [specialize (Hnil Hr); lia|].
    destruct (Z.ltb_spec (selection p) listH) as [Htop|Hlow].
    + rewrite Z.sub_0_r, (Hid n) by (unfold maxInt; lia).
      destruct (Z.ltb_spec listH n); [|lia].
      destruct (Z.ltb_spec listH listH); [lia|].
      split.
      * intros i Hi. split; [lia|]. apply Hlook. lia.
      * intros Hh _. subst listH. rewrite Hid in * by (unfold maxInt; lia). lia.
    + rewrite (Hid (selection p - (listH - 1))) by (unfold maxInt; lia).
      rewrite (Hid (n - (selection p - (listH - 1)))) by (unfold maxInt; lia).
      destruct (Z.ltb_spec listH (n - (selection p - (listH - 1)))).
      * destruct (Z.ltb_spec listH listH); [lia|].
        split.
        -- intros i Hi. split; [lia|]. apply Hlook. lia.
        -- intros Hh _. subst listH. rewrite Hid in * by (unfold maxInt; lia). lia.
      * destruct (Z.ltb_spec (n - (selection p - (listH - 1))) listH).
        -- split.
           ++ intros i Hi. split; [lia|]. apply Hlook. lia.
           ++ intros Hh _. subst listH. rewrite Hid in * by (unfold maxInt; lia). lia.
        -- split.
           ++ intros i Hi. split; [lia|]. apply Hlook. lia.
           ++ intros Hh _. subst listH. rewrite Hid in * by (unfold maxInt; lia). lia.
  - rewrite Z.sub_0_r, (Hid n) by (unfold maxInt; lia).
    destruct (Z.ltb_spec listH n); [lia|].
    destruct (Z.ltb_spec n listH).
    + rewrite (Hid (listH - n)) by (unfold maxInt; lia). split.
      * intros i Hi. split; [lia|]. apply Hlook. lia.
      * intros Hh Hne. subst listH. rewrite Hid in * by (unfold maxInt; lia).
        destruct Hvalid as [[Hr _]|Hsel]; [done|]. lia.
    + split.
      * intros i Hi. split; [lia|]. apply Hlook. lia.
      * intros Hh Hne. subst listH. rewrite Hid in * by (unfold maxInt; lia).
        destruct Hvalid as [[Hr _]|Hsel]; [done|]. lia.
Qed.

End modal.
End PaletteProofs.

(** ** Text helpers of the details view and the drill-down *)

Lemma trimString_shortText s limit : shortText s limit = trimString s limit.
Proof. reflexivity. Qed.

(** X15 — cutting text short.  [trimString] and [shortText] are the same
    function.  Text within the limit, and any text under a limit of 0 or
    less, comes back as it is; longer text under a limit of 3 or more is
    cut to its first [limit - 3] bytes followed by three dots, [limit]
    bytes in all; under a limit of 1 or 2 longer text makes the slice
    expression fail.  The result is never longer than the text. *)
Theorem trimString_cut (s : string) (limit : Z) :
  shortText s limit = trimString s limit ∧
  (limit <= 0 ∨ len s <= limit → trimString s limit = Some s) ∧
  (3 <= limit < len s →
   ∃ rest, s = slice_to (Z.to_nat (limit - 3)) s +:+ rest ∧
           trimString s limit = Some (slice_to (Z.to_nat (limit - 3)) s +:+ "...") ∧
           len (slice_to (Z.to_nat (limit - 3)) s +:+ "...") = limit) ∧
  (0 < limit < 3 → limit < len s → trimString s limit = None) ∧
  (∀ r, trimString s limit = Some r → len r <= len s).
Proof.
  unfold trimString. split; [done|]. split; [|split; [|split]].
  - intros [Hl|Hl].
    + by destruct (Z.leb_spec limit 0); [|lia].
    + destruct (Z.leb_spec limit 0); [done|]. by destruct (Z.leb_spec (len s) limit); [|lia].
  - intros Hl. destruct (Z.leb_spec limit 0); [lia|].
    destruct (Z.leb_spec (len s) limit); [lia|]. cbn [orb].
    destruct (Z.ltb_spec (limit - 3) 0); [lia|].
    exists (slice_from (Z.to_nat (limit - 3)) s). split; [by rewrite slice_to_from|].
    split; [done|]. rewrite len_app. unfold len at 1. rewrite length_slice_to.
    unfold len in *. simpl. lia.
  - intros Hl Hs. destruct (Z.leb_spec limit 0); [lia|].
    destruct (Z.leb_spec (len s) limit); [lia|]. cbn [orb].
    by destruct (Z.ltb_spec (limit - 3) 0); [|lia].
  - intros r. destruct (Z.leb_spec limit 0); [by intros [= <-]|].
    destruct (Z.leb_spec (len s) limit); [by intros [= <-]|]. cbn [orb].
    destruct (Z.ltb_spec (limit - 3) 0); [done|]. intros [= <-].
    rewrite len_app. unfold len at 1. rewrite length_slice_to. unfold len in *. simpl. lia.
Qed.

(** The first slash. *)
Lemma index_of_byte_first s c m :
  index_of s (String c "") = Some m → index_of (slice_to m s) (String c "") = None.
Proof.
  revert m. induction s as [|b s IH]; intros m; cbn [index_of HasPrefix].
  - by intros [= <-].
  - rewrite andb_true_r. destruct (Ascii.eqb c b) eqn:Hcb.
    + by intros [= <-].
    + destruct (index_of s (String c "")) as [k|] eqn:Hk; [|done]. intros [= <-].
      cbn [slice_to index_of HasPrefix]. rewrite andb_true_r, Hcb.
      by rewrite (IH k eq_refl).
Qed.

Lemma index_of_app_first a b c :
  index_of a (String c "") = None →
  index_of (a +:+ String c b) (String c "") = Some (String.length a).
Proof.
  induction a as [|x a IH]; cbn [index_of HasPrefix].
  - intros _. rewrite str_app_nil_l. cbn [index_of HasPrefix].
    by rewrite Ascii.eqb_refl.
  - rewrite andb_true_r. destruct (Ascii.eqb c x) eqn:Hcx; [done|].
    destruct (index_of a (String c "")) eqn:Hi; [done|]. intros _.
    rewrite str_app_cons. cbn [index_of HasPrefix]. rewrite andb_true_r, Hcx.
    by rewrite IH.
Qed.

Section details_proofs.
Context `{GoLib}.

(** X16 — kind and name of a resource.  [splitResource] splits the
    trimmed text at its first slash: the kind is what stands before it
    and holds no slash, the name all that follows, both trimmed and
    neither empty; it fails when there is no slash or one side is
    blank.  A kind without a slash and a name, joined by a slash, are
    given back. *)
Theorem splitResource_first_slash (resource : string) :
  match splitResource resource with
  | Some (kind, name) =>
      kind ≠ "" ∧ name ≠ "" ∧
      ∃ a b, TrimSpace resource = a +:+ "/" +:+ b ∧ index_of a "/" = None ∧
             kind = TrimSpace a ∧ name = TrimSpace b
  | None =>
      index_of (TrimSpace resource) "/" = None ∨
      ∃ a b, TrimSpace resource = a +:+ "/" +:+ b ∧ index_of a "/" = None ∧
             (TrimSpace a = "" ∨ TrimSpace b = "")
  end ∧
  (∀ kind name,
     index_of kind "/" = None →
     TrimSpace (kind +:+ "/" +:+ name) = kind +:+ "/" +:+ name →
     TrimSpace kind = kind → TrimSpace name = name → kind ≠ "" → name ≠ "" →
     splitResource (kind +:+ "/" +:+ name) = Some (kind, name)).
Proof.
  assert (∀ s, SplitN s "/" 2 =
               match index_of s "/" with
               | Some m => [slice_to m s; slice_from (m + 1) s]
               | None => [s]
               end) as Hsplit.
  { intros s. unfold SplitN. change (2 <? 0) with false. cbv iota.
    change (Z.to_nat 2) with 2%nat. cbn [splitn]. by destruct (index_of s "/"). }
  split.
  - unfold splitResource. rewrite Hsplit.
    destruct (index_of (TrimSpace resource) "/") as [m|] eqn:Hm.
    + destruct (index_of_Some _ _ _ Hm) as [_ Hdec].
      pose proof (index_of_byte_first _ _ _ Hm) as Hfirst.
      rewrite decide_False by (by intros ?). unfold part. cbn [lookup list_lookup default id].
      change (String.length "/") with 1%nat in Hdec.
      destruct (decide _) as [Hemp|Hfull].
      * right. by eexists _, _.
      * split; [intros Hk; apply Hfull; by left|].
        split; [intros Hn; apply Hfull; by right|]. by eexists _, _.
    + rewrite decide_True by (simpl; lia). by left.
  - intros kind name Hkind Htrim Hk Hn Hkne Hnne. unfold splitResource.
    rewrite Htrim, Hsplit.
    change ("/" +:+ name) with (String "/" name). rewrite index_of_app_first by done.
    rewrite decide_False by (by intros ?). unfold part. cbn [lookup list_lookup default id].
    rewrite slice_to_app.
    replace (String.length kind + 1)%nat with (String.length (kind +:+ "/"))
      by (rewrite str_length_app; simpl; lia).
    change (String "/" name) with ("/" +:+ name).
    rewrite <- str_app_assoc, slice_from_app, Hk, Hn.
    by rewrite decide_False by (intros [?|?]; done).
Qed.

End details_proofs.

(** ** Jumping to the best match *)

Lemma firstRowByEvent_rows rowOffset rowToVisibleEvent m eventIdx row :
  firstRowByEvent rowOffset rowToVisibleEvent m !! eventIdx = Some row →
  m !! eventIdx = Some row ∨
  rowOffset + 1 <= row <= rowOffset + Z.of_nat (length rowToVisibleEvent) ∧
  rowToVisibleEvent !! Z.to_nat (row - rowOffset - 1) = Some eventIdx.
Proof.
  revert rowOffset m. induction rowToVisibleEvent as [|e rest IH]; intros rowOffset m;
    cbn [firstRowByEvent length]; [by left|].
  intros [Hm|[Hrow Hl]]%IH.
  - destruct (m !! e) eqn:He; [by left|].
    destruct (decide (eventIdx = e)) as [->|Hne].
    + rewrite lookup_insert_eq in Hm. injection Hm as <-. right. split; [lia|].
      by replace (rowOffset + 1 - rowOffset - 1) with 0 by lia.
    + rewrite lookup_insert_ne in Hm by done. by left.
  - right. split; [lia|].
    replace (Z.to_nat (row - rowOffset - 1)) with (S (Z.to_nat (row - (rowOffset + 1) - 1)))
      by lia.
    done.
Qed.

Section jump_proofs.
Context `{GoLib}.

Lemma bestStep_candidate query visibleEvents best entry :
  bestStep query visibleEvents best entry =
  match candidate query visibleEvents entry with
  | None => best
  | Some (row, score) =>
      if (best.1 =? -1) || (best.2 <? score) || ((score =? best.2) && (best.1 <? row))
      then (row, score) else best
  end.
Proof.
  unfold bestStep, candidate. destruct best as [bestRow bestScore], entry as [eventIdx row].
  destruct (_ || _); [done|]. destruct (fuzzyMatchScore _ _) as [score ok].
  by destruct ok.
Qed.

Lemma bestStep_bestOf query visibleEvents seen best entry :
  Forall (fun c => 1 <= c.1) (omap (candidate query visibleEvents) (seen ++ [entry])) →
  bestOf (omap (candidate query visibleEvents) seen) best →
  bestOf (omap (candidate query visibleEvents) (seen ++ [entry]))
         (bestStep query visibleEvents best entry).
Proof.
  rewrite bestStep_candidate, omap_app.
  change (omap (candidate query visibleEvents) [entry])
    with (match candidate query visibleEvents entry with Some c => [c] | None => [] end).
  destruct (candidate query visibleEvents entry) as [[row score]|].
  2:{ rewrite ?app_nil_r. auto. }
  intros Hpos Hbest. apply Forall_app in Hpos as [Hseen Hc].
  apply Forall_singleton in Hc. cbn [fst] in Hc.
  destruct Hbest as [[-> ->]|[Hin Hmax]].
  - cbn [fst snd app]. change (-1 =? -1) with true. cbn [orb]. right.
    split; [left|]. intros c ->%list_elem_of_singleton. unfold noBetter. lia.
  - assert (1 <= best.1) as Hb.
    { rewrite Forall_forall in Hseen. by apply Hseen. }
    destruct best as [bestRow bestScore]. cbn [fst snd] in *.
    destruct (Z.eqb_spec bestRow (-1)); [lia|]. cbn [orb].
    destruct (Z.ltb_spec bestScore score) as [Hlt|Hge]; cbn [orb].
    + right. split; [apply elem_of_app; right; left|].
      intros c [Hc'| ->%list_elem_of_singleton]%elem_of_app.
      * specialize (Hmax c Hc'). unfold noBetter in *. cbn [fst snd] in *. lia.
      * unfold noBetter. lia.
    + destruct (Z.eqb_spec score bestScore) as [Heq|Hne]; cbn [andb].
      * destruct (Z.ltb_spec bestRow row) as [Hr|Hr].
        -- right. split; [apply elem_of_app; right; left|].
           intros c [Hc'| ->%list_elem_of_singleton]%elem_of_app.
           ++ specialize (Hmax c Hc'). unfold noBetter in *. cbn [fst snd] in *. lia.
           ++ unfold noBetter. lia.
        -- right. split; [apply elem_of_app; by left|].
           intros c [Hc'| ->%list_elem_of_singleton]%elem_of_app; [by apply Hmax|].
           unfold noBetter. cbn [fst snd]. lia.
      * right. split; [apply elem_of_app; by left|].
        intros c [Hc'| ->%list_elem_of_singleton]%elem_of_app; [by apply Hmax|].
        unfold noBetter. cbn [fst snd]. lia.
Qed.

Lemma bestMatch_bestOf query visibleEvents entries :
  Forall (fun c => 1 <= c.1) (omap (candidate query visibleEvents) entries) →
  bestOf (omap (candidate query visibleEvents) entries)
         (fold_left (bestStep query visibleEvents) entries (-1, 0)).
Proof.
  induction entries as [|entry entries IH] using rev_ind; intros Hpos.
  - by left.
  - rewrite fold_left_app. cbn [fold_left]. apply bestStep_bestOf; [done|].
    apply IH. rewrite omap_app in Hpos. by apply Forall_app in Hpos as [? _].
Qed.

Lemma bestOf_unique cs cs' best best' :
  cs ≡ₚ cs' → bestOf cs best → bestOf cs' best' → best = best'.
Proof.
  intros Hp [[-> ->]|[Hin Hmax]] [[-> ->]|[Hin' Hmax']].
  - done.
  - apply Permutation_nil_l in Hp. subst. by apply elem_of_nil in Hin'.
  - symmetry in Hp. apply Permutation_nil_l in Hp. subst. by apply elem_of_nil in Hin.
  - rewrite Hp in Hin. rewrite <- Hp in Hin'.
    specialize (Hmax best' Hin'). specialize (Hmax' best Hin).
    destruct best, best'. unfold noBetter in *. cbn [fst snd] in *.
    f_equal; lia.
Qed.

Lemma candidate_entry query visibleEvents (entries : list (Z * Z)) c :
  c ∈ omap (candidate query visibleEvents) entries →
  ∃ eventIdx, (eventIdx, c.1) ∈ entries ∧
              candidate query visibleEvents (eventIdx, c.1) = Some c.
Proof.
  rewrite list_elem_of_omap. intros ([eventIdx row] & Hin & Hc).
  assert (row = c.1) as ->.
  { unfold candidate in Hc. destruct (_ || _); [done|].
    destruct (fuzzyMatchScore _ _) as [score ok]. destruct ok; [|done].
    by injection Hc as <-. }
  by exists eventIdx.
Qed.

(** X17 — jumping to the best match.  The result of [jumpToBestMatch]
    does not depend on the order in which the map of first rows is
    walked.  A blank query selects nothing; otherwise it fails exactly
    when no visible event matches, and else selects the first row of the
    matching event with the highest score, the later row among equal
    scores; that row is a row of the table below the header, so
    [selectTableRow] selects it. *)
Theorem jumpToBestMatch_best (raw : string) (rowToVisibleEvent : list Z)
    (visibleEvents : list string) (order order' : list (Z * Z)) (table : Table) :
  let m := firstRowByEvent 0 rowToVisibleEvent ∅ in
  let cs := omap (candidate (TrimSpace raw) visibleEvents) (map_to_list m) in
  order ≡ₚ map_to_list m → order' ≡ₚ map_to_list m →
  jumpToBestMatch raw visibleEvents order table =
  jumpToBestMatch raw visibleEvents order' table ∧
  (TrimSpace raw = "" → jumpToBestMatch raw visibleEvents order table = (table, false)) ∧
  (TrimSpace raw ≠ "" →
   if (jumpToBestMatch raw visibleEvents order table).2 then
     ∃ row score,
       (row, score) ∈ cs ∧ (∀ c, c ∈ cs → noBetter c (row, score)) ∧
       1 <= row <= Z.of_nat (length rowToVisibleEvent) ∧
       (jumpToBestMatch raw visibleEvents order table).1 = selectTableRow row table ∧
       (GetRowCount table = 1 + Z.of_nat (length rowToVisibleEvent) →
        selectTableRow row table = Select row table)
   else cs = [] ∧ (jumpToBestMatch raw visibleEvents order table).1 = table).
Proof.
  intros m cs Horder Horder'.
  assert (∀ c, c ∈ cs → 1 <= c.1 <= Z.of_nat (length rowToVisibleEvent)) as Hrows.
  { intros c (eventIdx & Hin & _)%candidate_entry.
    apply elem_of_map_to_list in Hin.
    apply firstRowByEvent_rows in Hin as [Hin|[Hin _]]; [by rewrite lookup_empty in Hin|].
    lia. }
  assert (∀ entries, entries ≡ₚ map_to_list m →
            bestOf cs (fold_left (bestStep (TrimSpace raw) visibleEvents) entries (-1, 0)))
    as Hbest.
  { intros entries Hp.
    assert (omap (candidate (TrimSpace raw) visibleEvents) entries ≡ₚ cs) as Hcs
      by (subst cs; by rewrite Hp).
    pose proof (bestMatch_bestOf (TrimSpace raw) visibleEvents entries) as Hb.
    destruct Hb as [[Hnil Hb]|[Hin Hmax]].
    - apply Forall_forall. intros c Hc. rewrite Hcs in Hc. by apply Hrows.
    - left. split; [|done]. rewrite Hnil in Hcs. by apply Permutation_nil_l in Hcs.
    - right. split; [by rewrite <- Hcs|]. intros c Hc. apply Hmax. by rewrite Hcs. }
  assert (fold_left (bestStep (TrimSpace raw) visibleEvents) order (-1, 0) =
          fold_left (bestStep (TrimSpace raw) visibleEvents) order' (-1, 0)) as Heq.
  { eapply bestOf_unique; [reflexivity|by apply Hbest..]. }
  unfold jumpToBestMatch. rewrite <- Heq. split; [done|]. split.
  - intros Hq. by rewrite decide_True.
  - intros Hq. rewrite decide_False by done.
    specialize (Hbest order Horder).
    destruct (fold_left _ order (-1, 0)) as [bestRow bestScore].
    destruct Hbest as [[Hnil [= -> ->]]|[Hin Hmax]].
    + done.
    + specialize (Hrows _ Hin). cbn [fst] in Hrows.
      destruct (Z.leb_spec bestRow 0); [lia|]. cbn [fst snd].
      exists bestRow, bestScore. split; [done|]. split; [done|]. split; [done|].
      split; [done|]. intros Hcount. unfold selectTableRow.
      destruct (Z.leb_spec bestRow 0); [lia|].
      destruct (Z.leb_spec (GetRowCount table) bestRow); [lia|]. done.
Qed.

End jump_proofs.

(** ** The log behind the view *)

Module TUILogProofs.
Import TUI TUIView TUILog TUIProofs TUIViewProofs.

Section callbacks.
Context `{GoLib} (env : Env).

Lemma refreshTable_log st :
  visibleEvents (refreshTable st) = filterEvents (displayEvents st) (filterText st) ∧
  allEvents (refreshTable st) = allEvents st ∧
  aggregateMode (refreshTable st) = aggregateMode st.
Proof.
  unfold refreshTable, displayEvents. destruct (renderTable _ _ _ _ _ _).
  by autorewrite with ui_fields view_fields.
Qed.

Lemma updateTableTitle_log st :
  visibleEvents (updateTableTitle st) = visibleEvents st ∧
  allEvents (updateTableTitle st) = allEvents st ∧
  aggregateMode (updateTableTitle st) = aggregateMode st.
Proof.
  unfold updateTableTitle. destruct (autoScroll st); by autorewrite with ui_fields view_fields.
Qed.

Lemma logView_ext st st' :
  visibleEvents st' = visibleEvents st → allEvents st' = allEvents st →
  aggregateMode st' = aggregateMode st → logView st → logView st'.
Proof. unfold logView, displayEvents. by intros -> -> ->. Qed.

Lemma refreshTable_logView st : logView (refreshTable st).
Proof.
  destruct (refreshTable_log st) as (Hv & Ha & Hg).
  unfold logView. rewrite Hv. unfold displayEvents at 2. rewrite Ha, Hg.
  unfold filterEvents. apply sublist_filter.
Qed.

Ltac same_log :=
  repeat first
    [ rewrite (proj1 (updateTableTitle_log _))
    | rewrite (proj1 (proj2 (updateTableTitle_log _)))
    | rewrite (proj2 (proj2 (updateTableTitle_log _)))
    | progress autorewrite with ui_fields view_fields ];
  try reflexivity.

Ltac name_state :=
  match goal with
  | |- context [refreshTable ?st] => assert_fails (is_var st); generalize st; intro
  end.

Ltac log_refreshed := eapply logView_ext; [same_log ..|apply refreshTable_logView].
Ltac log_same H := eapply logView_ext; [same_log ..|exact H].

Lemma updateNamespace_logView newNS st : logView (updateNamespace env newNS st).
Proof. unfold updateNamespace. cbv zeta. name_state. log_refreshed. Qed.

Lemma handleRune_logView r st : logView st → logView (handleRune env r st).
Proof.
  intros Hinv. unfold handleRune, selectLast.
  repeat (destruct (decide _) as [_|_]); cbv zeta; try name_state;
    repeat match goal with
           | |- context [if ?c then _ else _] => destruct c
           | |- context [match ?o with Some _ => _ | None => _ end] => destruct o
           end;
    first [ exact Hinv | apply updateNamespace_logView | apply refreshTable_logView
          | log_refreshed | log_same Hinv ].
Qed.

Lemma onWatchEvent_logView generation event st :
  logView st → logView (onWatchEvent generation event st).
Proof.
  intros Hinv. unfold onWatchEvent.
  destruct (decide (generation ≠ watchGeneration st)); [done|].
  destruct (autoScroll st); [|done].
  cbv zeta. autorewrite with view_fields.
  destruct (aggregateMode st || wrapMessages st) eqn:Hmode.
  { name_state. repeat case_match; log_refreshed. }
  apply orb_false_iff in Hmode as [Hagg Hwrap].
  autorewrite with ui_fields view_fields.
  assert (∀ st', visibleEvents st' = visibleEvents st →
                 allEvents st' = allEvents st ++ [eventLine event] →
                 aggregateMode st' = aggregateMode st → logView st') as Hgrow.
  { intros st' Hv Ha Hg. unfold logView, displayEvents in *. rewrite Hv, Ha, Hg, Hagg in *.
    by apply sublist_inserts_r. }
  assert (∀ st', visibleEvents st' = visibleEvents st ++ [eventLine event] →
                 allEvents st' = allEvents st ++ [eventLine event] →
                 aggregateMode st' = aggregateMode st → logView st') as Hboth.
  { intros st' Hv Ha Hg. unfold logView, displayEvents in *. rewrite Hv, Ha, Hg, Hagg in *.
    by apply sublist_app. }
  destruct (matchesFilter _ _ && _).
  - destruct (decide _); apply Hboth; by autorewrite with ui_fields view_fields.
  - apply Hgrow; by autorewrite with ui_fields view_fields.
Qed.

Lemma step_logView st m : logView st → logView (step env st m).
Proof.
  intros Hinv. destruct m; cbn [step].
  - apply updateNamespace_logView.
  - by apply handleRune_logView.
  - log_same Hinv.
  - unfold selectLast. log_same Hinv.
  - log_same Hinv.
  - unfold filterDone. cbv zeta. name_state. log_refreshed.
  - by apply onWatchEvent_logView.
  - unfold onWatchError. case_match; [done|]. log_same Hinv.
  - log_same Hinv.
Qed.

End callbacks.

(** X18 — what is visible comes from the log.  In every state the update
    loop reaches, the visible events are lines of the log, or of the
    aggregated log in aggregate mode, in the order they have there: the
    table never shows a line the log does not hold; and a refresh makes
    them exactly the lines of that list that pass the filter. *)
Theorem visible_from_log `{GoLib} (env : Env) (ns : string) (trace : list Msg) :
  let st := run env (startUI env ns) trace in
  visibleEvents st `sublist_of`
    (if aggregateMode st then aggregateEvents (allEvents st) else allEvents st) ∧
  (∀ st', visibleEvents (refreshTable st') =
          filterEvents (if aggregateMode st' then aggregateEvents (allEvents st')
                        else allEvents st') (filterText st')).
Proof.
  intros st.
  assert (logView st) as Hlog.
  { subst st. generalize (updateNamespace_logView env ns (updateTableTitle (initial ns))).
    fold (startUI env ns). generalize (startUI env ns).
    induction trace as [|m trace IH]; intros st0 Hst0; cbn [run fold_left]; [done|].
    by apply IH, step_logView. }
  split; [exact Hlog|].
  intros st'. by destruct (refreshTable_log st') as [? _].
Qed.

End TUILogProofs.

(** ** Themes of the configuration *)

Module ConfigProofs.
Import Config.

Section themes.
Context `{GoLib} (EqualFold : string → string → bool).

Lemma find_preset (P : Theme → bool) theme :
  find P predefinedThemes = Some theme → theme ∈ predefinedThemes.
Proof. intros Hfind. apply find_some in Hfind as [Hin _]. by apply list_elem_of_In. Qed.

Lemma preset_colours theme :
  theme ∈ predefinedThemes →
  Name theme ≠ "" ∧ BackgroundColor theme ≠ "" ∧ TextColor theme ≠ "".
Proof.
  revert theme. apply Forall_forall. unfold predefinedThemes.
  repeat (apply Forall_cons; split; [done|]). apply Forall_nil_2.
Qed.

Lemma ThemeByName_preset name preset :
  ThemeByName EqualFold name = Some preset → preset ∈ predefinedThemes.
Proof. unfold ThemeByName. destruct (decide _); [done|]. apply find_preset. Qed.

Lemma themeNameByColors_name bg fg :
  themeNameByColors EqualFold bg fg = "" ∨ themeNameByColors EqualFold bg fg ∈ ThemeNames.
Proof.
  unfold themeNameByColors.
  destruct (find _ _) as [theme|] eqn:Hfind; [right|by left].
  unfold ThemeNames. apply list_elem_of_fmap. exists theme. split; [done|].
  by apply find_preset in Hfind.
Qed.

(** X19 — themes after [ResolveTheme].  A resolved theme has a background
    and a text colour, and so has the theme of the configuration [Load]
    returns, whatever the file holds.  Its name is empty, the name of a
    built-in theme, or the blank name it came with.  It is a built-in
    theme, or no built-in theme goes by its name and it keeps the colours
    it came with, the defaults standing in for the empty ones. *)
Theorem ResolveTheme_colours (theme : Theme) (file : option Config) :
  let resolved := ResolveTheme EqualFold theme in
  BackgroundColor resolved ≠ "" ∧ TextColor resolved ≠ "" ∧
  (Name resolved = "" ∨ Name resolved ∈ ThemeNames ∨
   (Name resolved = Name theme ∧ TrimSpace (Name theme) = "")) ∧
  (resolved ∈ predefinedThemes ∨
   (ThemeByName EqualFold (Name theme) = None ∧
    BackgroundColor resolved =
      (if decide (BackgroundColor theme = "") then "#000000" else BackgroundColor theme) ∧
    TextColor resolved =
      (if decide (TextColor theme = "") then "#ffffff" else TextColor theme))) ∧
  BackgroundColor (ConfigTheme (Load EqualFold file)) ≠ "" ∧
  TextColor (ConfigTheme (Load EqualFold file)) ≠ "".
Proof.
  assert (∀ theme,
    let resolved := ResolveTheme EqualFold theme in
    BackgroundColor resolved ≠ "" ∧ TextColor resolved ≠ "" ∧
    (Name resolved = "" ∨ Name resolved ∈ ThemeNames ∨
     (Name resolved = Name theme ∧ TrimSpace (Name theme) = "")) ∧
    (resolved ∈ predefinedThemes ∨
     (ThemeByName EqualFold (Name theme) = None ∧
      BackgroundColor resolved =
        (if decide (BackgroundColor theme = "") then "#000000" else BackgroundColor theme) ∧
      TextColor resolved =
        (if decide (TextColor theme = "") then "#ffffff" else TextColor theme)))) as Hresolve.
  { clear theme. intros theme resolved. subst resolved. unfold ResolveTheme.
    destruct (ThemeByName EqualFold (Name theme)) as [preset|] eqn:Hname.
    { apply ThemeByName_preset in Hname. destruct (preset_colours preset Hname) as (? & ? & ?).
      repeat split; try done; [|by left]. right; left.
      unfold ThemeNames. apply list_elem_of_fmap. by exists preset. }
    cbv zeta. destruct theme as [name bg fg]. cbn [Name BackgroundColor TextColor].
    cbn [Default ConfigTheme BackgroundColor TextColor].
    pose proof (themeNameByColors_name) as Hcolours.
    destruct (decide (TrimSpace name ≠ "")) as [Hblank|Hblank];
      cbn [Name BackgroundColor TextColor];
      destruct (decide (bg = "")); cbn [Name BackgroundColor TextColor];
      destruct (decide (fg = "")); cbn [Name BackgroundColor TextColor];
      repeat match goal with
             | |- context [decide (?a = "")] =>
                 destruct (decide (a = "")); cbn [Name BackgroundColor TextColor]
             | |- context [decide (?a ≠ "")] =>
                 destruct (decide (a ≠ "")); cbn [Name BackgroundColor TextColor]
             end;
      repeat split; try done;
      try (right; by repeat split);
      try (by left);
      try (right; left;
           match goal with
           | |- themeNameByColors _ ?b ?f ∈ _ => by destruct (Hcolours b f)
           end);
      try (right; right; split; [done|]; by apply dec_stable). }
  intros resolved. destruct (Hresolve theme) as (H1 & H2 & H3 & H4).
  repeat split; try done; destruct file as [cfg|]; cbn [Load ConfigTheme]; try done;
    by destruct (Hresolve (ConfigTheme cfg)) as (? & ? & _).
Qed.

End themes.
End ConfigProofs.

(** ** The jump targets of the palette *)

Lemma firstRowByEvent_first rowOffset rowToVisibleEvent m eventIdx row :
  firstRowByEvent rowOffset rowToVisibleEvent m !! eventIdx = Some row →
  m !! eventIdx = Some row ∨
  m !! eventIdx = None ∧
  ∀ k : nat, Z.of_nat k < row - rowOffset - 1 → rowToVisibleEvent !! k ≠ Some eventIdx.
Proof.
  revert rowOffset m. induction rowToVisibleEvent as [|e rest IH]; intros rowOffset m;
    cbn [firstRowByEvent]; [by left|].
  intros [Hm|[Hm Hk]]%IH.
  - destruct (m !! e) eqn:He; [by left|].
    destruct (decide (eventIdx = e)) as [->|Hne].
    + rewrite lookup_insert_eq in Hm. injection Hm as <-. right. split; [done|].
      intros k Hk. lia.
    + rewrite lookup_insert_ne in Hm by done. by left.
  - right.
    assert (m !! eventIdx = None ∧ e ≠ eventIdx) as [Hnone Hne].
    { destruct (m !! e) eqn:He; [split; [done|congruence]|].
      destruct (decide (e = eventIdx)) as [->|Hne]; [by rewrite lookup_insert_eq in Hm|].
      by rewrite lookup_insert_ne in Hm. }
    split; [done|]. intros [|k] Hlt; cbn [lookup list_lookup]; [congruence|].
    apply Hk. lia.
Qed.

Lemma firstRowByEvent_complete rowOffset rowToVisibleEvent m eventIdx :
  is_Some (m !! eventIdx) ∨ eventIdx ∈ rowToVisibleEvent →
  is_Some (firstRowByEvent rowOffset rowToVisibleEvent m !! eventIdx).
Proof.
  revert rowOffset m. induction rowToVisibleEvent as [|e rest IH]; intros rowOffset m;
    cbn [firstRowByEvent].
  - intros [?|Hin]; [done|]. by apply elem_of_nil in Hin.
  - intros Hin. apply IH.
    destruct (decide (eventIdx = e)) as [->|Hne].
    + left. destruct (m !! e) eqn:He; [by rewrite He|]. by rewrite lookup_insert_eq.
    + destruct Hin as [Hin|Hin].
      * left. destruct (m !! e); [done|]. by rewrite lookup_insert_ne.
      * apply elem_of_cons in Hin as [?|?]; [done|by right].
Qed.

Lemma firstRowByEvent_firstRowOf rowToVisibleEvent eventIdx row :
  firstRowByEvent 0 rowToVisibleEvent ∅ !! eventIdx = Some row ↔
  firstRowOf rowToVisibleEvent eventIdx row.
Proof.
  split.
  - intros Hm. unfold firstRowOf.
    pose proof (firstRowByEvent_rows _ _ _ _ _ Hm) as [Hm'|[Hrow Hl]];
      [by rewrite lookup_empty in Hm'|].
    pose proof (firstRowByEvent_first _ _ _ _ _ Hm) as [Hm'|[_ Hk]];
      [by rewrite lookup_empty in Hm'|].
    split; [lia|]. split.
    + by replace (row - 1) with (row - 0 - 1) by lia.
    + intros k Hlt. apply Hk. lia.
  - intros (Hrow & Hl & Hk).
    destruct (firstRowByEvent_complete 0 rowToVisibleEvent ∅ eventIdx) as [row' Hm].
    { right. by eapply list_elem_of_lookup_2. }
    rewrite Hm. f_equal.
    pose proof (firstRowByEvent_rows _ _ _ _ _ Hm) as [Hm'|[Hrow' Hl']];
      [by rewrite lookup_empty in Hm'|].
    pose proof (firstRowByEvent_first _ _ _ _ _ Hm) as [Hm'|[_ Hk']];
      [by rewrite lookup_empty in Hm'|].
    destruct (Z.lt_trichotomy row row') as [Hlt|[?|Hlt]]; [|done|].
    + exfalso. apply (Hk' (Z.to_nat (row - 1))); [lia|done].
    + exfalso. apply (Hk (Z.to_nat (row' - 1))); [lia|].
      by replace (row' - 1) with (row' - 0 - 1) by lia.
Qed.

Lemma shortText_fits value max :
  3 <= max → ∃ r, shortText value max = Some r ∧ len r <= Z.max (len value) 0 ∧
                  (len r <= max).
Proof.
  intros Hmax. unfold shortText.
  destruct (Z.leb_spec max 0); [lia|].
  destruct (Z.leb_spec (len value) max); cbn [orb].
  - exists value. split; [done|]. pose proof (len_nonneg value). lia.
  - destruct (Z.ltb_spec (max - 3) 0); [lia|].
    eexists. split; [done|]. rewrite len_app. unfold len in *.
    rewrite length_slice_to. simpl. lia.
Qed.

Lemma StronglySorted_strict {A} (R R' : relation A) l :
  (∀ x y, x ∈ l → y ∈ l → x ≠ y → R x y → R' x y) →
  NoDup l → StronglySorted R l → StronglySorted R' l.
Proof.
  intros HR Hnd Hs. induction Hs as [|x l Hs IH Hx]; [constructor|].
  apply NoDup_cons in Hnd as [Hx' Hnd]. constructor.
  - apply IH; [|done]. intros a b Ha Hb. apply HR; by right.
  - rewrite Forall_forall in *. intros y Hy. apply HR; [by left|by right| |by apply Hx].
    intros ->. done.
Qed.

Section jump_targets_proofs.
Context `{GoLib}.

Lemma jumpTarget_Some visibleEvents firstRows eventIdx event :
  0 <= eventIdx → visibleEvents !! Z.to_nat eventIdx = Some event →
  ∃ jump, jumpTarget visibleEvents firstRows eventIdx = Some jump ∧
          Row jump = default 0 (firstRows !! eventIdx) ∧
          Search jump = TrimSpace event ∧ len (Label jump) <= 120.
Proof.
  intros Hidx Hevent. unfold jumpTarget.
  destruct (Z.ltb_spec eventIdx 0); [lia|]. rewrite Hevent. cbn [mbind option_bind].
  destruct (shortText_fits (TrimSpace event) 120) as (label & -> & _ & Hlabel); [lia|].
  cbn [mbind option_bind]. cbv zeta.
  destruct (decide _); [|by eexists].
  match goal with
  | |- context [shortText ?x 120 ≫= _] =>
      destruct (shortText_fits x 120) as (label' & -> & _ & Hlabel'); [lia|]
  end.
  cbn [mbind option_bind].
  match goal with
  | |- context [shortText ?x 120 ≫= _] =>
      destruct (shortText_fits x 120) as (detail' & -> & _ & _); [lia|]
  end.
  cbn [mbind option_bind]. by eexists.
Qed.

Lemma jumpTarget_event visibleEvents firstRows eventIdx jump :
  jumpTarget visibleEvents firstRows eventIdx = Some jump →
  ∃ event, 0 <= eventIdx ∧ visibleEvents !! Z.to_nat eventIdx = Some event.
Proof.
  unfold jumpTarget. destruct (Z.ltb_spec eventIdx 0); [done|].
  destruct (visibleEvents !! Z.to_nat eventIdx) as [event|]; [|done].
  intros _. by exists event.
Qed.

Lemma map_keys_elem (m : gmap Z Z) (order : list Z) e :
  order ≡ₚ (map_to_list m).*1 → e ∈ order ↔ is_Some (m !! e).
Proof.
  intros ->. rewrite list_elem_of_fmap. split.
  - intros ([k v] & -> & Hin). apply elem_of_map_to_list in Hin. by exists v.
  - intros [v Hv]. exists (e, v). split; [done|]. by apply elem_of_map_to_list.
Qed.

(** X20 — the jump targets of the palette.  [buildJumpTargets] never
    fails and does not depend on the order in which the map of first
    rows is walked.  It returns one jump for every visible event that
    has rows, the later rows first; the row of a jump is the first row
    of its event, a row of the table below the header that
    [selectTableRow] selects, its search text is the trimmed line of the
    event and its label has at most 120 bytes. *)
Theorem buildJumpTargets_rows (rowToVisibleEvent : list Z) (visibleEvents : list string)
    (order order' : list Z) (table : Table) :
  let firstRows := firstRowByEvent 0 rowToVisibleEvent ∅ in
  order ≡ₚ (map_to_list firstRows).*1 → order' ≡ₚ (map_to_list firstRows).*1 →
  ∃ jumps,
    buildJumpTargets rowToVisibleEvent visibleEvents order = Some jumps ∧
    buildJumpTargets rowToVisibleEvent visibleEvents order' = Some jumps ∧
    StronglySorted (fun a b => Row b < Row a) jumps ∧
    (∀ jump, jump ∈ jumps →
       ∃ eventIdx event,
         firstRowOf rowToVisibleEvent eventIdx (Row jump) ∧
         0 <= eventIdx ∧ visibleEvents !! Z.to_nat eventIdx = Some event ∧
         Search jump = TrimSpace event ∧ len (Label jump) <= 120 ∧
         (GetRowCount table = 1 + Z.of_nat (length rowToVisibleEvent) →
          selectTableRow (Row jump) table = Select (Row jump) table)) ∧
    (∀ eventIdx event,
       eventIdx ∈ rowToVisibleEvent → 0 <= eventIdx →
       visibleEvents !! Z.to_nat eventIdx = Some event →
       ∃ jump, jump ∈ jumps ∧ firstRowOf rowToVisibleEvent eventIdx (Row jump) ∧
               Search jump = TrimSpace event).
Proof.
  intros m Horder Horder'.
  set (rowOf := fun e : Z => default 0 (m !! e)).
  set (less := fun a b : Z => rowOf b <? rowOf a).
  set (inRange := fun e : Z => 0 <= e ∧ e < Z.of_nat (length visibleEvents)).
  assert (Transitive (notAfter less)) as Htrans.
  { intros a b c. unfold notAfter, less. rewrite !Z.ltb_ge. lia. }
  assert (Total (notAfter less)) as Htotal.
  { intros a b. unfold notAfter, less. rewrite !Z.ltb_ge. lia. }
  assert (∀ a b, is_Some (m !! a) → is_Some (m !! b) → rowOf a = rowOf b → a = b) as Hinj.
  { intros a b [ra Ha] [rb Hb]. unfold rowOf. rewrite Ha, Hb. cbn [default id]. intros ->.
    apply firstRowByEvent_firstRowOf in Ha as (_ & Ha & _).
    apply firstRowByEvent_firstRowOf in Hb as (_ & Hb & _). congruence. }
  assert (∀ entries, entries ≡ₚ (map_to_list m).*1 →
            let sorted := sort_Slice less (filter inRange entries) in
            StronglySorted (notAfter less) sorted ∧ NoDup sorted ∧
            ∀ e, e ∈ sorted ↔ inRange e ∧ is_Some (m !! e)) as Hsorted.
  { intros entries Hentries sorted. subst sorted. unfold sort_Slice. split; [|split].
    - by apply StronglySorted_merge_sort.
    - rewrite merge_sort_Permutation. apply NoDup_filter. rewrite Hentries.
      apply NoDup_fst_map_to_list.
    - intros e. rewrite merge_sort_Permutation, list_elem_of_filter.
      by rewrite (map_keys_elem m entries e Hentries). }
  destruct (Hsorted order Horder) as (Hs & Hnd & Hin).
  destruct (Hsorted order' Horder') as (Hs' & _ & Hin').
  assert (sort_Slice less (filter inRange order) = sort_Slice less (filter inRange order'))
    as Hsame.
  { apply (StronglySorted_unique_strong (notAfter less)); [|done|done|].
    - intros a b [_ Ha]%Hin [_ Hb]%Hin' Hab Hba.
      unfold notAfter, less in Hab, Hba. rewrite Z.ltb_ge in Hab, Hba.
      apply Hinj; [done|done|lia].
    - unfold sort_Slice. rewrite !merge_sort_Permutation. by rewrite Horder, Horder'. }
  assert (StronglySorted (fun a b => rowOf b < rowOf a)
            (sort_Slice less (filter inRange order))) as Hstrict.
  { apply (StronglySorted_strict (notAfter less)); [|done|done].
    intros a b [_ Ha]%Hin [_ Hb]%Hin Hne Hab.
    unfold notAfter, less in Hab. rewrite Z.ltb_ge in Hab.
    destruct (decide (rowOf a = rowOf b)) as [Heq|Hneq]; [|lia].
    by apply Hinj in Heq. }
  assert (∀ entries,
            buildJumpTargets rowToVisibleEvent visibleEvents entries =
            mapM (jumpTarget visibleEvents m) (sort_Slice less (filter inRange entries)))
    as Hunfold by reflexivity.
  rewrite !Hunfold, <- Hsame. clear Hunfold. clear Hsame Hs' Hin' Hsorted Horder'.
  revert Hs Hnd Hin Hstrict. generalize (sort_Slice less (filter inRange order)).
  intros sorted _ _ Hin Hstrict.
  assert (∀ e, e ∈ sorted →
            ∃ jump event row,
              jumpTarget visibleEvents m e = Some jump ∧ m !! e = Some row ∧
              Row jump = row ∧ rowOf e = row ∧ 0 <= e ∧
              visibleEvents !! Z.to_nat e = Some event ∧
              Search jump = TrimSpace event ∧ len (Label jump) <= 120) as Htarget.
  { intros e [[Hlo Hhi] [row Hrow]]%Hin.
    destruct (lookup_lt_is_Some_2 visibleEvents (Z.to_nat e)) as [event Hevent]; [lia|].
    destruct (jumpTarget_Some visibleEvents m e event Hlo Hevent)
      as (jump & Hjump & Hr & Hsearch & Hlabel).
    exists jump, event, row. rewrite Hr. unfold rowOf. rewrite Hrow. by cbn [default id]. }
  assert (∃ jumps, Forall2 (fun e jump => jumpTarget visibleEvents m e = Some jump)
                     sorted jumps) as [jumps Hjumps].
  { clear Hin Hstrict. induction sorted as [|e sorted IH]; [by exists []|].
    destruct IH as [jumps Hjumps]; [intros e' He'; apply Htarget; by right|].
    destruct (Htarget e) as (jump & _ & _ & Hjump & _); [by left|].
    exists (jump :: jumps). by constructor. }
  exists jumps. apply mapM_Some_2 in Hjumps as Hmap. split; [done|]. split; [done|].
  assert (∀ jump, jump ∈ jumps →
            ∃ e, e ∈ sorted ∧ jumpTarget visibleEvents m e = Some jump) as Hback.
  { intros jump (i & Hi)%list_elem_of_lookup_1.
    destruct (Forall2_lookup_r _ _ _ _ _ Hjumps Hi) as (e & He & Hjump).
    exists e. split; [by eapply list_elem_of_lookup_2|done]. }
  split; [|split].
  - clear Hback Hmap Hin. induction Hjumps as [|e jump sorted jumps Hjump Hrest IH];
      [constructor|].
    apply StronglySorted_inv in Hstrict as [Hstrict Hhead].
    constructor; [apply IH; [done|intros e' He'; apply Htarget; by right]|].
    apply Forall_forall. intros jump' (i & Hi)%list_elem_of_lookup_1.
    destruct (Forall2_lookup_r _ _ _ _ _ Hrest Hi) as (e' & He' & Hjump').
    apply list_elem_of_lookup_2 in He'.
    rewrite Forall_forall in Hhead. specialize (Hhead e' He').
    destruct (Htarget e) as (j & _ & r & Hj & _ & Hr & Hrow & _); [by left|].
    destruct (Htarget e') as (j' & _ & r' & Hj' & _ & Hr' & Hrow' & _); [by right|].
    rewrite Hjump in Hj. rewrite Hjump' in Hj'. injection Hj as <-. injection Hj' as <-.
    lia.
  - intros jump (e & He & Hjump)%Hback.
    destruct (Htarget e He) as (j & event & row & Hj & Hrow & Hr & _ & Hlo & Hevent & Hsearch
                                & Hlabel).
    rewrite Hjump in Hj. injection Hj as <-.
    apply firstRowByEvent_firstRowOf in Hrow. rewrite <- Hr in Hrow.
    exists e, event. repeat (split; [done|]).
    intros Hcount. destruct Hrow as (Hrange & _). unfold selectTableRow.
    destruct (Z.leb_spec (Row jump) 0); [lia|].
    destruct (Z.leb_spec (GetRowCount table) (Row jump)); [lia|]. done.
  - intros e event He Hlo Hevent.
    destruct (firstRowByEvent_complete 0 rowToVisibleEvent ∅ e) as [row Hrow]; [by right|].
    fold m in Hrow.
    assert (e ∈ sorted) as Hsorted.
    { apply Hin. split; [|by exists row]. split; [done|].
      apply lookup_lt_Some in Hevent. lia. }
    destruct (Htarget e Hsorted) as (jump & event' & row' & Hjump & Hrow' & Hr & _ & _ &
                                     Hevent' & Hsearch & _).
    exists jump. split.
    + apply list_elem_of_lookup_1 in Hsorted as [i Hi].
      destruct (Forall2_lookup_l _ _ _ _ _ Hjumps Hi) as (jump' & Hjump' & Heq).
      rewrite Hjump in Heq. injection Heq as <-. by eapply list_elem_of_lookup_2.
    + split; [|congruence]. apply firstRowByEvent_firstRowOf. fold m. congruence.
Qed.

End jump_targets_proofs.

(** ** Resolving a namespace *)

Section namespaces_proofs.
Context `{GoLib} (EqualFold : string → string → bool).

Lemma matchesWith_positive query ns score : matchesWith query ns score → 1 <= score.
Proof.
  unfold matchesWith, fuzzyMatchScore.
  destruct (decide _); [by intros [= <-]|]. destruct (decide _); [done|].
  destruct (0 <=? _).
  { match goal with |- context [?x <? 1] => destruct (Z.ltb_spec x 1) end;
      intros [= <-]; lia. }
  destruct (negb _); [done|].
  match goal with |- context [?x <? 1] => destruct (Z.ltb_spec x 1) end;
    intros [= <-]; lia.
Qed.

Lemma bestNamespace_seen query seen state ns :
  bestSeen query seen state → bestSeen query (seen ++ [ns]) (bestNamespace query state ns).
Proof.
  destruct state as [best bestScore]. unfold bestNamespace.
  destruct (fuzzyMatchScore query ns) as [score ok] eqn:Hns.
  intros [[[= -> ->] Hnone]|(before & after & Hseen & Hbest & Hbefore & Hafter)].
  - destruct ok; cbn [andb].
    + pose proof (matchesWith_positive query ns score Hns).
      destruct (Z.ltb_spec 0 score); [|lia]. right. exists seen, []. cbn [fst snd].
      split; [done|]. split; [done|]. split.
      * intros ns' score' Hin Hm. by eapply Hnone in Hm.
      * intros ns' score' Hin. by apply elem_of_nil in Hin.
    + left. split; [done|]. intros ns' score' [Hin|Hin%list_elem_of_singleton]%elem_of_app.
      * by apply Hnone.
      * subst ns'. unfold matchesWith. rewrite Hns. congruence.
  - cbn [fst snd] in *. right.
    destruct ok; cbn [andb]; [destruct (Z.ltb_spec bestScore score)|].
    + exists seen, []. cbn [fst snd]. split; [done|]. split; [done|]. split.
      * intros ns' score'. rewrite Hseen.
        intros [Hin|[->|Hin]%elem_of_cons]%elem_of_app Hm.
        -- specialize (Hbefore _ _ Hin Hm). lia.
        -- unfold matchesWith in Hm, Hbest. rewrite Hbest in Hm. injection Hm as <-. lia.
        -- specialize (Hafter _ _ Hin Hm). lia.
      * intros ns' score' Hin. by apply elem_of_nil in Hin.
    + exists before, (after ++ [ns]). cbn [fst snd].
      split; [by rewrite Hseen, <- app_assoc|]. split; [done|]. split; [done|].
      intros ns' score' [Hin|Hin%list_elem_of_singleton]%elem_of_app Hm.
      * by eapply Hafter.
      * subst ns'. unfold matchesWith in Hm. rewrite Hns in Hm. injection Hm as <-. lia.
    + exists before, (after ++ [ns]). cbn [fst snd].
      split; [by rewrite Hseen, <- app_assoc|]. split; [done|]. split; [done|].
      intros ns' score' [Hin|Hin%list_elem_of_singleton]%elem_of_app Hm.
      * by eapply Hafter.
      * subst ns'. unfold matchesWith in Hm. rewrite Hns in Hm. congruence.
Qed.

Lemma bestNamespace_fold query seen rest state :
  bestSeen query seen state →
  bestSeen query (seen ++ rest) (fold_left (bestNamespace query) rest state).
Proof.
  revert seen state. induction rest as [|ns rest IH]; intros seen state Hstate;
    cbn [fold_left]; [by rewrite app_nil_r|].
  replace (seen ++ ns :: rest) with ((seen ++ [ns]) ++ rest) by (by rewrite <- app_assoc).
  by apply IH, bestNamespace_seen.
Qed.

(** X21 — the namespace a typed name stands for.  [resolveNamespace]
    succeeds only with the empty name, which stands for all namespaces,
    or with a namespace of the list.  A blank name fails; [all], in any
    letter case, and [*] give all namespaces.  Otherwise the first
    namespace that equals the name, letter case apart, wins; when there
    is none, it is the first of the namespaces with the highest fuzzy
    score, and the call fails when no namespace matches. *)
Theorem resolveNamespace_best (namespaceList : list string) (raw : string) :
  let query := TrimSpace raw in
  let result := resolveNamespace EqualFold namespaceList raw in
  (result.2 = true → result.1 = "" ∨ result.1 ∈ namespaceList) ∧
  (query = "" → result = ("", false)) ∧
  (query ≠ "" → EqualFold query "all" = true ∨ query = "*" → result = ("", true)) ∧
  (query ≠ "" → EqualFold query "all" = false → query ≠ "*" →
   (∀ before ns after,
      namespaceList = before ++ ns :: after → EqualFold ns query = true →
      Forall (fun ns' => EqualFold ns' query = false) before →
      result = (ns, true)) ∧
   (Forall (fun ns => EqualFold ns query = false) namespaceList →
    ((∀ ns score, ns ∈ namespaceList → ¬ matchesWith query ns score) →
     result = ("", false)) ∧
    (∀ ns score, ns ∈ namespaceList → matchesWith query ns score →
       ∃ before best after bestScore,
         namespaceList = before ++ best :: after ∧
         matchesWith query best bestScore ∧
         (∀ ns' score', ns' ∈ before → matchesWith query ns' score' → score' < bestScore) ∧
         (∀ ns' score', ns' ∈ after → matchesWith query ns' score' → score' <= bestScore) ∧
         result = (best, bool_decide (best ≠ ""))))).
Proof.
  intros query result.
  pose proof (bestNamespace_fold query [] namespaceList ("", 0)) as Hfold.
  rewrite app_nil_l in Hfold.
  assert (bestSeen query namespaceList
            (fold_left (bestNamespace query) namespaceList ("", 0))) as Hbest.
  { apply Hfold. left. split; [done|]. intros ns score Hin. by apply elem_of_nil in Hin. }
  clear Hfold. subst result. unfold resolveNamespace. fold query.
  split; [|split; [|split]].
  - destruct (decide (query = "")); [done|]. destruct (_ || _); [by left|].
    destruct (find _ _) as [ns|] eqn:Hfind.
    { intros _. right. apply find_some in Hfind as [Hin _]. by apply list_elem_of_In. }
    destruct (fold_left _ _ _) as [best bestScore].
    destruct (decide (best = "")); [done|]. intros _. right. cbn [fst].
    destruct Hbest as [[[= -> _] _]|(before & after & -> & _)]; [done|].
    cbn [fst]. apply elem_of_app. right. by left.
  - intros Hq. by rewrite decide_True.
  - intros Hq Hall. rewrite decide_False by done.
    destruct Hall as [->| ->]; [done|]. rewrite bool_decide_eq_true_2 by done.
    by rewrite orb_true_r.
  - intros Hq Hall Hstar.
    rewrite decide_False by done. rewrite Hall, bool_decide_eq_false_2 by done. cbn [orb].
    split.
    + intros before ns after Hlist Hns Hbefore. rewrite Hlist.
      assert (find (fun ns => EqualFold ns query) (before ++ ns :: after) = Some ns) as ->;
        [|done].
      clear Hlist. induction Hbefore as [|ns' before Hns' _ IH]; simpl; [by rewrite Hns|].
      by rewrite Hns'.
    + intros Hnone.
      assert (find (fun ns => EqualFold ns query) namespaceList = None) as ->.
      { clear Hbest. induction Hnone as [|ns rest Hns _ IH]; simpl; [done|]. by rewrite Hns. }
      destruct (fold_left _ _ _) as [best bestScore]. split.
      * intros Hno. destruct Hbest as [[[= -> ->] _]|(before & after & Hlist & Hm & _)];
          [done|].
        exfalso. cbn [fst snd] in *. apply (Hno best bestScore); [|done].
        rewrite Hlist. apply elem_of_app. right. by left.
      * intros ns score Hin Hm.
        destruct Hbest as [[_ Hno]|(before & after & Hlist & Hbest & Hbefore & Hafter)];
          [by apply Hno in Hm|].
        cbn [fst snd] in *. exists before, best, after, bestScore.
        repeat (split; [done|]).
        destruct (decide (best = "")) as [->|Hne].
        -- by rewrite bool_decide_eq_false_2 by (intros Hne; by apply Hne).
        -- by rewrite bool_decide_eq_true_2.
Qed.

End namespaces_proofs.


(** ** The claims on the ASCII instance *)

#[local] Existing Instance ascii_lib.

Example splitn_example : SplitN "a│b│c" "│" 6 = ["a"; "b"; "c"].
Proof. reflexivity. Qed.

Example Itoa_example : Itoa 1205 = "1205" ∧ Itoa 0 = "0" ∧ Itoa (-37) = "-37".
Proof. by vm_compute. Qed.

Example time_example :
  ParseRFC3339 "2024-03-01T12:30:05Z" = Some (mkTime 63844893005000000000 0) ∧
  FormatRFC3339 (mkTime 63844893005000000000 0) = "2024-03-01T12:30:05Z".
Proof. by vm_compute. Qed.

Example aggregate_example :
  aggregateSummary [sampleFirst; sampleSecond; sampleOther] = [sampleGroup; sampleOtherGroup].
Proof. by vm_compute. Qed.

Example fuzzy_example :
  fuzzyMatchScore "pd" "Deployment/pd-worker" = (1160, true) ∧
  fuzzyMatchScore "pd" "Pod/web-1" = (19, true).
Proof. by vm_compute. Qed.


(** C3, as the specification states it, fails on two lines of one group
    with the same timestamp: the group keeps the type and message of the
    first. *)
Lemma aggregate_tie_first_wins :
  lineKey sampleFirst = lineKey sampleSecond ∧
  lineTime sampleFirst = lineTime sampleSecond ∧
  aggregateSummary [sampleFirst; sampleSecond] = [sampleGroup] ∧
  lastMessage sampleGroup = lineField 5 sampleFirst ∧
  lastMessage sampleGroup ≠ lineField 5 sampleSecond ∧
  lastType sampleGroup ≠ lineField 2 sampleSecond.
Proof. by vm_compute. Qed.


Lemma aggregate_last_seen_first_wins_witness :
  sampleGroup ∈ aggregateSummary [sampleFirst; sampleSecond] ∧
  suppliedBy (contributing (groupKey sampleGroup) [sampleFirst; sampleSecond]) sampleGroup.
Proof.
  assert (sampleGroup ∈ aggregateSummary [sampleFirst; sampleSecond]) as Hin.
  { apply (bool_decide_unpack _). by vm_compute. }
  split; [exact Hin|].
  apply (aggregate_last_seen_first_wins [sampleFirst; sampleSecond] sampleGroup Hin).
  apply Forall_forall. apply (bool_decide_unpack _). by vm_compute.
Defined.


(** C5, as the specification states it, fails for a long query: forty
    runes matched in two runs score more than the same forty found as a
    substring. *)
Lemma substring_outranked :
  Index (ToLower (TrimSpace longQuery)) (ToLower (TrimSpace longQuery)) = 0 ∧
  Index (ToLower (TrimSpace longSubseq)) (ToLower (TrimSpace longQuery)) = -1 ∧
  fuzzyMatchScore longQuery longQuery = (1200, true) ∧
  fuzzyMatchScore longQuery longSubseq = (1222, true).
Proof. by vm_compute. Qed.

Lemma substring_outranks_bounded_witness :
  fuzzyMatchScore "pd" "Pod/web-1" = (19, true) ∧
  len (ToLower (TrimSpace "pd")) <= 20 ∧
  len (ToLower (TrimSpace "Deployment/pd-worker")) <= 200 ∧
  ∃ s', fuzzyMatchScore "pd" "Deployment/pd-worker" = (s', true) ∧ 19 < s'.
Proof.
  assert (fuzzyMatchScore "pd" "Pod/web-1" = (19, true)) as Hsub by (by vm_compute).
  assert (len (ToLower (TrimSpace "pd")) <= 20) as Hquery by (by vm_compute).
  assert (len (ToLower (TrimSpace "Deployment/pd-worker")) <= 200) as Htarget
    by (by vm_compute).
  split; [exact Hsub|]. split; [exact Hquery|]. split; [exact Htarget|].
  apply (substring_outranks_bounded "pd" "Deployment/pd-worker" "Pod/web-1" 19);
    [by vm_compute|by vm_compute|by vm_compute|exact Hsub|].
  right. split; [by vm_compute|]. split; [exact Hquery|exact Htarget].
Defined.

Lemma wrapLine_round_trip_witness :
  0 < 10 ∧
  Fields (Join (wrapLine sampleText 10) " ") = flat_map (segments 10) (Fields sampleText) ∧
  Forall (fun line => len line <= 10) (wrapLine sampleText 10).
Proof.
  assert (0 < 10) as Hw by lia.
  split; [exact Hw|].
  destruct (@wrapLine_round_trip ascii_lib sampleText 10 AsciiLaws.Fields_word
              AsciiLaws.Fields_Join AsciiLaws.Fields_slice AsciiLaws.Fields_length Hw)
    as (Hrt & Hall & _).
  by split.
Defined.

Lemma render_back_references_witness :
  wellFormed "garbage" = false ∧
  (renderTableContent (NewTable "") [sampleFirst; "garbage"; sampleOther] ""
     allColumns false 120).2 = [0; 2].
Proof.
  split; [by vm_compute|].
  destruct (render_back_references (NewTable "") [sampleFirst; "garbage"; sampleOther] ""
              allColumns false 120) as (_ & -> & _).
  by vm_compute.
Defined.

(** C9, as the specification states it, fails for a width whose fivefold
    does not fit a 64-bit integer. *)
Lemma messageColumnWidth_overflow :
  isInt (2 ^ 62) ∧ 20 <= usableWidth (2 ^ 62) noColumns ∧
  messageColumnWidth (2 ^ 62) noColumns = 922337203685477580 ∧
  Z.max 20 (messageShare (2 ^ 62) noColumns) = 4611686018427387904.
Proof. by vm_compute. Qed.

Lemma messageColumnWidth_share_witness :
  isInt 120 ∧ 20 <= usableWidth 120 allColumns ∧ usableWidth 120 allColumns * 5 <= maxInt ∧
  messageColumnWidth 120 allColumns = Z.max 20 (messageShare 120 allColumns).
Proof.
  assert (isInt 120) as Hint by (by vm_compute).
  assert (20 <= usableWidth 120 allColumns) as Hu by (by vm_compute).
  assert (usableWidth 120 allColumns * 5 <= maxInt) as Hm by (by vm_compute).
  split; [exact Hint|]. split; [exact Hu|]. split; [exact Hm|].
  destruct (messageColumnWidth_share 120 allColumns Hint) as [_ Hshare].
  by apply Hshare.
Defined.

Lemma palette_empty_query_truncates_witness :
  TrimSpace "" = "" ∧ ToLower "" = "" ∧ TrimSpace "  " = "" ∧
  length (buildCommandPaletteResults "  " sampleCommands sampleJumps) = 4%nat.
Proof.
  assert (TrimSpace "" = "") as Htrim by reflexivity.
  assert (ToLower "" = "") as Hlower by reflexivity.
  assert (TrimSpace "  " = "") as Hq by reflexivity.
  split; [exact Htrim|]. split; [exact Hlower|]. split; [exact Hq|].
  destruct (palette_empty_query_truncates "  " sampleCommands sampleJumps Htrim Hlower)
    as [Hempty _].
  destruct (Hempty Hq) as (_ & _ & _ & ->). reflexivity.
Defined.

(** ** More of the code on the ASCII instance *)

Lemma wrapMessage_fits_witness :
  0 < 10 ∧ Forall (fun line => len line <= 10) (wrapMessage sampleText 10).
Proof.
  assert (0 < 10) as Hw by lia.
  split; [exact Hw|].
  destruct (wrapMessage_fits sampleText 10) as (_ & _ & _ & Hfit).
  by destruct (Hfit Hw).
Defined.

Lemma aggregate_group_count_witness :
  sampleGroup ∈ aggregateSummary [sampleFirst; sampleSecond] ∧
  ∃ first rest,
    contributing (groupKey sampleGroup) [sampleFirst; sampleSecond] = first :: rest ∧
    count sampleGroup = Z.of_nat (length (first :: rest)).
Proof.
  assert (sampleGroup ∈ aggregateSummary [sampleFirst; sampleSecond]) as Hin.
  { apply (bool_decide_unpack _). by vm_compute. }
  split; [exact Hin|].
  destruct (aggregate_group_count [sampleFirst; sampleSecond] sampleGroup Hin)
    as (first & rest & Hc & Hn & _).
  by exists first, rest.
Defined.

Lemma aggregate_one_line_per_key_witness :
  length (aggregateEvents [sampleFirst; sampleSecond; sampleOther]) = 2%nat.
Proof.
  destruct (aggregate_one_line_per_key [sampleFirst; sampleSecond; sampleOther])
    as (_ & _ & ->).
  by vm_compute.
Defined.

Lemma eventLine_fields_witness :
  clean (TUI.EventNamespace sampleEvent) ∧
  part (SplitN (TUI.eventLine sampleEvent) "│" 6) 4 =
  " " +:+ padRight 10 (TUI.EventNamespace sampleEvent) +:+ " ".
Proof.
  assert (clean (TUI.EventNamespace sampleEvent)) as Hns by reflexivity.
  split; [exact Hns|].
  destruct (eventLine_fields sampleEvent) as [_ Hfields].
  rewrite Hfields; [reflexivity|by vm_compute|by vm_compute|by vm_compute|by vm_compute|
                    exact Hns].
Defined.

Lemma aggregateEvents_fields_witness :
  clean (namespace sampleGroup) ∧
  part (SplitN (formatGroup sampleGroup) "│" 6) 2 = " 2          ".
Proof.
  assert (clean (namespace sampleGroup)) as Hns by reflexivity.
  split; [exact Hns|].
  destruct (aggregateEvents_fields []) as [_ Hfields].
  rewrite (Hfields sampleGroup); [by vm_compute|by vm_compute|by vm_compute|by vm_compute|
                                  exact Hns].
Defined.

Lemma table_shows_visible_events_witness :
  1 <= 1 < GetRowCount (TUI.table (TUI.run sampleEnv (TUI.startUI sampleEnv "default")
                                     [TUI.WatchEvent 1 sampleEvent])) ∧
  ∃ idx line,
    TUI.visibleEvents (TUI.run sampleEnv (TUI.startUI sampleEnv "default")
                         [TUI.WatchEvent 1 sampleEvent]) !! idx = Some line ∧
    wellFormed line = true.
Proof.
  assert (1 <= 1 < GetRowCount (TUI.table (TUI.run sampleEnv (TUI.startUI sampleEnv "default")
                                             [TUI.WatchEvent 1 sampleEvent]))) as Hrow.
  { by vm_compute. }
  split; [exact Hrow|].
  pose proof (TUIViewProofs.table_shows_visible_events sampleEnv "default"
                [TUI.WatchEvent 1 sampleEvent]) as Hview.
  cbv zeta in Hview. destruct Hview as (_ & _ & Hsel & _).
  destruct (Hsel 1 Hrow) as (idx & line & _ & Hline & Hwf & _).
  exists idx, line. split; [exact Hline|exact Hwf].
Defined.

(** ** The palette, the helpers and the jump on the ASCII instance *)

Lemma palette_results_ranked_witness :
  TrimSpace "ns" ≠ "" ∧
  mkResult (Some (mkCommand "namespace" ["ns"] "Switch namespace" true)) None 1203
    ∈ buildCommandPaletteResults "ns" sampleCommands sampleJumps.
Proof.
  assert (TrimSpace "ns" ≠ "") as Hq by (by vm_compute).
  split; [exact Hq|].
  destruct (palette_results_ranked "ns" sampleCommands sampleJumps) as (_ & _ & Hall & _).
  apply (Hall Hq). left.
  exists (mkCommand "namespace" ["ns"] "Switch namespace" true), 1153.
  split; [constructor|]. split; [by vm_compute|reflexivity].
Defined.

Lemma fuzzyMatchScore_matches_witness :
  ToLower (TrimSpace "pd") ≠ "" ∧
  0 <= Index (ToLower (TrimSpace "Deployment/pd-worker")) (ToLower (TrimSpace "pd")) ∧
  (fuzzyMatchScore "pd" "Deployment/pd-worker").1 <= 1200.
Proof.
  assert (ToLower (TrimSpace "pd") ≠ "") as Hq by (by vm_compute).
  assert (0 <= Index (ToLower (TrimSpace "Deployment/pd-worker")) (ToLower (TrimSpace "pd")))
    as Hidx by (by vm_compute).
  split; [exact Hq|]. split; [exact Hidx|].
  destruct (fuzzyMatchScore_matches "pd" "Deployment/pd-worker") as (_ & _ & Hsub).
  by destruct (Hsub Hq Hidx) as [Hle _].
Defined.

Lemma palette_selection_valid_witness :
  PaletteModal.parsePaletteCommandInput
    (TrimSpace (PaletteModal.inputText (samplePalette sampleKeys))) sampleCommands = None ∧
  PaletteModal.results (samplePalette sampleKeys) ≠ [] ∧
  ∃ selected,
    PaletteModal.results (samplePalette sampleKeys)
      !! Z.to_nat (PaletteModal.selection (samplePalette sampleKeys)) = Some selected.
Proof.
  set (p := samplePalette sampleKeys).
  assert (PaletteModal.parsePaletteCommandInput (TrimSpace (PaletteModal.inputText p))
            sampleCommands = None) as Hparse by (by vm_compute).
  assert (PaletteModal.results p ≠ []) as Hres by (by vm_compute).
  split; [exact Hparse|]. split; [exact Hres|].
  pose proof (PaletteProofs.palette_selection_valid sampleCommands sampleJumps
                (fun _ => true) true sampleKeys) as Hvalid.
  cbv zeta in Hvalid. fold (samplePalette sampleKeys) in Hvalid. fold p in Hvalid. destruct Hvalid as (_ & _ & _ & _ & _ & _ & Henter).
  destruct (Henter Hparse Hres) as (selected & Hsel & _).
  exists selected. exact Hsel.
Defined.

Lemma palette_window_witness :
  isInt 2 ∧ Z.of_nat (length (PaletteModal.results (samplePalette sampleKeys))) <= maxInt ∧
  2 <= 2 ∧ PaletteModal.results (samplePalette sampleKeys) ≠ [] ∧
  (PaletteModal.drawWindow 2 (samplePalette sampleKeys)).1.1
    <= PaletteModal.selection (samplePalette sampleKeys)
    < (PaletteModal.drawWindow 2 (samplePalette sampleKeys)).1.1 +
      (PaletteModal.drawWindow 2 (samplePalette sampleKeys)).1.2.
Proof.
  set (p := samplePalette sampleKeys).
  assert (isInt 2) as Hheight by (by vm_compute).
  assert (Z.of_nat (length (PaletteModal.results p)) <= maxInt) as Hn by (by vm_compute).
  assert (2 <= 2) as Hroom by lia.
  assert (PaletteModal.results p ≠ []) as Hres by (by vm_compute).
  split; [exact Hheight|]. split; [exact Hn|]. split; [exact Hroom|]. split; [exact Hres|].
  pose proof (PaletteProofs.palette_window sampleCommands sampleJumps
                sampleKeys 2) as Hwindow.
  cbv zeta in Hwindow. fold (samplePalette sampleKeys) in Hwindow. fold p in Hwindow.
  revert Hwindow.
  destruct (PaletteModal.drawWindow 2 p) as [[start visibleCount] ofs].
  intros Hwindow. destruct (Hwindow Hheight Hn) as [_ Hshown].
  destruct (Hshown Hroom Hres) as [Hsel _]. exact Hsel.
Defined.

Lemma trimString_cut_witness :
  3 <= 5 < len "abcdefgh" ∧
  trimString "abcdefgh" 5 = Some (slice_to (Z.to_nat (5 - 3)) "abcdefgh" +:+ "...").
Proof.
  assert (3 <= 5 < len "abcdefgh") as Hlimit by (by vm_compute).
  split; [exact Hlimit|].
  destruct (trimString_cut "abcdefgh" 5) as (_ & _ & Hcut & _).
  by destruct (Hcut Hlimit) as (rest & _ & Hcut' & _).
Defined.

Lemma splitResource_first_slash_witness :
  index_of "Pod" "/" = None ∧
  splitResource ("Pod" +:+ "/" +:+ "web-1") = Some ("Pod", "web-1").
Proof.
  assert (index_of "Pod" "/" = None) as Hkind by reflexivity.
  split; [exact Hkind|].
  destruct (splitResource_first_slash "") as [_ Hjoin].
  apply Hjoin; [exact Hkind|by vm_compute|by vm_compute|by vm_compute|done|done].
Defined.

Lemma jumpToBestMatch_best_witness :
  [(0, 1); (1, 3)] ≡ₚ map_to_list (firstRowByEvent 0 [0; 0; 1] ∅) ∧
  [(1, 3); (0, 1)] ≡ₚ map_to_list (firstRowByEvent 0 [0; 0; 1] ∅) ∧
  jumpToBestMatch "pod" [sampleFirst; sampleOther] [(0, 1); (1, 3)] (NewTable "") =
  jumpToBestMatch "pod" [sampleFirst; sampleOther] [(1, 3); (0, 1)] (NewTable "").
Proof.
  assert ([(0, 1); (1, 3)] ≡ₚ map_to_list (firstRowByEvent 0 [0; 0; 1] ∅)) as Horder.
  { replace (map_to_list (firstRowByEvent 0 [0; 0; 1] ∅)) with [(1, 3); (0, 1)]
      by (by vm_compute).
    apply perm_swap. }
  assert ([(1, 3); (0, 1)] ≡ₚ map_to_list (firstRowByEvent 0 [0; 0; 1] ∅)) as Horder'.
  { replace (map_to_list (firstRowByEvent 0 [0; 0; 1] ∅)) with [(1, 3); (0, 1)]
      by (by vm_compute).
    reflexivity. }
  split; [exact Horder|]. split; [exact Horder'|].
  pose proof (jumpToBestMatch_best "pod" [0; 0; 1] [sampleFirst; sampleOther]
                [(0, 1); (1, 3)] [(1, 3); (0, 1)] (NewTable "")) as Hbest.
  cbv zeta in Hbest. by destruct (Hbest Horder Horder') as [Hsame _].
Defined.

Lemma buildJumpTargets_rows_witness :
  [0; 1] ≡ₚ (map_to_list (firstRowByEvent 0 [0; 0; 1] ∅)).*1 ∧
  [1; 0] ≡ₚ (map_to_list (firstRowByEvent 0 [0; 0; 1] ∅)).*1 ∧
  ∃ jumps,
    buildJumpTargets [0; 0; 1] [sampleFirst; sampleOther] [0; 1] = Some jumps ∧
    buildJumpTargets [0; 0; 1] [sampleFirst; sampleOther] [1; 0] = Some jumps.
Proof.
  assert ([0; 1] ≡ₚ (map_to_list (firstRowByEvent 0 [0; 0; 1] ∅)).*1) as Horder.
  { replace ((map_to_list (firstRowByEvent 0 [0; 0; 1] ∅)).*1) with [1; 0]
      by (by vm_compute).
    apply perm_swap. }
  assert ([1; 0] ≡ₚ (map_to_list (firstRowByEvent 0 [0; 0; 1] ∅)).*1) as Horder'.
  { replace ((map_to_list (firstRowByEvent 0 [0; 0; 1] ∅)).*1) with [1; 0]
      by (by vm_compute).
    reflexivity. }
  split; [exact Horder|]. split; [exact Horder'|].
  pose proof (buildJumpTargets_rows [0; 0; 1] [sampleFirst; sampleOther] [0; 1] [1; 0]
                (NewTable "")) as Hrows.
  cbv zeta in Hrows. destruct (Hrows Horder Horder') as (jumps & Hjumps & Hjumps' & _).
  exists jumps. split; [exact Hjumps|exact Hjumps'].
Defined.

Lemma resolveNamespace_best_witness :
  TrimSpace "KUBE-SYSTEM" ≠ "" ∧
  asciiEqualFold (TrimSpace "KUBE-SYSTEM") "all" = false ∧
  TrimSpace "KUBE-SYSTEM" ≠ "*" ∧
  asciiEqualFold "kube-system" (TrimSpace "KUBE-SYSTEM") = true ∧
  resolveNamespace asciiEqualFold ["default"; "kube-system"] "KUBE-SYSTEM" =
  ("kube-system", true).
Proof.
  assert (TrimSpace "KUBE-SYSTEM" ≠ "") as Hq by (by vm_compute).
  assert (asciiEqualFold (TrimSpace "KUBE-SYSTEM") "all" = false) as Hall by (by vm_compute).
  assert (TrimSpace "KUBE-SYSTEM" ≠ "*") as Hstar by (by vm_compute).
  assert (asciiEqualFold "kube-system" (TrimSpace "KUBE-SYSTEM") = true) as Hns
    by (by vm_compute).
  split; [exact Hq|]. split; [exact Hall|]. split; [exact Hstar|]. split; [exact Hns|].
  pose proof (resolveNamespace_best asciiEqualFold ["default"; "kube-system"] "KUBE-SYSTEM")
    as Hbest.
  cbv zeta in Hbest. destruct Hbest as (_ & _ & _ & Hname).
  destruct (Hname Hq Hall Hstar) as [Hexact _].
  apply (Hexact ["default"] "kube-system" []); [reflexivity|exact Hns|].
  apply Forall_cons. split; [by vm_compute|apply Forall_nil_2].
Defined.
